(** * Block CSR matrix (include/sparse/sparse_matrix.h)

    A shallow embedding of the class [A2D::BSRMat<T, M, N>] and of its
    member functions, followed by the properties of lookup, assembly,
    boundary-condition elimination and export.

    Conventions of the embedding.
    - [index_t] is the unsigned integer type of a2dobjs.h and [MAX_INDEX]
      its largest value; the header is not part of the sources at hand, so
      the development is parametric in [MAX_INDEX].  An [index_t] value is
      an integer of [0 .. MAX_INDEX] and arithmetic on it wraps around
      modulo [MAX_INDEX + 1].
    - The scalar type [T] is a parameter, with the values [T(0.0)] and
      [T(1.0)] and the operation behind [+=].  No algebraic law is assumed
      of them: sums are taken in the order in which the code adds.
    - Arrays are lists; [vals], of static extents [*][M][N], is a list of
      blocks, each a list of [M] rows of [N] scalars.  An access outside
      the extents of an array has no defined behaviour in C++: here it is a
      fault, and a member function that faults returns [None].
    - A member function is a computation [op R]: it receives the object,
      and either faults or returns a result together with the object as it
      has become.  The arguments [i], [j] and [dof] are arrays; the local
      matrix [mat] is the function [(ii, jj) -> mat(ii, jj)]. *)

From Stdlib Require Import ZArith Lia.
From Stdlib Require Import String.
From stdpp Require Import base tactics option list list_numbers sorting.

Local Open Scope Z_scope.

(** A lemma depends on the parameters that its statement names only. *)
Set Default Proof Using "Type".

(** ** Arrays indexed by [index_t] *)

Section arrays.
Context {A : Type}.

(** [a[k]] as an rvalue. *)
Definition at_index (l : list A) (k : Z) : option A :=
  if decide (0 ≤ k) then l !! Z.to_nat k else None.

(** [a[k] = x]. *)
Definition store_index (l : list A) (k : Z) (x : A) : option (list A) :=
  if decide (0 ≤ k < Z.of_nat (length l))
  then Some (<[Z.to_nat k := x]> l) else None.

Lemma at_index_Some l k x :
  at_index l k = Some x → 0 ≤ k < Z.of_nat (length l).
Proof.
  unfold at_index. case_decide; [|done].
  intros Hl%lookup_lt_Some. lia.
Qed.

Lemma at_index_is_Some l k :
  0 ≤ k < Z.of_nat (length l) → is_Some (at_index l k).
Proof.
  intros Hk. unfold at_index. rewrite decide_True by lia.
  apply lookup_lt_is_Some. lia.
Qed.

Lemma at_index_elem_of l k x : at_index l k = Some x → x ∈ l.
Proof.
  unfold at_index. case_decide; [|done]. apply list_elem_of_lookup_2.
Qed.

Lemma store_index_Some l k x l' :
  store_index l k x = Some l' →
  0 ≤ k < Z.of_nat (length l) ∧ l' = <[Z.to_nat k := x]> l.
Proof. unfold store_index. case_decide; [by intros [= <-]|done]. Qed.

Lemma store_index_is_Some l k x :
  0 ≤ k < Z.of_nat (length l) → is_Some (store_index l k x).
Proof. intros Hk. unfold store_index. rewrite decide_True by lia. eauto. Qed.

Lemma length_store_index l k x l' :
  store_index l k x = Some l' → length l' = length l.
Proof. intros [_ ->]%store_index_Some. apply length_insert. Qed.

Lemma at_store_index l k x l' j :
  store_index l k x = Some l' →
  at_index l' j = if decide (j = k) then Some x else at_index l j.
Proof.
  intros [Hk ->]%store_index_Some. unfold at_index.
  destruct (decide (0 ≤ j)) as [Hj|Hj].
  - case_decide as Hjk.
    + subst j. apply list_lookup_insert_eq. lia.
    + apply list_lookup_insert_ne. lia.
  - case_decide; [lia|done].
Qed.
End arrays.

(** A sorted array of integers is monotone in its index. *)
Lemma Sorted_le_lookup (l : list Z) (i j : nat) a b :
  Sorted Z.le l → (i ≤ j)%nat → l !! i = Some a → l !! j = Some b → a ≤ b.
Proof.
  intros Hs%Sorted_StronglySorted; [|intros ???; lia].
  revert i j. induction Hs as [|x l Hs IH Hx]; intros i j Hij Hi Hj; [done|].
  destruct i as [|i], j as [|j]; simplify_eq/=; try lia.
  - rewrite Forall_forall in Hx. apply Hx. by eapply list_elem_of_lookup_2.
  - eapply (IH i j); eauto with lia.
Qed.

Lemma Sorted_le_at_index (l : list Z) i j a b :
  Sorted Z.le l → i ≤ j → at_index l i = Some a → at_index l j = Some b → a ≤ b.
Proof.
  unfold at_index. intros Hs Hij. repeat case_decide; try done.
  apply Sorted_le_lookup; [done|lia].
Qed.

(** ** The value store: an array of extents [*][M][N]

    [vget v p a b] is [vals(p, a, b)] as an rvalue and [vset v p a b x] the
    assignment [vals(p, a, b) = x].  Each of the three indices is checked
    against its own extent. *)

Section multiarray.
Context {T : Type}.

Definition vget (v : list (list (list T))) (p a b : Z) : option T :=
  blk ← at_index v p; row ← at_index blk a; at_index row b.

Definition vset (v : list (list (list T))) (p a b : Z) (x : T)
  : option (list (list (list T))) :=
  blk ← at_index v p; row ← at_index blk a;
  row' ← store_index row b x; blk' ← store_index blk a row';
  store_index v p blk'.

(** The extents of the rows of every block. *)
Definition dims (v : list (list (list T))) : list (list nat) :=
  map (map (@length T)) v.

(** The extents [n][M][N]. *)
Definition shape (n M N : Z) : list (list nat) :=
  replicate (Z.to_nat n) (replicate (Z.to_nat M) (Z.to_nat N)).

Lemma vset_is_Some v p a b x : is_Some (vget v p a b) → is_Some (vset v p a b x).
Proof.
  unfold vget, vset. intros [y Hy].
  destruct (at_index v p) as [blk|] eqn:Hp; simplify_eq/=.
  destruct (at_index blk a) as [row|] eqn:Ha; simplify_eq/=.
  destruct (store_index_is_Some row b x) as [row' ->];
    [by eapply at_index_Some|]. simpl.
  destruct (store_index_is_Some blk a row') as [blk' ->];
    [by eapply at_index_Some|]. simpl.
  apply store_index_is_Some. by eapply at_index_Some.
Qed.

(** Reading after a write: the written scalar at the written position,
    the former content everywhere else. *)
Lemma vget_vset v p a b x v' p' a' b' :
  vset v p a b x = Some v' →
  vget v' p' a' b' =
    if decide (p' = p ∧ a' = a ∧ b' = b) then Some x else vget v p' a' b'.
Proof.
  unfold vget, vset. intros Hs.
  destruct (at_index v p) as [blk|] eqn:Hp; simplify_eq/=.
  destruct (at_index blk a) as [row|] eqn:Ha; simplify_eq/=.
  destruct (store_index row b x) as [row'|] eqn:Hb; simplify_eq/=.
  destruct (store_index blk a row') as [blk'|] eqn:Hr; simplify_eq/=.
  rewrite (at_store_index _ _ _ _ p' Hs).
  destruct (decide (p' = p)) as [->|Hpp]; simpl.
  - rewrite (at_store_index _ _ _ _ a' Hr).
    destruct (decide (a' = a)) as [->|Haa]; simpl.
    + rewrite (at_store_index _ _ _ _ b' Hb).
      destruct (decide (b' = b)) as [->|Hbb].
      * by rewrite decide_True.
      * rewrite decide_False by (by intros (_ & _ & ?)).
        by rewrite Hp; simpl; rewrite Ha.
    + rewrite decide_False by (by intros (_ & ? & _)). by rewrite Hp.
  - by rewrite decide_False by (by intros (? & _)).
Qed.

(** A write changes no extent. *)
Lemma dims_vset v p a b x v' : vset v p a b x = Some v' → dims v' = dims v.
Proof.
  unfold vset. intros Hs.
  destruct (at_index v p) as [blk|] eqn:Hp; simplify_eq/=.
  destruct (at_index blk a) as [row|] eqn:Ha; simplify_eq/=.
  destruct (store_index row b x) as [row'|] eqn:Hb; simplify_eq/=.
  destruct (store_index blk a row') as [blk'|] eqn:Hr; simplify_eq/=.
  apply store_index_Some in Hs as [_ ->].
  pose proof (length_store_index _ _ _ _ Hb) as Hlen.
  apply store_index_Some in Hr as [_ ->].
  unfold at_index in Hp, Ha. repeat case_decide; try done.
  unfold dims. apply list_eq; intros i. rewrite !list_lookup_fmap.
  destruct (decide (i = Z.to_nat p)) as [->|Hi].
  - rewrite list_lookup_insert_eq by (by eapply lookup_lt_Some).
    rewrite Hp. simpl. f_equal.
    apply list_eq; intros k. rewrite !list_lookup_fmap.
    destruct (decide (k = Z.to_nat a)) as [->|Hk].
    + rewrite list_lookup_insert_eq by (by eapply lookup_lt_Some).
      rewrite Ha. simpl. by rewrite Hlen.
    + by rewrite list_lookup_insert_ne.
  - by rewrite list_lookup_insert_ne.
Qed.

(** With extents [n][M][N], exactly the indices below the extents are
    readable. *)
Lemma vget_is_Some_shape v n M N p a b :
  dims v = shape n M N →
  is_Some (vget v p a b) ↔ (0 ≤ p < n ∧ 0 ≤ a < M ∧ 0 ≤ b < N).
Proof.
  unfold dims, shape, vget. intros Hd.
  assert (∀ i, (map (length (A:=T))) <$> (v !! i)
             = replicate (Z.to_nat n) (replicate (Z.to_nat M) (Z.to_nat N)) !! i)
    as Hblk.
  { intros i. rewrite <- Hd. by rewrite list_lookup_fmap. }
  unfold at_index. split.
  - intros [x Hx].
    destruct (decide (0 ≤ p)) as [Hp|]; [|done].
    destruct (v !! Z.to_nat p) as [blk|] eqn:Hvp; [|done]. simpl in Hx.
    specialize (Hblk (Z.to_nat p)). rewrite Hvp in Hblk. simpl in Hblk.
    symmetry in Hblk. apply lookup_replicate in Hblk as [Hblk Hpn].
    destruct (decide (0 ≤ a)) as [Ha|]; [|done].
    destruct (blk !! Z.to_nat a) as [row|] eqn:Hba; [|done]. simpl in Hx.
    assert (length <$> (blk !! Z.to_nat a)
            = replicate (Z.to_nat M) (Z.to_nat N) !! Z.to_nat a) as Hrow.
    { rewrite <- Hblk. by rewrite list_lookup_fmap. }
    rewrite Hba in Hrow. simpl in Hrow.
    symmetry in Hrow. apply lookup_replicate in Hrow as [Hrow HaM].
    destruct (decide (0 ≤ b)) as [Hb|]; [|done].
    apply lookup_lt_Some in Hx. lia.
  - intros (Hp & Ha & Hb).
    rewrite decide_True by lia.
    specialize (Hblk (Z.to_nat p)).
    rewrite lookup_replicate_2 in Hblk by lia.
    destruct (v !! Z.to_nat p) as [blk|] eqn:Hvp; [|done]. simplify_eq/=.
    rewrite decide_True by lia.
    assert (length <$> (blk !! Z.to_nat a)
            = replicate (Z.to_nat M) (Z.to_nat N) !! Z.to_nat a) as Hrow.
    { rewrite <- Hblk. by rewrite list_lookup_fmap. }
    rewrite lookup_replicate_2 in Hrow by lia.
    destruct (blk !! Z.to_nat a) as [row|] eqn:Hba; [|done]. simplify_eq/=.
    rewrite decide_True by lia.
    apply lookup_lt_is_Some. lia.
Qed.
End multiarray.

(** ** The class [BSRMat<T, M, N>] *)

Section BSRMat.

(** The scalar type, [T(0.0)], [T(1.0)] and the addition of [+=]. *)
Context {T : Type} (zeroT oneT : T) (addT : T → T → T).

(** The largest [index_t] (a2dobjs.h). *)
Variable MAX_INDEX : Z.

(** The template parameters: the extents of a block. *)
Variables M N : Z.

(** *** Arithmetic of [index_t] *)

Definition wrap (x : Z) : Z := x mod (MAX_INDEX + 1).
Definition iadd (a b : Z) : Z := wrap (a + b).
Definition imul (a b : Z) : Z := wrap (a * b).

Definition is_index (x : Z) : Prop := 0 ≤ x ≤ MAX_INDEX.

(** *** Data members, in the order of their declaration *)

Record BSRMat : Type := {
  nbrows : Z;
  nbcols : Z;
  nnz : Z;
  rowp : list Z;
  cols : list Z;
  diag : list Z;
  perm : list Z;
  iperm : list Z;
  num_colors : Z;
  color_count : list Z;
  vals : list (list (list T))
}.

(** The object with its value store replaced. *)
Definition set_vals (A : BSRMat) (v : list (list (list T))) : BSRMat :=
  {| nbrows := nbrows A; nbcols := nbcols A; nnz := nnz A;
     rowp := rowp A; cols := cols A; diag := diag A; perm := perm A;
     iperm := iperm A; num_colors := num_colors A;
     color_count := color_count A; vals := v |}.

Definition set_rowp (A : BSRMat) (l : list Z) : BSRMat :=
  {| nbrows := nbrows A; nbcols := nbcols A; nnz := nnz A;
     rowp := l; cols := cols A; diag := diag A; perm := perm A;
     iperm := iperm A; num_colors := num_colors A;
     color_count := color_count A; vals := vals A |}.

Definition set_cols (A : BSRMat) (l : list Z) : BSRMat :=
  {| nbrows := nbrows A; nbcols := nbcols A; nnz := nnz A;
     rowp := rowp A; cols := l; diag := diag A; perm := perm A;
     iperm := iperm A; num_colors := num_colors A;
     color_count := color_count A; vals := vals A |}.

(** *** Computations on the object *)

Definition op (R : Type) : Type := BSRMat → option (R * BSRMat).

Definition ret {R} (x : R) : op R := λ s, Some (x, s).

Definition bind {R R'} (c : op R) (k : R → op R') : op R' :=
  λ s, match c s with Some (x, s') => k x s' | None => None end.

Definition fault {R} : op R := λ _, None.

(** A computation that does not involve the object. *)
Definition lift {R} (o : option R) : op R :=
  λ s, match o with Some x => Some (x, s) | None => None end.

(** A scalar data member as an rvalue. *)
Definition gets {R} (f : BSRMat → R) : op R := λ s, Some (f s, s).

(** [arr[k]] as an rvalue, for an index array [arr] of the object. *)
Definition read_idx (arr : BSRMat → list Z) (k : Z) : op Z :=
  λ s, lift (at_index (arr s) k) s.

(** [vals(p, a, b)] as an rvalue. *)
Definition read_vals (p a b : Z) : op T :=
  λ s, lift (vget (vals s) p a b) s.

(** [vals(p, a, b) = x]. *)
Definition write_vals (p a b : Z) (x : T) : op unit :=
  λ s, match vset (vals s) p a b x with
       | Some v' => Some (tt, set_vals s v')
       | None => None
       end.

(** [rowp[k] = x] and [cols[k] = x] (the constructor only). *)
Definition write_rowp (k x : Z) : op unit :=
  λ s, match store_index (rowp s) k x with
       | Some l => Some (tt, set_rowp s l)
       | None => None
       end.

Definition write_cols (k x : Z) : op unit :=
  λ s, match store_index (cols s) k x with
       | Some l => Some (tt, set_cols s l)
       | None => None
       end.

Notation "'let*' x ':=' c 'in' k" := (bind c (λ x, k))
  (at level 10, x pattern, c at level 100, k at level 200).

(** [a / b] and [a % b] on [index_t]; a zero divisor is a fault. *)
Definition idiv (a b : Z) : op Z := if decide (b = 0) then fault else ret (a / b).
Definition imod (a b : Z) : op Z := if decide (b = 0) then fault else ret (a mod b).

(** A loop over the elements of [l], in order; [acc] stands for the local
    variables that the body updates. *)
Fixpoint for_each {I Acc} (l : list I) (body : I → Acc → op Acc) (acc : Acc)
  : op Acc :=
  match l with
  | [] => ret acc
  | x :: l' => let* acc' := body x acc in for_each l' body acc'
  end.

(** [for (index_t k = lo; k < hi; k++) body].  As [hi] is an [index_t],
    the counter visits [lo], [lo + 1], ..., [hi - 1] and never wraps.  The
    bound is evaluated once: where the source evaluates it at every
    iteration ([jp < rowp[i + 1]]), no iteration writes to [rowp]. *)
Definition for_range {Acc} (lo hi : Z) (body : Z → Acc → op Acc) (acc : Acc)
  : op Acc :=
  for_each (seqZ lo (hi - lo)) body acc.

(** *** [zero] *)

(** Modelled from the spec: [A2D::BLAS::zero], which is declared outside
    the sources at hand, overwrites every scalar of the array it is given
    with the additive identity. *)
Definition BLAS_zero (v : list (list (list T))) : list (list (list T)) :=
  map (map (map (λ _, zeroT))) v.

Definition zero : op unit := λ s, Some (tt, set_vals s (BLAS_zero (vals s))).

(** *** [find_column_index] *)

(** The loop of [find_column_index] over the storage indices [jps] that
    remain to be visited, and the [return MAX_INDEX] that follows it. *)
Fixpoint scan_cols (col : Z) (jps : list Z) : op Z :=
  match jps with
  | [] => ret MAX_INDEX
  | jp :: rest =>
      let* c := read_idx cols jp in
      if decide (c = col) then ret jp else scan_cols col rest
  end.

Definition find_column_index (row col : Z) : op Z :=
  let* jp_start := read_idx rowp row in
  let* jp_end := read_idx rowp (iadd row 1) in
  scan_cols col (seqZ jp_start (jp_end - jp_start)).

(** *** [add_values] *)

(** The body of the inner loop, for the pair [(ii, jj)]. *)
Definition add_values_pair (j : list Z) (mat : Z → Z → T)
    (block_row eq_row ii jj : Z) : op unit :=
  let* dj := lift (at_index j jj) in
  let* block_col := idiv dj N in
  let* eq_col := imod dj N in
  let* jp := find_column_index block_row block_col in
  if decide (jp ≠ MAX_INDEX) then
    let* v := read_vals jp eq_row eq_col in
    write_vals jp eq_row eq_col (addT v (mat ii jj))
  else ret tt.

Definition add_values (m : Z) (i : list Z) (n : Z) (j : list Z)
    (mat : Z → Z → T) : op unit :=
  for_range 0 m (λ ii _,
    let* di := lift (at_index i ii) in
    let* block_row := idiv di M in
    let* eq_row := imod di M in
    for_range 0 n (λ jj _, add_values_pair j mat block_row eq_row ii jj) tt) tt.

(** *** [zero_rows] *)

(** The body of the loop over the blocks of the row, for the block [jp]. *)
Definition zero_rows_block (block_row eq_row jp : Z) : op unit :=
  let* _ := for_range 0 N (λ k _, write_vals jp eq_row k zeroT) tt in
  let* c := read_idx cols jp in
  if decide (c = block_row) then write_vals jp eq_row eq_row oneT else ret tt.

(** The body of the outer loop, for the constrained DOF [d]. *)
Definition zero_rows_dof (d : Z) : op unit :=
  let* block_row := idiv d M in
  let* eq_row := imod d M in
  let* lo := read_idx rowp block_row in
  let* hi := read_idx rowp (iadd block_row 1) in
  for_range lo hi (λ jp _, zero_rows_block block_row eq_row jp) tt.

Definition zero_rows (nbcs : Z) (dof : list Z) : op unit :=
  for_range 0 nbcs (λ ii _,
    let* d := lift (at_index dof ii) in zero_rows_dof d) tt.

(** *** [to_dense] *)

(** The body of the innermost loops: the block [jp], of block row [i] and
    block column [j], is copied into the buffer [A] of row length [n]. *)
Definition to_dense_block (n i jp j : Z) (A : list T) : op (list T) :=
  for_range 0 M (λ ii A,
    let irow := iadd (imul M i) ii in
    for_range 0 N (λ jj A,
      let jcol := iadd (imul N j) jj in
      let* v := read_vals jp ii jj in
      lift (store_index A (iadd (imul n irow) jcol) v)) A) A.

(** The result is the triple of the values stored through [m_], [n_] and
    [A_]. *)
Definition to_dense : op (Z * Z * list T) :=
  let* nbr := gets nbrows in
  let* nbc := gets nbcols in
  let m := imul M nbr in
  let n := imul N nbc in
  let size := imul m n in
  let A := replicate (Z.to_nat size) zeroT in
  let* A := for_range 0 nbr (λ i A,
    let* lo := read_idx rowp i in
    let* hi := read_idx rowp (iadd i 1) in
    for_range lo hi (λ jp A,
      let* j := read_idx cols jp in
      to_dense_block n i jp j A) A) A in
  ret (m, n, A).

(** *** [write_mtx] *)

(** The lines of the file, one for each call of [fprintf], with the
    arguments of the call; their rendering by the conversions [%d] and
    [%30.20e] is not part of the model. *)
Inductive mtx_line : Type :=
  | MtxHeader (text : string)
  | MtxSize (nrows ncols nentries : Z)
  | MtxEntry (irow jcol : Z) (v : T).

Definition to_mtx_block (i jp j : Z) (out : list mtx_line) : op (list mtx_line) :=
  for_range 0 M (λ ii out,
    let irow := iadd (iadd (imul M i) ii) 1 in
    for_range 0 N (λ jj out,
      let jcol := iadd (iadd (imul N j) jj) 1 in
      let* v := read_vals jp ii jj in
      ret (out ++ [MtxEntry irow jcol v])) out) out.

(** The result is the content of the file, which is taken to open. *)
Definition write_mtx : op (list mtx_line) :=
  let out := [MtxHeader "%%MatrixMarket matrix coordinate real general"] in
  let* nbr := gets nbrows in
  let* nbc := gets nbcols in
  let* nz := gets nnz in
  let out := out ++ [MtxSize (imul nbr M) (imul nbc N) (imul (imul nz M) N)] in
  for_range 0 nbr (λ i out,
    let* lo := read_idx rowp i in
    let* hi := read_idx rowp (iadd i 1) in
    for_range lo hi (λ jp out,
      let* j := read_idx cols jp in
      to_mtx_block i jp j out) out) out.

(** *** The constructor *)

(** The object once the member initialisers have run and the body has
    allocated [rowp] and [cols].  The constructor initialises neither the
    content of the arrays it allocates nor [num_colors]: [idx0] and [val0]
    stand for the former, [colors0] for the latter. *)
Definition allocated (nbrows_ nbcols_ nnz_ : Z) (idx0 colors0 : Z) (val0 : T)
  : BSRMat :=
  {| nbrows := nbrows_; nbcols := nbcols_; nnz := nnz_;
     rowp := replicate (Z.to_nat (iadd nbrows_ 1)) idx0;
     cols := replicate (Z.to_nat nnz_) idx0;
     diag := []; perm := []; iperm := [];
     num_colors := colors0; color_count := [];
     vals := replicate (Z.to_nat nnz_)
               (replicate (Z.to_nat M) (replicate (Z.to_nat N) val0)) |}.

(** The two loops of the body. *)
Definition copy_pattern (nbrows_ nnz_ : Z) (rowp_ cols_ : list Z) : op unit :=
  let* _ := for_range 0 (iadd nbrows_ 1) (λ i _,
    let* x := lift (at_index rowp_ i) in write_rowp i x) tt in
  for_range 0 nnz_ (λ i _,
    let* x := lift (at_index cols_ i) in write_cols i x) tt.

Definition BSRMat_ctor (nbrows_ nbcols_ nnz_ : Z) (rowp_ cols_ : list Z)
    (idx0 colors0 : Z) (val0 : T) : option BSRMat :=
  snd <$> copy_pattern nbrows_ nnz_ rowp_ cols_
            (allocated nbrows_ nbcols_ nnz_ idx0 colors0 val0).

(** ** What a member function leaves unchanged *)

(** The sparsity pattern and the solver metadata: every data member but
    [vals]. *)
Definition metadata (A : BSRMat)
  : Z * Z * Z * list Z * list Z * list Z * list Z * list Z * Z * list Z :=
  (nbrows A, nbcols A, nnz A, rowp A, cols A, diag A, perm A, iperm A,
   num_colors A, color_count A).

(** Whenever [c] returns, the pattern and the metadata are as before. *)
Definition keeps_metadata {R} (c : op R) : Prop :=
  ∀ s r s', c s = Some (r, s') → metadata s' = metadata s.

(** Whenever [c] returns, the object is as before. *)
Definition read_only {R} (c : op R) : Prop :=
  ∀ s r s', c s = Some (r, s') → s' = s.

Lemma bind_Some {R R'} (c : op R) (k : R → op R') s r' s'' :
  bind c k s = Some (r', s'') ↔
  ∃ r s', c s = Some (r, s') ∧ k r s' = Some (r', s'').
Proof.
  unfold bind. destruct (c s) as [[r s']|]; split.
  - eauto.
  - by intros (? & ? & [= <- <-] & ?).
  - done.
  - by intros (? & ? & ? & ?).
Qed.

Lemma read_only_keeps {R} (c : op R) : read_only c → keeps_metadata c.
Proof. intros Hc s r s' Hs. by rewrite (Hc _ _ _ Hs). Qed.

Lemma read_only_ret {R} (x : R) : read_only (ret x).
Proof. by intros s r s' [= _ <-]. Qed.

Lemma read_only_fault {R} : read_only (@fault R).
Proof. by intros s r s'. Qed.

Lemma read_only_lift {R} (o : option R) : read_only (lift o).
Proof. intros s r s'. unfold lift. destruct o; [by intros [= _ <-]|done]. Qed.

Lemma read_only_gets {R} (f : BSRMat → R) : read_only (gets f).
Proof. by intros s r s' [= _ <-]. Qed.

Lemma read_only_read_idx arr k : read_only (read_idx arr k).
Proof. intros s r s'. unfold read_idx. apply read_only_lift. Qed.

Lemma read_only_read_vals p a b : read_only (read_vals p a b).
Proof. intros s r s'. unfold read_vals. apply read_only_lift. Qed.

Lemma read_only_idiv a b : read_only (idiv a b).
Proof. unfold idiv. case_decide; auto using @read_only_fault, @read_only_ret. Qed.

Lemma read_only_imod a b : read_only (imod a b).
Proof. unfold imod. case_decide; auto using @read_only_fault, @read_only_ret. Qed.

Lemma read_only_bind {R R'} (c : op R) (k : R → op R') :
  read_only c → (∀ x, read_only (k x)) → read_only (bind c k).
Proof.
  intros Hc Hk s r' s'' (r & s' & H1 & H2)%bind_Some.
  apply Hc in H1 as ->. by apply Hk in H2.
Qed.

Lemma read_only_for_each {I Acc} (l : list I) (body : I → Acc → op Acc) acc :
  (∀ x a, read_only (body x a)) → read_only (for_each l body acc).
Proof.
  intros Hb. revert acc. induction l as [|x l IH]; intros acc; simpl.
  - apply read_only_ret.
  - apply read_only_bind; auto.
Qed.

Lemma read_only_for_range {Acc} lo hi (body : Z → Acc → op Acc) acc :
  (∀ x a, read_only (body x a)) → read_only (for_range lo hi body acc).
Proof. apply read_only_for_each. Qed.

Lemma keeps_metadata_write_vals p a b x : keeps_metadata (write_vals p a b x).
Proof.
  intros s r s'. unfold write_vals.
  destruct (vset _ _ _ _ _); [|done]. by intros [= _ <-].
Qed.

Lemma keeps_metadata_zero : keeps_metadata zero.
Proof. by intros s r s' [= _ <-]. Qed.

Lemma keeps_metadata_bind {R R'} (c : op R) (k : R → op R') :
  keeps_metadata c → (∀ x, keeps_metadata (k x)) → keeps_metadata (bind c k).
Proof.
  intros Hc Hk s r' s'' (r & s' & H1 & H2)%bind_Some.
  apply Hc in H1. apply Hk in H2. congruence.
Qed.

Lemma keeps_metadata_for_each {I Acc} (l : list I) (body : I → Acc → op Acc) acc :
  (∀ x a, keeps_metadata (body x a)) → keeps_metadata (for_each l body acc).
Proof.
  intros Hb. revert acc. induction l as [|x l IH]; intros acc; simpl.
  - apply read_only_keeps, read_only_ret.
  - apply keeps_metadata_bind; auto.
Qed.

Lemma keeps_metadata_for_range {Acc} lo hi (body : Z → Acc → op Acc) acc :
  (∀ x a, keeps_metadata (body x a)) → keeps_metadata (for_range lo hi body acc).
Proof. apply keeps_metadata_for_each. Qed.

(** Decomposes a goal [read_only c] or [keeps_metadata c] along the
    structure of [c]; the member functions already treated are taken from
    the hint database. *)
Create HintDb frame discriminated.

Ltac frame_step :=
  first
    [ solve [auto 1 with frame nocore]
    | apply read_only_ret | apply read_only_fault | apply read_only_lift
    | apply read_only_gets | apply read_only_read_idx
    | apply read_only_read_vals | apply read_only_idiv | apply read_only_imod
    | apply read_only_for_range; intros ??
    | apply read_only_for_each; intros ??
    | apply read_only_bind; [|intros ?]
    | apply keeps_metadata_write_vals
    | apply keeps_metadata_zero
    | apply keeps_metadata_for_range; intros ??
    | apply keeps_metadata_for_each; intros ??
    | apply keeps_metadata_bind; [|intros ?]
    | case_decide
    | apply read_only_keeps ].

Ltac frame := repeat frame_step.

Lemma read_only_scan_cols col jps : read_only (scan_cols col jps).
Proof. induction jps as [|jp jps IH]; simpl; frame. Qed.

Local Hint Resolve read_only_scan_cols : frame.

Lemma read_only_find_column_index row col : read_only (find_column_index row col).
Proof. unfold find_column_index. frame. Qed.

Local Hint Resolve read_only_find_column_index : frame.

Lemma read_only_to_dense : read_only to_dense.
Proof. unfold to_dense, to_dense_block. frame. Qed.

Lemma read_only_write_mtx : read_only write_mtx.
Proof. unfold write_mtx, to_mtx_block. frame. Qed.

Lemma keeps_metadata_add_values m i n j mat : keeps_metadata (add_values m i n j mat).
Proof.
  unfold add_values, add_values_pair. frame.
Qed.

Lemma keeps_metadata_zero_rows nbcs dof : keeps_metadata (zero_rows nbcs dof).
Proof. unfold zero_rows, zero_rows_dof, zero_rows_block. frame. Qed.

(** ** Valid matrices *)

(** The CSR invariants of the pattern: the data members hold [index_t]
    values, [rowp] has [nbrows + 1] entries, starts at [0], ends at [nnz]
    and never decreases, and [cols] has [nnz] entries, all of them block
    columns of the matrix. *)
Record csr_pattern (A : BSRMat) : Prop := {
  csr_nbrows : is_index (nbrows A);
  csr_nbcols : is_index (nbcols A);
  csr_nnz : is_index (nnz A);
  csr_rowp_length : Z.of_nat (length (rowp A)) = nbrows A + 1;
  csr_rowp_first : at_index (rowp A) 0 = Some 0;
  csr_rowp_last : at_index (rowp A) (nbrows A) = Some (nnz A);
  csr_rowp_sorted : Sorted Z.le (rowp A);
  csr_cols_length : Z.of_nat (length (cols A)) = nnz A;
  csr_cols_range : Forall (λ c, 0 ≤ c < nbcols A) (cols A)
}.

(** A matrix with a valid CSR pattern: the pattern satisfies the CSR
    invariants, the extents of a block are positive [index_t] values (an
    array type has no zero extent) and [vals] has the extents
    [nnz][M][N], as allocated by the constructor. *)
Record valid (A : BSRMat) : Prop := {
  valid_pattern : csr_pattern A;
  valid_M : 0 < M ≤ MAX_INDEX;
  valid_N : 0 < N ≤ MAX_INDEX;
  valid_shape : dims (vals A) = shape (nnz A) M N
}.

(** The storage indices of the blocks of block row [row]:
    [rowp[row] .. rowp[row + 1] - 1]. *)
Definition row_slots (A : BSRMat) (row : Z) : list Z :=
  match at_index (rowp A) row, at_index (rowp A) (row + 1) with
  | Some lo, Some hi => seqZ lo (hi - lo)
  | _, _ => []
  end.

(** The first of the storage indices [jps] whose block column is [col],
    [MAX_INDEX] when there is none. *)
Definition first_slot (A : BSRMat) (col : Z) (jps : list Z) : Z :=
  match list_find (λ jp, at_index (cols A) jp = Some col) jps with
  | Some (_, jp) => jp
  | None => MAX_INDEX
  end.

(** The storage slot of the block [(row, col)]. *)
Definition slot_of (A : BSRMat) (row col : Z) : Z :=
  first_slot A col (row_slots A row).

(** No block row lists a block column twice. *)
Definition dup_free (A : BSRMat) : Prop :=
  Forall (λ row, NoDup (at_index (cols A) <$> row_slots A row))
         (seqZ 0 (nbrows A)).

Lemma wrap_small x : 0 ≤ x ≤ MAX_INDEX → wrap x = x.
Proof. intros Hx. unfold wrap. apply Z.mod_small. lia. Qed.

Lemma iadd_small a b : 0 ≤ a + b ≤ MAX_INDEX → iadd a b = a + b.
Proof. apply wrap_small. Qed.

Lemma imul_small a b : 0 ≤ a * b ≤ MAX_INDEX → imul a b = a * b.
Proof. apply wrap_small. Qed.

Lemma csr_rowp_lookup A k :
  csr_pattern A → 0 ≤ k ≤ nbrows A →
  ∃ x, at_index (rowp A) k = Some x ∧ 0 ≤ x ≤ nnz A.
Proof.
  intros HA Hk.
  destruct (at_index_is_Some (rowp A) k) as [x Hx];
    [rewrite (csr_rowp_length A HA); lia|].
  exists x. split; [done|]. split.
  - eapply (Sorted_le_at_index (rowp A) 0 k);
      eauto using csr_rowp_sorted, csr_rowp_first with lia.
  - eapply (Sorted_le_at_index (rowp A) k (nbrows A));
      eauto using csr_rowp_sorted, csr_rowp_last with lia.
Qed.

(** The bounds of a block row of a valid pattern. *)
Lemma csr_row_bounds A row :
  csr_pattern A → 0 ≤ row < nbrows A →
  ∃ lo hi, at_index (rowp A) row = Some lo
         ∧ at_index (rowp A) (row + 1) = Some hi
         ∧ 0 ≤ lo ≤ hi ∧ hi ≤ nnz A.
Proof.
  intros HA Hrow.
  destruct (csr_rowp_lookup A row HA) as (lo & Hlo & ?); [lia|].
  destruct (csr_rowp_lookup A (row + 1) HA) as (hi & Hhi & ?); [lia|].
  exists lo, hi. repeat split; try done; try lia.
  eapply (Sorted_le_at_index (rowp A) row (row + 1));
    eauto using csr_rowp_sorted with lia.
Qed.

Lemma elem_of_row_slots A row p :
  p ∈ row_slots A row ↔
  ∃ lo hi, at_index (rowp A) row = Some lo
         ∧ at_index (rowp A) (row + 1) = Some hi ∧ lo ≤ p < hi.
Proof.
  unfold row_slots.
  destruct (at_index (rowp A) row) as [lo|];
    [destruct (at_index (rowp A) (row + 1)) as [hi|]|].
  - rewrite elem_of_seqZ. split.
    + intros ?. exists lo, hi. auto with lia.
    + intros (? & ? & [= <-] & [= <-] & ?). lia.
  - split; [by intros ?%elem_of_nil|]. by intros (? & ? & ? & ? & ?).
  - split; [by intros ?%elem_of_nil|]. by intros (? & ? & ? & ? & ?).
Qed.

(** The slots of a block row of a valid pattern are storage indices, and
    two distinct block rows share none. *)
Lemma row_slots_range A row p :
  csr_pattern A → 0 ≤ row < nbrows A → p ∈ row_slots A row → 0 ≤ p < nnz A.
Proof.
  intros HA Hrow (lo & hi & Hlo & Hhi & Hp)%elem_of_row_slots.
  destruct (csr_row_bounds A row HA Hrow) as (lo' & hi' & ? & ? & ? & ?).
  simplify_eq. lia.
Qed.

Lemma row_slots_disjoint A row row' p :
  csr_pattern A → 0 ≤ row < nbrows A → 0 ≤ row' < nbrows A →
  p ∈ row_slots A row → p ∈ row_slots A row' → row = row'.
Proof.
  intros HA Hrow Hrow' (lo & hi & Hlo & Hhi & Hp)%elem_of_row_slots
    (lo' & hi' & Hlo' & Hhi' & Hp')%elem_of_row_slots.
  pose proof (csr_rowp_sorted A HA) as Hs.
  destruct (Z.lt_trichotomy row row') as [Hlt|[->|Hlt]]; [|done|].
  - pose proof (Sorted_le_at_index _ (row + 1) row' _ _ Hs ltac:(lia) Hhi Hlo').
    lia.
  - pose proof (Sorted_le_at_index _ (row' + 1) row _ _ Hs ltac:(lia) Hhi' Hlo).
    lia.
Qed.

Lemma csr_cols_lookup A p :
  csr_pattern A → 0 ≤ p < nnz A →
  ∃ c, at_index (cols A) p = Some c ∧ 0 ≤ c < nbcols A.
Proof.
  intros HA Hp.
  destruct (at_index_is_Some (cols A) p) as [c Hc];
    [rewrite (csr_cols_length A HA); lia|].
  exists c. split; [done|].
  pose proof (csr_cols_range A HA) as Hr. rewrite Forall_forall in Hr.
  apply Hr. by eapply at_index_elem_of.
Qed.

(** *** Lookup *)

Lemma read_idx_Some arr k x s : at_index (arr s) k = Some x → read_idx arr k s = Some (x, s).
Proof. unfold read_idx, lift. by intros ->. Qed.

(** The loop of [find_column_index] returns the first match. *)
Lemma scan_cols_first_slot A col jps :
  (∀ jp, jp ∈ jps → is_Some (at_index (cols A) jp)) →
  scan_cols col jps A = Some (first_slot A col jps, A).
Proof.
  unfold first_slot. induction jps as [|jp jps IH]; intros Hall; [done|].
  destruct (Hall jp) as [c Hc]; [by left|].
  simpl. unfold bind. rewrite (read_idx_Some cols jp c A Hc).
  destruct (decide (c = col)) as [->|Hne].
  - by rewrite decide_True.
  - rewrite decide_False by congruence.
    rewrite IH by (intros; apply Hall; by right).
    by destruct (list_find _ jps) as [[??]|].
Qed.

Lemma find_column_index_slot_of A row col :
  csr_pattern A → 0 ≤ row < nbrows A →
  find_column_index row col A = Some (slot_of A row col, A).
Proof.
  intros HA Hrow.
  destruct (csr_row_bounds A row HA Hrow) as (lo & hi & Hlo & Hhi & ? & ?).
  unfold find_column_index, bind.
  rewrite (read_idx_Some rowp row lo A Hlo).
  rewrite iadd_small by (destruct (csr_nbrows A HA); lia).
  rewrite (read_idx_Some rowp (row + 1) hi A Hhi).
  unfold slot_of, row_slots. rewrite Hlo, Hhi.
  apply scan_cols_first_slot. intros jp Hjp%elem_of_seqZ.
  destruct (csr_cols_lookup A jp HA) as (c & -> & _); [lia|]. eauto.
Qed.

(** What [first_slot] returns. *)
Lemma first_slot_found A col jps p :
  first_slot A col jps = p → p ≠ MAX_INDEX →
  p ∈ jps ∧ at_index (cols A) p = Some col.
Proof.
  unfold first_slot.
  destruct (list_find _ jps) as [[k q]|] eqn:Hf; [|congruence].
  intros -> _. apply list_find_Some in Hf as (Hk & Hq & _).
  split; [by eapply list_elem_of_lookup_2|done].
Qed.

Lemma first_slot_match A col jps :
  (∃ q, q ∈ jps ∧ at_index (cols A) q = Some col) →
  first_slot A col jps ∈ jps ∧
  at_index (cols A) (first_slot A col jps) = Some col.
Proof.
  intros (q & Hq & Hc). unfold first_slot.
  destruct (list_find_elem_of (λ jp, at_index (cols A) jp = Some col) jps q)
    as [[k p] Hf]; [done..|].
  rewrite Hf. apply list_find_Some in Hf as (Hk & Hp & _).
  split; [by eapply list_elem_of_lookup_2|done].
Qed.

Lemma first_slot_no_match A col jps :
  (∀ q, q ∈ jps → at_index (cols A) q ≠ Some col) →
  first_slot A col jps = MAX_INDEX.
Proof.
  intros Hno. unfold first_slot.
  destruct (list_find _ jps) as [[k p]|] eqn:Hf; [|done].
  apply list_find_Some in Hf as (Hk & Hp & _).
  destruct (Hno p); [by eapply list_elem_of_lookup_2|done].
Qed.

(** C4.  On a matrix with a valid CSR pattern and [nnz < MAX_INDEX], for
    an in-range block row [row] and any block column [col],
    [find_column_index(row, col)] returns a storage index [p] with
    [rowp[row] <= p < rowp[row + 1]] and [cols[p] == col] whenever there
    is one, and [MAX_INDEX] when no entry of [cols] in that range equals
    [col]; [MAX_INDEX] differs from every storage index. *)
Theorem find_column_index_lookup A row col :
  csr_pattern A → nnz A < MAX_INDEX → 0 ≤ row < nbrows A →
  ∃ lo hi p,
    at_index (rowp A) row = Some lo ∧
    at_index (rowp A) (row + 1) = Some hi ∧
    find_column_index row col A = Some (p, A) ∧
    ((∃ q, lo ≤ q < hi ∧ at_index (cols A) q = Some col) →
       lo ≤ p < hi ∧ at_index (cols A) p = Some col) ∧
    ((∀ q, lo ≤ q < hi → at_index (cols A) q ≠ Some col) → p = MAX_INDEX) ∧
    (∀ q, 0 ≤ q < nnz A → q ≠ MAX_INDEX).
Proof.
  intros HA Hnnz Hrow.
  destruct (csr_row_bounds A row HA Hrow) as (lo & hi & Hlo & Hhi & ? & ?).
  exists lo, hi, (slot_of A row col).
  split_and!; try done.
  - by apply find_column_index_slot_of.
  - intros (q & Hq & Hc).
    destruct (first_slot_match A col (row_slots A row)) as [Hin Hcol].
    { exists q. split; [|done]. apply elem_of_row_slots. eauto 6. }
    split; [|done].
    apply elem_of_row_slots in Hin as (? & ? & ? & ? & ?). by simplify_eq.
  - intros Hno. apply first_slot_no_match.
    intros q (? & ? & ? & ? & ?)%elem_of_row_slots. simplify_eq. by apply Hno.
  - intros q Hq. lia.
Qed.

(** C7.  Whenever [zero], [find_column_index], [add_values], [zero_rows],
    [to_dense] or [write_mtx] returns, the data members [nbrows],
    [nbcols], [nnz], [rowp], [cols], [diag], [perm], [iperm],
    [num_colors] and [color_count] are as they were before the call: only
    [vals] is ever written.  The three functions that only read leave
    [vals] as it was, too. *)
Theorem pattern_and_metadata_unchanged :
  keeps_metadata zero ∧
  (∀ row col, keeps_metadata (find_column_index row col)) ∧
  (∀ m i n j mat, keeps_metadata (add_values m i n j mat)) ∧
  (∀ nbcs dof, keeps_metadata (zero_rows nbcs dof)) ∧
  keeps_metadata to_dense ∧
  keeps_metadata write_mtx ∧
  (∀ row col, read_only (find_column_index row col)) ∧
  read_only to_dense ∧
  read_only write_mtx.
Proof.
  split_and!.
  - apply keeps_metadata_zero.
  - intros. apply read_only_keeps, read_only_find_column_index.
  - apply keeps_metadata_add_values.
  - apply keeps_metadata_zero_rows.
  - apply read_only_keeps, read_only_to_dense.
  - apply read_only_keeps, read_only_write_mtx.
  - apply read_only_find_column_index.
  - apply read_only_to_dense.
  - apply read_only_write_mtx.
Qed.

(** ** Assembly *)

(** The first [len] entries of the array [dofs] exist, and each decomposes
    to a block index below [nblocks]. *)
Definition dofs_in_range (bdim nblocks len : Z) (dofs : list Z) : Prop :=
  len ≤ Z.of_nat (length dofs) ∧
  Forall (λ d, 0 ≤ d ∧ d / bdim < nblocks) (take (Z.to_nat len) dofs).

(** The scalar slot [(p, a, b)] of [vals] that the pair [(ii, jj)] of a
    call addresses: that of the block [(i[ii] / M, j[jj] / N)], if the
    pattern has it, at the offsets [(i[ii] % M, j[jj] % N)]. *)
Definition addressed (A : BSRMat) (i j : list Z) (ii jj : Z)
  : option (Z * Z * Z) :=
  di ← at_index i ii;
  dj ← at_index j jj;
  let p := slot_of A (di / M) (dj / N) in
  if decide (p ≠ MAX_INDEX) then Some (p, di mod M, dj mod N) else None.

(** The entries of [mat] that a call addresses to the scalar slot [slot],
    in the order of the loops. *)
Definition contributions (A : BSRMat) (m : Z) (i : list Z) (n : Z)
    (j : list Z) (mat : Z → Z → T) (slot : Z * Z * Z) : list T :=
  ii ← seqZ 0 m;
  jj ← seqZ 0 n;
  if decide (addressed A i j ii jj = Some slot) then [mat ii jj] else [].

(** [c], run on a valid matrix with the pattern of [A], returns a valid
    matrix with the same pattern in which every scalar slot has received,
    one after the other, the scalars [contrib slot]. *)
Definition accumulates (A : BSRMat) (c : op unit)
    (contrib : Z * Z * Z → list T) : Prop :=
  ∀ s, valid s → metadata s = metadata A →
  ∃ s', c s = Some (tt, s') ∧ valid s' ∧ metadata s' = metadata A ∧
    ∀ p a b, vget (vals s') p a b
             = fold_left addT (contrib (p, a, b)) <$> vget (vals s) p a b.

Lemma dofs_in_range_lookup bdim nblocks len dofs k :
  dofs_in_range bdim nblocks len dofs → 0 ≤ k < len →
  ∃ d, at_index dofs k = Some d ∧ 0 ≤ d ∧ d / bdim < nblocks.
Proof.
  intros [Hlen Hall] Hk.
  destruct (at_index_is_Some dofs k) as [d Hd]; [lia|].
  exists d. split; [done|].
  rewrite Forall_forall in Hall. apply Hall.
  unfold at_index in Hd. rewrite decide_True in Hd by lia.
  apply list_elem_of_lookup. exists (Z.to_nat k).
  rewrite lookup_take_lt by lia. done.
Qed.

Lemma metadata_eq s A :
  metadata s = metadata A →
  nbrows s = nbrows A ∧ nbcols s = nbcols A ∧ nnz s = nnz A ∧
  rowp s = rowp A ∧ cols s = cols A.
Proof. unfold metadata. intros [=]. auto. Qed.

Lemma slot_of_metadata s A row col :
  metadata s = metadata A → slot_of s row col = slot_of A row col.
Proof.
  intros (_ & _ & _ & Hr & Hc)%metadata_eq.
  unfold slot_of, first_slot, row_slots. by rewrite Hr, Hc.
Qed.

Lemma csr_pattern_metadata s A :
  metadata s = metadata A → csr_pattern s → csr_pattern A.
Proof.
  intros Hm []. unfold metadata in Hm.
  injection Hm as Hr Hc Hz Hrp Hcl _ _ _ _ _.
  split; rewrite <- ?Hr, <- ?Hc, <- ?Hz, <- ?Hrp, <- ?Hcl; done.
Qed.

Lemma valid_same_shape s s' :
  valid s → metadata s' = metadata s → dims (vals s') = dims (vals s) → valid s'.
Proof.
  intros [[] ? ? Hsh] (Hr & Hc & Hz & Hrp & Hcl)%metadata_eq Hd.
  split; [split|..]; rewrite ?Hr, ?Hc, ?Hz, ?Hrp, ?Hcl, ?Hd; done.
Qed.

Lemma write_vals_Some s p a b x :
  is_Some (vget (vals s) p a b) →
  ∃ s', write_vals p a b x s = Some (tt, s') ∧ metadata s' = metadata s ∧
        dims (vals s') = dims (vals s) ∧
        ∀ p' a' b', vget (vals s') p' a' b'
          = if decide (p' = p ∧ a' = a ∧ b' = b) then Some x
            else vget (vals s) p' a' b'.
Proof.
  intros Hg. destruct (vset_is_Some _ _ _ _ x Hg) as [v' Hv'].
  exists (set_vals s v'). unfold write_vals. rewrite Hv'.
  split_and!; [done..| |].
  - by eapply dims_vset.
  - intros p' a' b'. by eapply vget_vset.
Qed.

Lemma accumulates_ret A : accumulates A (ret tt) (λ _, []).
Proof.
  intros s Hs Hm. exists s. split_and!; try done.
  intros p a b. by destruct (vget _ _ _ _).
Qed.

Lemma accumulates_ext A c c' contrib contrib' :
  accumulates A c contrib →
  (∀ s, valid s → metadata s = metadata A → c' s = c s) →
  (∀ slot, contrib' slot = contrib slot) →
  accumulates A c' contrib'.
Proof.
  intros Hc Hcc Hcontrib s Hs Hm.
  destruct (Hc s Hs Hm) as (s' & ? & ? & ? & Hv).
  exists s'. rewrite Hcc by done. split_and!; try done.
  intros p a b. by rewrite Hcontrib.
Qed.

(** A loop adds up what its iterations add. *)
Lemma accumulates_for_each {I} A (l : list I) (body : I → op unit)
    (contrib : I → Z * Z * Z → list T) :
  (∀ x, x ∈ l → accumulates A (body x) (contrib x)) →
  accumulates A (for_each l (λ x _, body x) tt)
    (λ slot, x ← l; contrib x slot).
Proof.
  induction l as [|x l IH]; intros Hb.
  - apply accumulates_ret.
  - intros s Hs Hm.
    destruct (Hb x ltac:(by left) s Hs Hm) as (s1 & Hx & Hs1 & Hm1 & Hv1).
    destruct (IH ltac:(intros; apply Hb; by right) s1 Hs1 Hm1)
      as (s2 & Hl & Hs2 & Hm2 & Hv2).
    exists s2. split_and!; try done.
    + simpl. unfold bind. by rewrite Hx.
    + intros p a b. rewrite Hv2, Hv1.
      destruct (vget (vals s) p a b); simpl; [|done].
      by rewrite fold_left_app.
Qed.

(** The body of the inner loop of [add_values] adds [mat(ii, jj)] to the
    slot that the pair addresses, and nothing when the block is absent. *)
Lemma accumulates_add_values_pair A i j mat ii jj di dj :
  at_index i ii = Some di → 0 ≤ di → di / M < nbrows A →
  at_index j jj = Some dj →
  accumulates A (add_values_pair j mat (di / M) (di mod M) ii jj)
    (λ slot, if decide (addressed A i j ii jj = Some slot)
             then [mat ii jj] else []).
Proof.
  intros Hi Hdi Hbr Hj s Hs Hm.
  pose proof (valid_M s Hs) as HM. pose proof (valid_N s Hs) as HN.
  pose proof (valid_pattern s Hs) as Hpat.
  destruct (metadata_eq s A Hm) as (Hr & Hc & Hz & _).
  unfold add_values_pair, bind, lift, idiv, imod. rewrite Hj.
  rewrite !decide_False by lia. unfold ret at 1 2.
  assert (0 ≤ di / M < nbrows s) as Hrow
    by (rewrite Hr; split; [apply Z.div_pos; lia|done]).
  rewrite find_column_index_slot_of by done.
  unfold addressed. rewrite Hi, Hj. simpl.
  rewrite (slot_of_metadata s A) by done.
  set (p := slot_of A (di / M) (dj / N)).
  destruct (decide (p ≠ MAX_INDEX)) as [Hp|Hp].
  - assert (0 ≤ p < nnz s) as Hpr.
    { destruct (first_slot_found s (dj / N) (row_slots s (di / M)) p)
        as [Hin _]; [by unfold p; rewrite <- (slot_of_metadata s A)|done|].
      by eapply row_slots_range. }
    assert (is_Some (vget (vals s) p (di mod M) (dj mod N))) as [v Hv].
    { eapply vget_is_Some_shape; [by apply valid_shape|].
      pose proof (Z.mod_pos_bound di M). pose proof (Z.mod_pos_bound dj N).
      lia. }
    unfold read_vals, lift. rewrite Hv.
    destruct (write_vals_Some s p (di mod M) (dj mod N) (addT v (mat ii jj)))
      as (s' & -> & Hm' & Hd' & Hv'); [by rewrite Hv|].
    exists s'. split_and!; [done| |congruence|].
    + by eapply valid_same_shape.
    + intros p' a' b'. rewrite Hv'.
      destruct (decide (p' = p ∧ a' = di mod M ∧ b' = dj mod N))
        as [(-> & -> & ->)|Hne].
      * rewrite decide_True by done. by rewrite Hv.
      * rewrite decide_False by (intros [= ? ? ?]; apply Hne; by split_and!).
        by destruct (vget (vals s) p' a' b').
  - exists s. split_and!; try done.
    intros p' a' b'. by destruct (vget (vals s) p' a' b').
Qed.

(** [add_values] adds to every scalar slot the entries of [mat] addressed
    to it. *)
Lemma accumulates_add_values A m i n j mat :
  valid A →
  dofs_in_range M (nbrows A) m i → n ≤ Z.of_nat (length j) →
  accumulates A (add_values m i n j mat) (contributions A m i n j mat).
Proof.
  intros HA Hi Hj. unfold add_values, for_range, contributions.
  rewrite Z.sub_0_r.
  apply (accumulates_for_each A (seqZ 0 m) _
           (λ ii slot, jj ← seqZ 0 n;
              if decide (addressed A i j ii jj = Some slot)
              then [mat ii jj] else [])).
  intros ii Hii%elem_of_seqZ.
  destruct (dofs_in_range_lookup _ _ _ _ ii Hi) as (di & Hdi & ? & ?); [lia|].
  eapply accumulates_ext.
  - apply (accumulates_for_each A (seqZ 0 n)
             (λ jj, add_values_pair j mat (di / M) (di mod M) ii jj)
             (λ jj slot, if decide (addressed A i j ii jj = Some slot)
                         then [mat ii jj] else [])).
    intros jj Hjj%elem_of_seqZ.
    destruct (at_index_is_Some j jj) as [dj Hdj]; [lia|].
    by eapply accumulates_add_values_pair.
  - intros s Hs _. pose proof (valid_M s Hs).
    unfold bind, lift, idiv, imod. rewrite Hdi.
    rewrite !decide_False by lia. unfold ret. by rewrite Z.sub_0_r.
  - done.
Qed.

(** A call of [add_values], and the assembly of a sequence of calls. *)
Record call : Type := {
  call_m : Z;
  call_i : list Z;
  call_n : Z;
  call_j : list Z;
  call_mat : Z → Z → T
}.

Definition run_call (c : call) : op unit :=
  add_values (call_m c) (call_i c) (call_n c) (call_j c) (call_mat c).

Definition assemble (calls : list call) : op unit :=
  for_each calls (λ c _, run_call c) tt.

Definition call_in_range (A : BSRMat) (c : call) : Prop :=
  dofs_in_range M (nbrows A) (call_m c) (call_i c) ∧
  dofs_in_range N (nbcols A) (call_n c) (call_j c).

Definition call_contributions (A : BSRMat) (c : call) (slot : Z * Z * Z)
  : list T :=
  contributions A (call_m c) (call_i c) (call_n c) (call_j c) (call_mat c) slot.

(** Freshly zeroed storage. *)
Definition all_zero (A : BSRMat) : Prop :=
  Forall (Forall (Forall (λ v, v = zeroT))) (vals A).

Lemma all_zero_vget A p a b v :
  all_zero A → vget (vals A) p a b = Some v → v = zeroT.
Proof.
  unfold all_zero, vget. intros Hz Hv.
  destruct (at_index (vals A) p) as [blk|] eqn:Hp; simplify_eq/=.
  destruct (at_index blk a) as [row|] eqn:Ha; simplify_eq/=.
  apply at_index_elem_of in Hp, Ha, Hv.
  rewrite Forall_forall in Hz. specialize (Hz _ Hp).
  rewrite Forall_forall in Hz. specialize (Hz _ Ha).
  rewrite Forall_forall in Hz. by apply Hz.
Qed.

Lemma accumulates_assemble A calls :
  valid A → Forall (call_in_range A) calls →
  accumulates A (assemble calls) (λ slot, c ← calls; call_contributions A c slot).
Proof.
  intros HA Hcalls. apply accumulates_for_each. intros c Hc.
  rewrite Forall_forall in Hcalls. destruct (Hcalls c Hc) as [Hi [Hj _]].
  by apply accumulates_add_values.
Qed.

(** The slot of a block is the first slot of its row that holds it. *)
Lemma slot_of_least A row col q :
  q ∈ row_slots A row → at_index (cols A) q = Some col →
  slot_of A row col ≤ q.
Proof.
  intros Hq Hc. unfold slot_of, first_slot.
  destruct (list_find_elem_of (λ jp, at_index (cols A) jp = Some col)
              (row_slots A row) q) as [[k p] Hf]; [done..|].
  rewrite Hf. apply list_find_Some in Hf as (Hk & _ & Hleast).
  apply list_elem_of_lookup in Hq as [k' Hk'].
  unfold row_slots in Hk, Hk', Hleast.
  destruct (at_index (rowp A) row) as [lo|]; [|done].
  destruct (at_index (rowp A) (row + 1)) as [hi|]; [|done].
  apply lookup_seqZ in Hk as [-> ?], Hk' as [-> ?].
  destruct (decide (k ≤ k')%nat) as [|Hlt]; [lia|].
  destruct (Hleast k' (lo + Z.of_nat k')); [|lia|done].
  apply lookup_seqZ. split; [done|lia].
Qed.

(** A pair whose block the pattern has at the slot [p] (the first such
    slot, should the row list the block column more than once) addresses
    the scalar slot [(p, i[ii] % M, j[jj] % N)]. *)
Lemma addressed_present A i j ii jj di dj p :
  csr_pattern A →
  at_index i ii = Some di → at_index j jj = Some dj →
  0 ≤ di → di / M < nbrows A → 0 < M →
  p ∈ row_slots A (di / M) → at_index (cols A) p = Some (dj / N) →
  (∀ q, q ∈ row_slots A (di / M) → at_index (cols A) q = Some (dj / N) → p ≤ q) →
  addressed A i j ii jj = Some (p, di mod M, dj mod N).
Proof.
  intros HA Hi Hj Hdi Hbr HM Hp Hc Hfirst.
  assert (0 ≤ di / M < nbrows A) as Hrow by (split; [apply Z.div_pos; lia|done]).
  destruct (first_slot_match A (dj / N) (row_slots A (di / M))) as [Hin Hcol];
    [by exists p|].
  fold (slot_of A (di / M) (dj / N)) in Hin, Hcol.
  assert (slot_of A (di / M) (dj / N) = p) as Hslot.
  { pose proof (slot_of_least A (di / M) (dj / N) p Hp Hc).
    pose proof (Hfirst _ Hin Hcol). lia. }
  unfold addressed. rewrite Hi, Hj. simpl. rewrite Hslot.
  rewrite decide_True; [done|].
  pose proof (row_slots_range A (di / M) p HA Hrow Hp).
  destruct (csr_nnz A HA). lia.
Qed.

(** C1.  On a matrix with a valid CSR pattern, a call
    [add_values(m, i, n, j, mat)] whose DOF indices decompose to in-range
    block indices returns, and every scalar slot [vals(p, a, b)] then
    holds its former value to which the entries [mat(ii, jj)] of the pairs
    addressed to it have been added, one after the other; the pairs
    addressed to it are those whose block [(i[ii] / M, j[jj] / N)] the
    pattern has at the storage slot [p], with [a = i[ii] % M] and
    [b = j[jj] % N].  Consequently, after the assembly of any sequence of
    such calls into zeroed storage, the scalar read at the slot that
    [find_column_index] returns is the sum of all the contributions
    addressed to it. *)
Theorem add_values_assembles A :
  valid A →
  (∀ m i n j mat,
     dofs_in_range M (nbrows A) m i → dofs_in_range N (nbcols A) n j →
     ∃ A', add_values m i n j mat A = Some (tt, A') ∧
       ∀ p a b,
         vget (vals A') p a b
         = fold_left addT (contributions A m i n j mat (p, a, b))
             <$> vget (vals A) p a b) ∧
  (∀ i j ii jj di dj p,
     at_index i ii = Some di → at_index j jj = Some dj →
     0 ≤ di → di / M < nbrows A →
     p ∈ row_slots A (di / M) → at_index (cols A) p = Some (dj / N) →
     (∀ q, q ∈ row_slots A (di / M) →
           at_index (cols A) q = Some (dj / N) → p ≤ q) →
     addressed A i j ii jj = Some (p, di mod M, dj mod N)) ∧
  (∀ calls,
     all_zero A → Forall (call_in_range A) calls →
     ∃ A', assemble calls A = Some (tt, A') ∧
       ∀ row col a b,
         0 ≤ row < nbrows A → 0 ≤ a < M → 0 ≤ b < N →
         ∃ p, find_column_index row col A' = Some (p, A') ∧
           (p ≠ MAX_INDEX →
            vget (vals A') p a b
            = Some (fold_left addT
                      (c ← calls; call_contributions A c (p, a, b)) zeroT))).
Proof.
  intros HA. split_and!.
  - intros m i n j mat Hi [Hj _].
    destruct (accumulates_add_values A m i n j mat HA Hi Hj A HA eq_refl)
      as (A' & ? & _ & _ & ?).
    by exists A'.
  - intros i j ii jj di dj p Hi Hj Hdi Hbr Hp Hc Hfirst.
    eapply addressed_present; eauto using valid_pattern.
    by destruct (valid_M A HA).
  - intros calls Hz Hcalls.
    destruct (accumulates_assemble A calls HA Hcalls A HA eq_refl)
      as (A' & Hrun & HA' & Hm & Hv).
    exists A'. split; [done|]. intros row col a b Hrow Ha Hb.
    destruct (metadata_eq A' A Hm) as (Hr & _ & Hnz & _).
    exists (slot_of A' row col). split.
    + apply find_column_index_slot_of; [by apply valid_pattern|by rewrite Hr].
    + intros Hp.
      destruct (first_slot_found A' col (row_slots A' row) (slot_of A' row col))
        as [Hin _]; [done..|].
      apply (row_slots_range A' row) in Hin;
        [|by apply valid_pattern|by rewrite Hr].
      destruct (proj2 (vget_is_Some_shape (vals A) (nnz A) M N
                         (slot_of A' row col) a b (valid_shape A HA)))
        as [v Hget]; [lia|].
      rewrite Hv, Hget. simpl.
      by rewrite (all_zero_vget A _ _ _ v Hz Hget).
Qed.

(** *** Contributions outside the pattern *)

(** The pattern has no block [(row, col)]. *)
Definition block_absent (A : BSRMat) (row col : Z) : Prop :=
  ∀ q, q ∈ row_slots A row → at_index (cols A) q ≠ Some col.

(** The target block of the pair [(ii, jj)] of a call is absent. *)
Definition pair_absent (A : BSRMat) (i j : list Z) (ii jj : Z) : Prop :=
  ∃ di dj, at_index i ii = Some di ∧ at_index j jj = Some dj ∧
           block_absent A (di / M) (dj / N).

(** Two loops that agree at every iteration agree, when the iterations
    keep the invariant under which they agree. *)
Lemma for_each_ext_inv {I Acc} (Inv : BSRMat → Prop) (l : list I)
    (f g : I → Acc → op Acc) acc s :
  Inv s →
  (∀ x acc s r s', x ∈ l → Inv s → f x acc s = Some (r, s') → Inv s') →
  (∀ x acc s, x ∈ l → Inv s → f x acc s = g x acc s) →
  for_each l f acc s = for_each l g acc s.
Proof.
  revert acc s. induction l as [|x l IH]; intros acc s Hs Hinv Hfg; [done|].
  simpl. unfold bind. rewrite <- (Hfg x acc s) by (done || by left).
  destruct (f x acc s) as [[r s']|] eqn:Hf; [|done].
  apply IH.
  - eapply Hinv; [by left|done..].
  - intros. eapply Hinv; [by right|done..].
  - intros. apply Hfg; [by right|done].
Qed.

(** A loop whose iterations return the object as it is returns it as it
    is. *)
Lemma for_each_skip {I} (Inv : BSRMat → Prop) (l : list I) (f : I → op unit) s :
  Inv s → (∀ x, x ∈ l → f x s = Some (tt, s)) →
  for_each l (λ x _, f x) tt s = Some (tt, s).
Proof.
  intros _. induction l as [|x l IH]; intros Hf; [done|].
  simpl. unfold bind. rewrite Hf by (by left).
  apply IH. intros. apply Hf. by right.
Qed.

Lemma block_absent_slot_of A row col :
  block_absent A row col → slot_of A row col = MAX_INDEX.
Proof. apply first_slot_no_match. Qed.

Lemma block_absent_metadata s A row col :
  metadata s = metadata A → block_absent A row col → block_absent s row col.
Proof.
  intros (_ & _ & _ & Hr & Hc)%metadata_eq.
  unfold block_absent, row_slots. by rewrite Hr, Hc.
Qed.

(** The pair of an absent block: no fault, and the object as it is. *)
Lemma add_values_pair_absent s j mat di ii jj dj :
  valid s → 0 ≤ di → di / M < nbrows s →
  at_index j jj = Some dj →
  block_absent s (di / M) (dj / N) →
  add_values_pair j mat (di / M) (di mod M) ii jj s = Some (tt, s).
Proof.
  intros Hs Hdi Hbr Hj Habs.
  pose proof (valid_M s Hs). pose proof (valid_N s Hs).
  unfold add_values_pair, bind, lift, idiv, imod. rewrite Hj.
  rewrite !decide_False by lia. unfold ret at 1 2.
  rewrite find_column_index_slot_of;
    [|by apply valid_pattern|split; [apply Z.div_pos; lia|done]].
  rewrite block_absent_slot_of by done.
  by rewrite decide_False by (intros ?; done).
Qed.

(** The pair of a block that the pattern has: the outcome depends on
    [mat] through [mat(ii, jj)] only. *)
Lemma add_values_pair_ext s j mat mat' br er ii jj :
  (is_Some (at_index j jj) → mat' ii jj = mat ii jj) →
  add_values_pair j mat' br er ii jj s = add_values_pair j mat br er ii jj s.
Proof.
  intros Hmat. unfold add_values_pair, bind, lift.
  destruct (at_index j jj) as [dj|]; [|done].
  by rewrite Hmat by eauto.
Qed.

Lemma add_values_ext_absent A m i n j mat mat' :
  valid A →
  dofs_in_range M (nbrows A) m i → n ≤ Z.of_nat (length j) →
  (∀ ii jj, 0 ≤ ii < m → 0 ≤ jj < n →
     ¬ pair_absent A i j ii jj → mat' ii jj = mat ii jj) →
  add_values m i n j mat' A = add_values m i n j mat A.
Proof.
  intros HA Hi Hj Hmat. unfold add_values, for_range. rewrite !Z.sub_0_r.
  apply (for_each_ext_inv (λ s, valid s ∧ metadata s = metadata A));
    [done|..].
  - intros ii [] s [] s' Hii%elem_of_seqZ [Hs Hm] Hrun.
    destruct (dofs_in_range_lookup _ _ _ _ ii Hi) as (di & Hdi & ? & ?);
      [lia|].
    pose proof (valid_M s Hs).
    unfold bind, lift, idiv, imod in Hrun. rewrite Hdi in Hrun.
    rewrite !decide_False in Hrun by lia. unfold ret in Hrun.
    rewrite ?Z.sub_0_r in Hrun.
    destruct (accumulates_for_each A (seqZ 0 n)
                (λ jj, add_values_pair j mat' (di / M) (di mod M) ii jj)
                (λ jj slot, if decide (addressed A i j ii jj = Some slot)
                            then [mat' ii jj] else [])) with (s := s)
      as (s2 & Hrun2 & ? & ? & _); [|done..|].
    { intros jj Hjj%elem_of_seqZ.
      destruct (at_index_is_Some j jj) as [dj Hdj]; [lia|].
      by eapply accumulates_add_values_pair. }
    rewrite Hrun in Hrun2. injection Hrun2 as <-. by split.
  - intros ii [] s Hii%elem_of_seqZ [Hs Hm].
    destruct (dofs_in_range_lookup _ _ _ _ ii Hi) as (di & Hdi & ? & ?);
      [lia|].
    pose proof (valid_M s Hs). pose proof (valid_N s Hs).
    destruct (metadata_eq s A Hm) as (Hr & _).
    unfold bind, lift, idiv, imod. rewrite Hdi.
    rewrite !decide_False by lia. unfold ret.
    apply (for_each_ext_inv (λ s, valid s ∧ metadata s = metadata A));
      [done|..].
    + intros jj [] s1 [] s2 Hjj%elem_of_seqZ [Hs1 Hm1] Hrun.
      destruct (at_index_is_Some j jj) as [dj Hdj]; [lia|].
      destruct (accumulates_add_values_pair A i j mat' ii jj di dj)
        with (s := s1) as (s3 & Hrun3 & ? & ? & _); try done.
      rewrite Hrun in Hrun3. injection Hrun3 as <-. by split.
    + intros jj [] s1 Hjj%elem_of_seqZ [Hs1 Hm1].
      destruct (at_index_is_Some j jj) as [dj Hdj]; [lia|].
      destruct (metadata_eq s1 A Hm1) as (Hr1 & _).
      destruct (decide (slot_of A (di / M) (dj / N) = MAX_INDEX)) as [Hmax|Hp].
      * (* nothing is added, whatever the matrix *)
        unfold add_values_pair, bind, lift, idiv, imod. rewrite Hdj.
        rewrite !decide_False by lia. unfold ret at 1 2 4 5.
        rewrite !find_column_index_slot_of;
          [|by apply valid_pattern|rewrite Hr1; split; [apply Z.div_pos; lia|done]].
        rewrite (slot_of_metadata s1 A) by done. rewrite Hmax.
        by rewrite !decide_False by (intros ?; done).
      * apply add_values_pair_ext. intros _. apply Hmat; [lia..|].
        intros (di' & dj' & ? & ? & Habs). simplify_eq.
        by apply block_absent_slot_of in Habs.
Qed.

Lemma add_values_all_absent A m i n j mat :
  valid A →
  dofs_in_range M (nbrows A) m i → n ≤ Z.of_nat (length j) →
  (∀ ii jj, 0 ≤ ii < m → 0 ≤ jj < n → pair_absent A i j ii jj) →
  add_values m i n j mat A = Some (tt, A).
Proof.
  intros HA Hi Hj Habs. unfold add_values, for_range. rewrite !Z.sub_0_r.
  apply (for_each_skip (λ _, True)); [done|].
  intros ii Hii%elem_of_seqZ.
  destruct (dofs_in_range_lookup _ _ _ _ ii Hi) as (di & Hdi & ? & ?); [lia|].
  pose proof (valid_M A HA).
  unfold bind, lift, idiv, imod. rewrite Hdi.
  rewrite !decide_False by lia. unfold ret. rewrite ?Z.sub_0_r.
  apply (for_each_skip (λ _, True)); [done|].
  intros jj Hjj%elem_of_seqZ.
  destruct (Habs ii jj) as (di' & dj & ? & Hdj & ?); [lia..|]. simplify_eq.
  by apply (add_values_pair_absent A j mat di ii jj dj).
Qed.

(** C3.  On a matrix with a valid CSR pattern, a call of [add_values]
    whose row DOF indices decompose to in-range block rows returns even if
    target blocks are absent from the pattern (the block column of a pair
    may be any).  The pair of an absent block leaves the object as it is,
    at whatever point of the call it is met, and is addressed to no scalar
    slot.  The pair of a block that the pattern has is addressed to the
    scalar slot [(p, i[ii] % M, j[jj] % N)] of a storage slot [p] of that
    block, and after the call every scalar slot holds its former value to
    which the entries [mat(ii, jj)] of the pairs addressed to it have been
    added, one after the other: the contributions to the blocks that the
    pattern has are added as if the dropped ones were not there.  Hence
    the outcome does not depend on the entries of [mat] at the dropped
    pairs, and a call all of whose target blocks are absent changes
    nothing. *)
Theorem add_values_drops_absent A m i n j mat :
  valid A →
  dofs_in_range M (nbrows A) m i → n ≤ Z.of_nat (length j) →
  ∃ A', add_values m i n j mat A = Some (tt, A') ∧
    (∀ s ii jj di dj,
       valid s → metadata s = metadata A →
       0 ≤ ii < m → 0 ≤ jj < n →
       at_index i ii = Some di → at_index j jj = Some dj →
       block_absent A (di / M) (dj / N) →
       add_values_pair j mat (di / M) (di mod M) ii jj s = Some (tt, s)) ∧
    (∀ ii jj, 0 ≤ ii < m → 0 ≤ jj < n →
       pair_absent A i j ii jj → addressed A i j ii jj = None) ∧
    (∀ ii jj di dj,
       0 ≤ ii < m → 0 ≤ jj < n →
       at_index i ii = Some di → at_index j jj = Some dj →
       (∃ q, q ∈ row_slots A (di / M) ∧ at_index (cols A) q = Some (dj / N)) →
       ∃ p, p ∈ row_slots A (di / M) ∧ at_index (cols A) p = Some (dj / N) ∧
            addressed A i j ii jj = Some (p, di mod M, dj mod N)) ∧
    (∀ p a b,
       vget (vals A') p a b
       = fold_left addT (contributions A m i n j mat (p, a, b))
           <$> vget (vals A) p a b) ∧
    (∀ mat',
       (∀ ii jj, 0 ≤ ii < m → 0 ≤ jj < n →
          ¬ pair_absent A i j ii jj → mat' ii jj = mat ii jj) →
       add_values m i n j mat' A = Some (tt, A')) ∧
    ((∀ ii jj, 0 ≤ ii < m → 0 ≤ jj < n → pair_absent A i j ii jj) → A' = A).
Proof.
  intros HA Hi Hj.
  destruct (accumulates_add_values A m i n j mat HA Hi Hj A HA eq_refl)
    as (A' & Hrun & _ & _ & Hv).
  exists A'. split_and!; [done|..].
  - intros s ii jj di dj Hs Hm Hii Hjj Hdi Hdj Habs.
    destruct (dofs_in_range_lookup _ _ _ _ ii Hi) as (di' & ? & ? & ?); [lia|].
    destruct (metadata_eq s A Hm) as (Hr & _).
    assert (di' = di) as -> by congruence.
    apply (add_values_pair_absent s j mat di ii jj dj); try done;
      [by rewrite Hr|].
    by apply (block_absent_metadata s A).
  - intros ii jj Hii Hjj (di & dj & Hdi & Hdj & Habs).
    unfold addressed. rewrite Hdi, Hdj. simpl.
    rewrite (block_absent_slot_of A _ _ Habs).
    by rewrite decide_False by (intros ?; done).
  - intros ii jj di dj Hii Hjj Hdi Hdj Hpres.
    destruct (dofs_in_range_lookup _ _ _ _ ii Hi) as (di' & ? & ? & ?); [lia|].
    assert (di' = di) as -> by congruence.
    destruct (first_slot_match A (dj / N) (row_slots A (di / M)) Hpres)
      as [Hin Hcol].
    exists (slot_of A (di / M) (dj / N)). split_and!; [done..|].
    apply addressed_present; try done.
    + by apply valid_pattern.
    + by destruct (valid_M A HA).
    + intros q Hq Hc. by apply slot_of_least.
  - done.
  - intros mat' Hmat. by rewrite (add_values_ext_absent A m i n j mat mat').
  - intros Habs. rewrite add_values_all_absent in Hrun by done. by simplify_eq.
Qed.

(** ** Boundary-condition elimination *)

(** The DOF [d] is in range as a row of the matrix. *)
Definition dof_in_range (A : BSRMat) (d : Z) : Prop :=
  0 ≤ d ∧ d / M < nbrows A.

(** The diagonal scalar of the DOF [d] is a position of its block
    [(d / M, d / M)]: the row offset [d % M] is also a column offset,
    unless the pattern has no such block. *)
Definition diag_in_block (A : BSRMat) (d : Z) : Prop :=
  d mod M < N ∨ block_absent A (d / M) (d / M).

(** The loop that zeroes the entries [ks] of row [e] of block [p]. *)
Lemma zero_entries s n p e (ks : list Z) :
  dims (vals s) = shape n M N → 0 ≤ p < n → 0 ≤ e < M →
  (∀ k, k ∈ ks → 0 ≤ k < N) →
  ∃ s', for_each ks (λ k _, write_vals p e k zeroT) tt s = Some (tt, s') ∧
    metadata s' = metadata s ∧ dims (vals s') = dims (vals s) ∧
    ∀ p' a b, vget (vals s') p' a b
      = if decide (p' = p ∧ a = e ∧ b ∈ ks) then Some zeroT
        else vget (vals s) p' a b.
Proof.
  intros Hd Hp He. revert s Hd. induction ks as [|k ks IH]; intros s Hd Hks.
  - exists s. split_and!; try done. intros p' a b.
    rewrite decide_False; [done|]. by intros (_ & _ & ?%elem_of_nil).
  - destruct (write_vals_Some s p e k zeroT) as (s1 & Hw & Hm1 & Hd1 & Hv1).
    { eapply vget_is_Some_shape; [done|].
      specialize (Hks k ltac:(by left)). lia. }
    destruct (IH s1) as (s2 & Hrun & Hm2 & Hd2 & Hv2);
      [congruence|intros; apply Hks; by right|].
    exists s2. split_and!; [|congruence..|].
    + simpl. unfold bind. by rewrite Hw.
    + intros p' a b. rewrite Hv2, Hv1.
      destruct (decide (p' = p ∧ a = e ∧ b ∈ ks)) as [(-> & -> & Hin)|Hne].
      * rewrite decide_True; [done|]. split_and!; [done..|by right].
      * destruct (decide (p' = p ∧ a = e ∧ b = k)) as [(-> & -> & ->)|Hne'].
        -- rewrite decide_True; [done|]. split_and!; [done..|by left].
        -- rewrite decide_False; [done|].
           intros (-> & -> & [->|?]%elem_of_cons);
             [by apply Hne'|by apply Hne].
Qed.

(** The body of the loop of [zero_rows] over the blocks of a row: row [e]
    of block [p] becomes zero, but for the scalar [(e, e)] of a diagonal
    block, which becomes one. *)
Lemma zero_rows_block_spec s br e p c :
  valid s → 0 ≤ p < nnz s → 0 ≤ e < M →
  at_index (cols s) p = Some c → (c = br → e < N) →
  ∃ s', zero_rows_block br e p s = Some (tt, s') ∧
    valid s' ∧ metadata s' = metadata s ∧
    ∀ p' a b, vget (vals s') p' a b
      = if decide (p' = p ∧ a = e ∧ 0 ≤ b < N)
        then Some (if decide (c = br ∧ b = e) then oneT else zeroT)
        else vget (vals s) p' a b.
Proof.
  intros Hs Hp He Hc Hdiag.
  destruct (zero_entries s (nnz s) p e (seqZ 0 N)) as (s1 & Hz & Hm1 & Hd1 & Hv1);
    [by apply valid_shape|done..| |].
  { intros k Hk%elem_of_seqZ. lia. }
  assert (valid s1) as Hs1 by by eapply valid_same_shape.
  destruct (metadata_eq s1 s Hm1) as (_ & _ & Hnz & _ & Hcols).
  unfold zero_rows_block, bind, for_range. rewrite Z.sub_0_r, Hz.
  rewrite (read_idx_Some cols p c s1) by by rewrite Hcols.
  destruct (decide (c = br)) as [->|Hne].
  - destruct (write_vals_Some s1 p e e oneT) as (s2 & Hw & Hm2 & Hd2 & Hv2).
    { eapply vget_is_Some_shape; [by apply valid_shape|].
      rewrite Hnz. specialize (Hdiag eq_refl). lia. }
    exists s2. split_and!; [done| |congruence|].
    + eapply valid_same_shape; [exact Hs1|done..].
    + intros p' a b. rewrite Hv2, Hv1. specialize (Hdiag eq_refl).
      destruct (decide (p' = p ∧ a = e ∧ b = e)) as [(-> & -> & ->)|Hne].
      * rewrite decide_True by lia. by rewrite decide_True.
      * destruct (decide (p' = p ∧ a = e ∧ 0 ≤ b < N)) as [(-> & -> & ?)|Hne'].
        -- rewrite decide_True by (by rewrite elem_of_seqZ).
           rewrite decide_False; [done|]. intros [_ ->]. by apply Hne.
        -- rewrite decide_False; [done|]. rewrite elem_of_seqZ.
           intros (-> & -> & ?). apply Hne'. auto with lia.
  - exists s1. split_and!; try done.
    intros p' a b. rewrite Hv1.
    destruct (decide (p' = p ∧ a = e ∧ 0 ≤ b < N)) as [(-> & -> & ?)|Hne'].
    + rewrite decide_True by (by rewrite elem_of_seqZ).
      rewrite decide_False; [done|]. by intros [? _].
    + rewrite decide_False; [done|]. rewrite elem_of_seqZ.
      intros (-> & -> & ?). apply Hne'. auto with lia.
Qed.

(** The loop of [zero_rows] over the blocks [l] of a row. *)
Lemma zero_rows_blocks_spec s br e (l : list Z) :
  valid s → 0 ≤ e < M →
  (∀ p, p ∈ l → 0 ≤ p < nnz s) →
  (∀ p, p ∈ l → at_index (cols s) p = Some br → e < N) →
  ∃ s', for_each l (λ jp _, zero_rows_block br e jp) tt s = Some (tt, s') ∧
    valid s' ∧ metadata s' = metadata s ∧
    ∀ p a b, vget (vals s') p a b
      = if decide (p ∈ l ∧ a = e ∧ 0 ≤ b < N)
        then Some (if decide (at_index (cols s) p = Some br ∧ b = e)
                   then oneT else zeroT)
        else vget (vals s) p a b.
Proof.
  intros Hs He. revert s Hs.
  induction l as [|p0 l IH]; intros s Hs Hl Hdiag.
  - exists s. by split_and!.
  - destruct (csr_cols_lookup s p0 (valid_pattern s Hs)) as (c & Hc & _);
      [apply Hl; by left|].
    destruct (zero_rows_block_spec s br e p0 c) as (s1 & Hb & Hs1 & Hm1 & Hv1);
      [done|apply Hl; by left|done..| |].
    { intros ->. apply (Hdiag p0); [by left|done]. }
    destruct (metadata_eq s1 s Hm1) as (_ & _ & Hnz & _ & Hcols).
    destruct (IH s1 Hs1) as (s2 & Hrun & Hs2 & Hm2 & Hv2).
    { intros p Hp. rewrite Hnz. apply Hl. by right. }
    { intros p Hp. rewrite Hcols. apply Hdiag. by right. }
    exists s2. split_and!; [|done|congruence|].
    + simpl. unfold bind. by rewrite Hb.
    + intros p a b. rewrite Hv2, Hv1, Hcols.
      destruct (decide (p ∈ l ∧ a = e ∧ 0 ≤ b < N)) as [(Hin & -> & ?)|Hne].
      * destruct (decide (p ∈ p0 :: l ∧ e = e ∧ 0 ≤ b < N)) as [|Hn]; [done|].
        exfalso. apply Hn. split_and!; [by right|lia..].
      * destruct (decide (p = p0 ∧ a = e ∧ 0 ≤ b < N)) as [(-> & -> & ?)|Hne'].
        -- destruct (decide (p0 ∈ p0 :: l ∧ e = e ∧ 0 ≤ b < N)) as [|Hn].
           ++ rewrite Hc. f_equal. apply decide_ext.
              split; intros [? ?]; split; congruence.
           ++ exfalso. apply Hn. split_and!; [by left|lia..].
        -- destruct (decide (p ∈ p0 :: l ∧ a = e ∧ 0 ≤ b < N))
             as [([->|?]%elem_of_cons & -> & ?)|]; [| |done].
           ++ by destruct Hne'.
           ++ by destruct Hne.
Qed.

(** The body of the outer loop of [zero_rows]: the scalar row [d]
    becomes zero in every block of its block row, but for the diagonal
    scalar of a diagonal block, which becomes one; nothing else changes. *)
Lemma zero_rows_dof_spec s d :
  valid s → dof_in_range s d → diag_in_block s d →
  ∃ s', zero_rows_dof d s = Some (tt, s') ∧
    valid s' ∧ metadata s' = metadata s ∧
    ∀ p a b, vget (vals s') p a b
      = if decide (p ∈ row_slots s (d / M) ∧ a = d mod M ∧ 0 ≤ b < N)
        then Some (if decide (at_index (cols s) p = Some (d / M) ∧ b = d mod M)
                   then oneT else zeroT)
        else vget (vals s) p a b.
Proof.
  intros Hs [Hd Hr] Hdiag.
  pose proof (valid_M s Hs) as HM. pose proof (valid_pattern s Hs) as Hpat.
  assert (0 ≤ d / M < nbrows s) as Hrow by (split; [apply Z.div_pos; lia|done]).
  destruct (csr_row_bounds s (d / M) Hpat Hrow) as (lo & hi & Hlo & Hhi & ? & ?).
  unfold zero_rows_dof, bind, idiv, imod, for_range.
  rewrite !decide_False by lia. unfold ret.
  rewrite (read_idx_Some rowp _ lo s Hlo).
  rewrite iadd_small by (destruct (csr_nbrows s Hpat); lia).
  rewrite (read_idx_Some rowp _ hi s Hhi).
  assert (row_slots s (d / M) = seqZ lo (hi - lo)) as Hslots
    by (unfold row_slots; by rewrite Hlo, Hhi).
  rewrite Hslots.
  apply zero_rows_blocks_spec; [done|apply Z.mod_pos_bound; lia|..].
  - intros p Hp. apply (row_slots_range s (d / M)); [done..|by rewrite Hslots].
  - intros p Hp Hc. destruct Hdiag as [?|Habs]; [done|].
    destruct (Habs p); [by rewrite Hslots|done].
Qed.

(** The constrained DOFs of a call [zero_rows(nbcs, dof)] are in range. *)
Definition bcs_in_range (A : BSRMat) (nbcs : Z) (dof : list Z) : Prop :=
  nbcs ≤ Z.of_nat (length dof) ∧
  Forall (λ d, dof_in_range A d ∧ diag_in_block A d) (take (Z.to_nat nbcs) dof).

Lemma bcs_in_range_lookup A nbcs dof ii :
  bcs_in_range A nbcs dof → 0 ≤ ii < nbcs →
  ∃ d, at_index dof ii = Some d ∧ d ∈ take (Z.to_nat nbcs) dof ∧
       dof_in_range A d ∧ diag_in_block A d.
Proof.
  intros [Hlen Hall] Hii.
  destruct (at_index_is_Some dof ii) as [d Hd]; [lia|].
  assert (d ∈ take (Z.to_nat nbcs) dof) as Hin.
  { unfold at_index in Hd. rewrite decide_True in Hd by lia.
    apply list_elem_of_lookup. exists (Z.to_nat ii).
    by rewrite lookup_take_lt by lia. }
  exists d. split_and!; [done..| |];
    rewrite Forall_forall in Hall; by apply Hall.
Qed.

Lemma diag_in_block_metadata s A d :
  metadata s = metadata A → diag_in_block A d → diag_in_block s d.
Proof.
  intros Hm [?|?]; [by left|right]. by apply (block_absent_metadata s A).
Qed.

(** [zero_rows] over the constrained DOFs of indices [l]: a scalar outside
    the constrained scalar rows is left as it is. *)
Lemma zero_rows_loop_frame A dof (l : list Z) s :
  valid s → metadata s = metadata A →
  (∀ ii, ii ∈ l → ∃ d, at_index dof ii = Some d ∧
                       dof_in_range A d ∧ diag_in_block A d) →
  ∃ s', for_each l (λ ii _, let* d := lift (at_index dof ii) in
                            zero_rows_dof d) tt s = Some (tt, s') ∧
    valid s' ∧ metadata s' = metadata A ∧
    ∀ r p e k, 0 ≤ r < nbrows A → p ∈ row_slots A r →
      (∀ ii, ii ∈ l → at_index dof ii ≠ Some (M * r + e)) →
      vget (vals s') p e k = vget (vals s) p e k.
Proof.
  revert s. induction l as [|ii l IH]; intros s Hs Hm Hl.
  - exists s. by split_and!.
  - destruct (Hl ii) as (d & Hd & [Hd0 Hdr] & Hdiag); [by left|].
    destruct (metadata_eq s A Hm) as (Hnr & _ & _ & Hrp & Hcl).
    destruct (zero_rows_dof_spec s d) as (s1 & Hrun1 & Hs1 & Hm1 & Hv1);
      [done|split; [done|by rewrite Hnr]|by apply (diag_in_block_metadata s A)|].
    destruct (IH s1) as (s2 & Hrun2 & Hs2 & Hm2 & Hv2);
      [done|congruence|intros; apply Hl; by right|].
    exists s2. split_and!; [|done..|].
    + simpl. unfold bind at 1. unfold bind at 1, lift at 1. rewrite Hd.
      by rewrite Hrun1.
    + intros r p e k Hr Hp Hne.
      rewrite (Hv2 r) by (try done; intros; apply Hne; by right).
      rewrite Hv1. apply decide_False. intros (Hp' & -> & _).
      assert (row_slots s (d / M) = row_slots A (d / M)) as Hsl
        by (unfold row_slots; by rewrite Hrp).
      rewrite Hsl in Hp'.
      pose proof (valid_M s Hs) as HM.
      assert (r = d / M) as ->.
      { eapply (row_slots_disjoint A); [|done| |done..].
        - by apply (csr_pattern_metadata s A), valid_pattern.
        - split; [apply Z.div_pos; lia|done]. }
      apply (Hne ii); [by left|]. rewrite Hd. f_equal.
      apply Z.div_mod. lia.
Qed.

(** The pattern has a block [(row, col)]. *)
Definition block_present (A : BSRMat) (row col : Z) : Prop :=
  ∃ q, q ∈ row_slots A row ∧ at_index (cols A) q = Some col.

(** What [zero_rows({d})] is to establish, from [A] to [A']: every stored
    scalar of the scalar row [d] is zero, but for the diagonal scalar of a
    diagonal block, which is one; hence the row has a one on the diagonal
    if the pattern has the diagonal block, and is zero altogether if not. *)
Definition eliminated (A A' : BSRMat) (d : Z) : Prop :=
  (∀ p k, p ∈ row_slots A (d / M) → 0 ≤ k < N →
     vget (vals A') p (d mod M) k
     = Some (if decide (at_index (cols A) p = Some (d / M) ∧ k = d mod M)
             then oneT else zeroT)) ∧
  (block_present A (d / M) (d / M) →
     ∃ p, p ∈ row_slots A (d / M) ∧ at_index (cols A) p = Some (d / M) ∧
          vget (vals A') p (d mod M) (d mod M) = Some oneT) ∧
  (block_absent A (d / M) (d / M) →
     ∀ p k, p ∈ row_slots A (d / M) → 0 ≤ k < N →
       vget (vals A') p (d mod M) k = Some zeroT).

(** [zero_rows({d})] returns, and eliminates the row [d]. *)
Definition zero_rows_eliminates (A : BSRMat) (d : Z) : Prop :=
  ∃ A', zero_rows 1 [d] A = Some (tt, A') ∧ eliminated A A' d.

(** [zero_rows(nbcs, dof)] returns, and every stored scalar outside the
    constrained scalar rows is as before. *)
Definition zero_rows_keeps_other_rows (A : BSRMat) (nbcs : Z) (dof : list Z)
  : Prop :=
  ∃ A', zero_rows nbcs dof A = Some (tt, A') ∧
    ∀ r p e k,
      0 ≤ r < nbrows A → p ∈ row_slots A r → 0 ≤ e < M → 0 ≤ k < N →
      M * r + e ∉ take (Z.to_nat nbcs) dof →
      vget (vals A') p e k = vget (vals A) p e k.

Lemma bcs_in_range_intro A nbcs dof :
  dofs_in_range M (nbrows A) nbcs dof →
  Forall (diag_in_block A) (take (Z.to_nat nbcs) dof) →
  bcs_in_range A nbcs dof.
Proof.
  intros [Hlen Hall] Hdiag. split; [done|].
  rewrite Forall_forall in Hall, Hdiag. apply Forall_forall.
  intros d Hd. split; [by apply Hall|by apply Hdiag].
Qed.

(** C2, amended.  On a matrix with a valid CSR pattern, for an in-range
    DOF [d] whose row offset [d % M] is below [N] (or whose diagonal block
    is absent from the pattern), [zero_rows({d})] returns, and then every
    stored scalar of the scalar row [d] is zero, but for the diagonal
    scalar - position [(d % M, d % M)] of a block of column index [d / M] -
    which is one: the row has a one on its diagonal if the pattern has the
    diagonal block, and is left entirely zero if it has not. *)
Theorem zero_rows_identity_row A d :
  valid A → dof_in_range A d → diag_in_block A d →
  zero_rows_eliminates A d.
Proof.
  intros HA Hd Hdiag.
  destruct (zero_rows_dof_spec A d HA Hd Hdiag) as (A' & Hrun & _ & _ & Hv).
  exists A'. split.
  - unfold zero_rows, for_range. change (seqZ 0 (1 - 0)) with [0].
    simpl. unfold bind at 1. unfold bind at 1, lift at 1.
    change (at_index [d] 0) with (Some d). cbv beta iota. by rewrite Hrun.
  - assert (∀ p k, p ∈ row_slots A (d / M) → 0 ≤ k < N →
              vget (vals A') p (d mod M) k
              = Some (if decide (at_index (cols A) p = Some (d / M)
                                 ∧ k = d mod M)
                      then oneT else zeroT)) as Hrow.
    { intros p k Hp Hk. rewrite Hv. by rewrite decide_True. }
    split_and!; [done|..].
    + intros (q & Hq & Hc). exists q. split_and!; [done..|].
      pose proof (valid_M A HA).
      pose proof (Z.mod_pos_bound d M ltac:(lia)).
      rewrite Hrow; [by rewrite decide_True|done|].
      destruct Hdiag as [?|Habs]; [lia|by destruct (Habs q)].
    + intros Habs p k Hp Hk. rewrite Hrow by done.
      rewrite decide_False; [done|]. intros [Hc _]. by destruct (Habs p).
Qed.

(** C10, amended.  On a matrix with a valid CSR pattern, for a call
    [zero_rows(nbcs, dof)] with in-range DOFs whose row offsets are below
    [N] (or whose diagonal blocks are absent from the pattern), the call
    returns and every stored scalar outside the constrained scalar rows is
    unchanged: [vals(p, e, k)] is as before for every slot [p] of a block
    row [r] and every row offset [e] such that [M * r + e] is not among the
    listed DOFs. *)
Theorem zero_rows_other_rows_unchanged A nbcs dof :
  valid A →
  dofs_in_range M (nbrows A) nbcs dof →
  Forall (diag_in_block A) (take (Z.to_nat nbcs) dof) →
  zero_rows_keeps_other_rows A nbcs dof.
Proof.
  intros HA Hin Hdiag.
  pose proof (bcs_in_range_intro A nbcs dof Hin Hdiag) as Hbcs.
  destruct (zero_rows_loop_frame A dof (seqZ 0 nbcs) A HA eq_refl)
    as (A' & Hrun & _ & _ & Hv).
  { intros ii Hii%elem_of_seqZ.
    destruct (bcs_in_range_lookup A nbcs dof ii Hbcs) as (d & ? & _ & ? & ?);
      [lia|]. eauto. }
  exists A'. split.
  - unfold zero_rows, for_range. by rewrite Z.sub_0_r.
  - intros r p e k Hr Hp _ _ Hnot. apply (Hv r); [done..|].
    intros ii Hii%elem_of_seqZ Hd. apply Hnot.
    unfold at_index in Hd. rewrite decide_True in Hd by lia.
    apply list_elem_of_lookup. exists (Z.to_nat ii).
    by rewrite lookup_take_lt by lia.
Qed.

(** ** Value reset *)

Lemma BLAS_zero_idemp v : BLAS_zero (BLAS_zero v) = BLAS_zero v.
Proof.
  unfold BLAS_zero. rewrite map_map. apply map_ext. intros blk.
  rewrite map_map. apply map_ext. intros row. by rewrite map_map.
Qed.

Lemma BLAS_zero_all_zero v :
  Forall (Forall (Forall (λ x, x = zeroT))) (BLAS_zero v).
Proof.
  unfold BLAS_zero.
  apply Forall_forall. intros blk (blk0 & <- & _)%list_elem_of_In%in_map_iff.
  apply Forall_forall. intros row (row0 & <- & _)%list_elem_of_In%in_map_iff.
  apply Forall_forall. by intros x (x0 & <- & _)%list_elem_of_In%in_map_iff.
Qed.

Lemma dims_BLAS_zero v : dims (BLAS_zero v) = dims v.
Proof.
  unfold dims, BLAS_zero. rewrite map_map. apply map_ext. intros blk.
  rewrite map_map. apply map_ext. intros row. apply length_map.
Qed.

Lemma vget_BLAS_zero v p a b :
  vget (BLAS_zero v) p a b = (λ _, zeroT) <$> vget v p a b.
Proof.
  unfold vget, BLAS_zero, at_index.
  destruct (decide (0 ≤ p)); [|done]. rewrite list_lookup_fmap.
  destruct (v !! Z.to_nat p) as [blk|]; [|done]. simpl.
  destruct (decide (0 ≤ a)); [|done]. rewrite list_lookup_fmap.
  destruct (blk !! Z.to_nat a) as [row|]; [|done]. simpl.
  destruct (decide (0 ≤ b)); [|done]. by rewrite list_lookup_fmap.
Qed.

(** C9.  [zero()] returns on every matrix; afterwards every scalar of
    [vals] is the additive identity, [vals] has the extents that it had
    and everything else is as before; a second [zero()] returns the very
    same object, so that [zero(); zero()] and [zero()] have the same
    outcome. *)
Theorem zero_idempotent A :
  ∃ A', zero A = Some (tt, A') ∧
    all_zero A' ∧
    (∀ p a b, vget (vals A') p a b = (λ _, zeroT) <$> vget (vals A) p a b) ∧
    dims (vals A') = dims (vals A) ∧
    metadata A' = metadata A ∧
    zero A' = Some (tt, A') ∧
    (let* _ := zero in zero) A = zero A.
Proof.
  exists (set_vals A (BLAS_zero (vals A))).
  assert (zero (set_vals A (BLAS_zero (vals A)))
          = Some (tt, set_vals A (BLAS_zero (vals A)))) as Hidem.
  { unfold zero, set_vals. simpl. by rewrite BLAS_zero_idemp. }
  split_and!; [done| | | |done|done|].
  - apply BLAS_zero_all_zero.
  - intros p a b. apply vget_BLAS_zero.
  - apply dims_BLAS_zero.
  - unfold bind. by change (zero A) with
      (Some (tt, set_vals A (BLAS_zero (vals A)))).
Qed.

(** ** Construction *)

(** The first loop of the constructor, over the indices [l]: the entries
    of [src] at [l] are copied to [rowp], and nothing else changes. *)
Lemma copy_rowp_loop (src : list Z) (l : list Z) s :
  (∀ k, k ∈ l → 0 ≤ k < Z.of_nat (length src) ∧ k < Z.of_nat (length (rowp s))) →
  ∃ r, for_each l (λ i _, let* x := lift (at_index src i) in write_rowp i x) tt s
       = Some (tt, set_rowp s r) ∧
    length r = length (rowp s) ∧
    ∀ k, at_index r k
         = if decide (k ∈ l) then at_index src k else at_index (rowp s) k.
Proof.
  revert s. induction l as [|i l IH]; intros s Hl.
  - exists (rowp s). split_and!; [by destruct s|done..].
  - destruct (Hl i) as [Hi Hi']; [by left|].
    destruct (at_index_is_Some src i) as [x Hx]; [done|].
    destruct (store_index_is_Some (rowp s) i x) as [r1 Hr1]; [lia|].
    destruct (IH (set_rowp s r1)) as (r & Hrun & Hlen & Hr).
    { intros k Hk. simpl. rewrite (length_store_index _ _ _ _ Hr1).
      apply Hl. by right. }
    exists r. split_and!.
    + simpl. unfold bind at 1. unfold bind at 1, lift at 1, write_rowp at 1.
      rewrite Hx. cbv beta iota. by rewrite Hr1.
    + rewrite Hlen. simpl. by eapply length_store_index.
    + intros k. rewrite Hr. simpl. rewrite (at_store_index _ _ _ _ k Hr1).
      destruct (decide (k ∈ l)) as [Hin|Hnin].
      * rewrite decide_True by (by right). done.
      * destruct (decide (k = i)) as [->|Hki].
        -- rewrite decide_True by (by left). done.
        -- rewrite decide_False; [done|].
           by intros [->|?]%elem_of_cons.
Qed.

(** The second loop, likewise for [cols]. *)
Lemma copy_cols_loop (src : list Z) (l : list Z) s :
  (∀ k, k ∈ l → 0 ≤ k < Z.of_nat (length src) ∧ k < Z.of_nat (length (cols s))) →
  ∃ c, for_each l (λ i _, let* x := lift (at_index src i) in write_cols i x) tt s
       = Some (tt, set_cols s c) ∧
    length c = length (cols s) ∧
    ∀ k, at_index c k
         = if decide (k ∈ l) then at_index src k else at_index (cols s) k.
Proof.
  revert s. induction l as [|i l IH]; intros s Hl.
  - exists (cols s). split_and!; [by destruct s|done..].
  - destruct (Hl i) as [Hi Hi']; [by left|].
    destruct (at_index_is_Some src i) as [x Hx]; [done|].
    destruct (store_index_is_Some (cols s) i x) as [c1 Hc1]; [lia|].
    destruct (IH (set_cols s c1)) as (c & Hrun & Hlen & Hc).
    { intros k Hk. simpl. rewrite (length_store_index _ _ _ _ Hc1).
      apply Hl. by right. }
    exists c. split_and!.
    + simpl. unfold bind at 1. unfold bind at 1, lift at 1, write_cols at 1.
      rewrite Hx. cbv beta iota. by rewrite Hc1.
    + rewrite Hlen. simpl. by eapply length_store_index.
    + intros k. rewrite Hc. simpl. rewrite (at_store_index _ _ _ _ k Hc1).
      destruct (decide (k ∈ l)) as [Hin|Hnin].
      * rewrite decide_True by (by right). done.
      * destruct (decide (k = i)) as [->|Hki].
        -- rewrite decide_True by (by left). done.
        -- rewrite decide_False; [done|].
           by intros [->|?]%elem_of_cons.
Qed.

(** What the constructor is to establish: it returns an object whose
    [rowp] and [cols] hold, entry by entry, the caller's [rowp_[0 ..
    nbrows]] and [cols_[0 .. nnz - 1]]; in particular the first and the
    last row pointer of a CSR input are [0] and [nnz]. *)
Definition ctor_copies (nbrows_ nbcols_ nnz_ : Z) (rowp_ cols_ : list Z)
    (idx0 colors0 : Z) (val0 : T) : Prop :=
  ∃ A, BSRMat_ctor nbrows_ nbcols_ nnz_ rowp_ cols_ idx0 colors0 val0 = Some A ∧
    nbrows A = nbrows_ ∧ nbcols A = nbcols_ ∧ nnz A = nnz_ ∧
    (∀ k, 0 ≤ k ≤ nbrows_ →
       ∃ x, at_index rowp_ k = Some x ∧ at_index (rowp A) k = Some x) ∧
    (∀ k, 0 ≤ k < nnz_ →
       ∃ x, at_index cols_ k = Some x ∧ at_index (cols A) k = Some x) ∧
    (at_index rowp_ 0 = Some 0 → at_index rowp_ nbrows_ = Some nnz_ →
       at_index (rowp A) 0 = Some 0 ∧ at_index (rowp A) nbrows_ = Some nnz_).

(** The arguments of a construction: [index_t] values, and arrays that
    have the entries that the constructor is to copy. *)
Definition ctor_args (nbrows_ nnz_ : Z) (rowp_ cols_ : list Z) : Prop :=
  is_index nbrows_ ∧ is_index nnz_ ∧
  nbrows_ + 1 ≤ Z.of_nat (length rowp_) ∧ nnz_ ≤ Z.of_nat (length cols_).

(** The outcome of the constructor, when [nbrows + 1] does not wrap. *)
Lemma BSRMat_ctor_Some nbrows_ nbcols_ nnz_ rowp_ cols_ idx0 colors0 val0 :
  ctor_args nbrows_ nnz_ rowp_ cols_ → nbrows_ < MAX_INDEX →
  ∃ r c,
    BSRMat_ctor nbrows_ nbcols_ nnz_ rowp_ cols_ idx0 colors0 val0
    = Some (set_cols (set_rowp (allocated nbrows_ nbcols_ nnz_ idx0 colors0 val0) r) c) ∧
    Z.of_nat (length r) = nbrows_ + 1 ∧ Z.of_nat (length c) = nnz_ ∧
    (∀ k, 0 ≤ k ≤ nbrows_ → at_index r k = at_index rowp_ k) ∧
    (∀ k, 0 ≤ k < nnz_ → at_index c k = at_index cols_ k).
Proof.
  intros ([Hr0 Hr1] & [Hz0 Hz1] & Hlr & Hlc) Hlt.
  unfold BSRMat_ctor, copy_pattern, for_range.
  rewrite iadd_small by lia. rewrite !Z.sub_0_r.
  set (s0 := allocated nbrows_ nbcols_ nnz_ idx0 colors0 val0).
  assert (Z.of_nat (length (rowp s0)) = nbrows_ + 1) as Hlen0.
  { simpl. rewrite length_replicate, iadd_small by lia. lia. }
  assert (Z.of_nat (length (cols s0)) = nnz_) as Hlen0'.
  { simpl. rewrite length_replicate. lia. }
  destruct (copy_rowp_loop rowp_ (seqZ 0 (nbrows_ + 1)) s0)
    as (r & Hrun1 & Hlenr & Hr).
  { intros k Hk%elem_of_seqZ. lia. }
  destruct (copy_cols_loop cols_ (seqZ 0 nnz_) (set_rowp s0 r))
    as (c & Hrun2 & Hlenc & Hc).
  { intros k Hk%elem_of_seqZ. simpl. simpl in Hlen0'. lia. }
  exists r, c. split_and!.
  - unfold bind at 1. rewrite Hrun1, Hrun2. done.
  - lia.
  - rewrite Hlenc. simpl. simpl in Hlen0'. lia.
  - intros k Hk. rewrite Hr. apply decide_True, elem_of_seqZ. lia.
  - intros k Hk. rewrite Hc. apply decide_True, elem_of_seqZ. lia.
Qed.

(** From a CSR input, with arrays of [nbrows + 1] and [nnz] entries, the
    constructor builds a valid matrix that has the caller's pattern. *)
Lemma BSRMat_ctor_valid nbrows_ nbcols_ nnz_ rowp_ cols_ idx0 colors0 val0 :
  0 < M ≤ MAX_INDEX → 0 < N ≤ MAX_INDEX →
  0 ≤ nbrows_ < MAX_INDEX → is_index nbcols_ → is_index nnz_ →
  Z.of_nat (length rowp_) = nbrows_ + 1 → Z.of_nat (length cols_) = nnz_ →
  at_index rowp_ 0 = Some 0 → at_index rowp_ nbrows_ = Some nnz_ →
  Sorted Z.le rowp_ → Forall (λ c, 0 ≤ c < nbcols_) cols_ →
  ∃ A, BSRMat_ctor nbrows_ nbcols_ nnz_ rowp_ cols_ idx0 colors0 val0 = Some A ∧
       valid A ∧ rowp A = rowp_ ∧ cols A = cols_.
Proof.
  intros HM HN Hr Hc Hz Hlr Hlc H0 Hlast Hsorted Hrange.
  destruct (BSRMat_ctor_Some nbrows_ nbcols_ nnz_ rowp_ cols_ idx0 colors0 val0)
    as (r & c & Hrun & Hlenr & Hlenc & Hrow & Hcol).
  { unfold ctor_args, is_index in *. lia. }
  { lia. }
  assert (∀ (l l' : list Z) n, Z.of_nat (length l) = n → Z.of_nat (length l') = n →
            (∀ k, 0 ≤ k < n → at_index l k = at_index l' k) → l = l') as Hext.
  { intros l l' n Hl Hl' Heq. apply list_eq. intros k.
    destruct (decide (Z.of_nat k < n)) as [Hk|Hk].
    - specialize (Heq (Z.of_nat k) ltac:(lia)). unfold at_index in Heq.
      rewrite !decide_True, !Nat2Z.id in Heq by lia. done.
    - rewrite !lookup_ge_None_2 by lia. done. }
  assert (r = rowp_) as -> by (apply (Hext _ _ (nbrows_ + 1)); auto with lia).
  assert (c = cols_) as -> by (by apply (Hext _ _ nnz_)).
  eexists. split; [exact Hrun|]. split_and!; [|done..].
  split; [split|..]; simpl; try done; [split; lia|].
  unfold dims, shape.
  assert (∀ {X Y} (f : X → Y) n x, map f (replicate n x) = replicate n (f x))
    as Hmap by (intros X Y f n x; induction n; simpl; congruence).
  by rewrite !Hmap, length_replicate.
Qed.

(** C8, amended.  For every construction [BSRMat(nbrows, nbcols, nnz,
    rowp_, cols_)] with [nbrows < MAX_INDEX], the constructor copies the
    caller's pattern entry by entry: afterwards [rowp[i] == rowp_[i]] for
    every [i] of [0 .. nbrows] and [cols[i] == cols_[i]] for every [i] of
    [0 .. nnz - 1]; in particular [rowp[0] == 0] and [rowp[nbrows] == nnz]
    when the input satisfies the CSR invariants. *)
Theorem ctor_copies_pattern nbrows_ nbcols_ nnz_ rowp_ cols_ idx0 colors0 val0 :
  ctor_args nbrows_ nnz_ rowp_ cols_ → nbrows_ < MAX_INDEX →
  ctor_copies nbrows_ nbcols_ nnz_ rowp_ cols_ idx0 colors0 val0.
Proof.
  intros Hargs Hlt.
  destruct (BSRMat_ctor_Some nbrows_ nbcols_ nnz_ rowp_ cols_ idx0 colors0 val0
              Hargs Hlt) as (r & c & Hrun & Hlr & Hlc & Hr & Hc).
  destruct Hargs as ([Hr0 Hr1] & [Hz0 Hz1] & Hlenr & Hlenc).
  eexists. split; [exact Hrun|]. simpl. split_and!; [done..| | |].
  - intros k Hk. destruct (at_index_is_Some rowp_ k) as [x Hx]; [lia|].
    exists x. by rewrite Hr, Hx.
  - intros k Hk. destruct (at_index_is_Some cols_ k) as [x Hx]; [lia|].
    exists x. by rewrite Hc, Hx.
  - intros H0 Hn. by rewrite !Hr, H0, Hn by lia.
Qed.

(** ** Export *)

(** *** The stored scalars in coordinate form *)

(** The pairs (block row, storage slot) in the order in which the loops of
    [to_dense] and [write_mtx] visit them. *)
Definition slots (A : BSRMat) : list (Z * Z) :=
  i ← seqZ 0 (nbrows A); jp ← row_slots A i; [(i, jp)].

(** The scalars of row [ii] of the block [jp], of block row [i] and block
    column [j], each with its scalar row and column (from 0). *)
Definition row_entries (A : BSRMat) (i jp j ii : Z) : list (Z * Z * T) :=
  jj ← seqZ 0 N;
  v ← option_list (vget (vals A) jp ii jj);
  [(M * i + ii, N * j + jj, v)].

Definition block_entries (A : BSRMat) (i jp j : Z) : list (Z * Z * T) :=
  ii ← seqZ 0 M; row_entries A i jp j ii.

Definition slot_entries (A : BSRMat) (i jp : Z) : list (Z * Z * T) :=
  j ← option_list (at_index (cols A) jp); block_entries A i jp j.

Definition brow_entries (A : BSRMat) (i : Z) : list (Z * Z * T) :=
  jp ← row_slots A i; slot_entries A i jp.

(** All the stored scalars, in pattern order. *)
Definition entries (A : BSRMat) : list (Z * Z * T) :=
  i ← seqZ 0 (nbrows A); brow_entries A i.

(** The index in a dense buffer of row length [n]. *)
Definition cell (n : Z) (e : Z * Z * T) : Z := n * e.1.1 + e.1.2.

(** The entries [es] stored one after the other into a dense buffer. *)
Fixpoint scatter (n : Z) (es : list (Z * Z * T)) (buf : list T)
  : option (list T) :=
  match es with
  | [] => Some buf
  | e :: es' => buf' ← store_index buf (cell n e) e.2; scatter n es' buf'
  end.

(** The dense size is an [index_t]: neither [M * nbrows], nor
    [N * nbcols], nor their product wraps. *)
Definition dense_fits (A : BSRMat) : Prop :=
  M * nbrows A ≤ MAX_INDEX ∧ N * nbcols A ≤ MAX_INDEX ∧
  (M * nbrows A) * (N * nbcols A) ≤ MAX_INDEX.

Lemma elem_of_option_list {X} (o : option X) (x : X) :
  x ∈ option_list o ↔ o = Some x.
Proof.
  destruct o as [y|]; simpl.
  - rewrite list_elem_of_singleton. split; [by intros ->|by intros [= ->]].
  - split; [by intros ?%elem_of_nil|done].
Qed.

Lemma scatter_app n es1 es2 buf :
  scatter n (es1 ++ es2) buf = scatter n es1 buf ≫= scatter n es2.
Proof.
  revert buf. induction es1 as [|e es1 IH]; intros buf; [done|].
  simpl. destruct (store_index buf (cell n e) e.2); simpl; [apply IH|done].
Qed.

(** Every cell of the resulting buffer holds the value of an entry of
    that cell (the last one), or its former content when there is none. *)
Lemma scatter_spec n es buf :
  (∀ e, e ∈ es → 0 ≤ cell n e < Z.of_nat (length buf)) →
  ∃ buf', scatter n es buf = Some buf' ∧ length buf' = length buf ∧
    (∀ k, (∀ e, e ∈ es → cell n e ≠ k) → at_index buf' k = at_index buf k) ∧
    (∀ k, (∃ e, e ∈ es ∧ cell n e = k) →
          ∃ e, e ∈ es ∧ cell n e = k ∧ at_index buf' k = Some e.2).
Proof.
  revert buf. induction es as [|e0 es IH]; intros buf Hes.
  - exists buf. split_and!; [done..|].
    intros k (e & ?%elem_of_nil & _). done.
  - destruct (store_index_is_Some buf (cell n e0) e0.2) as [buf1 Hst];
      [apply Hes; by left|].
    destruct (IH buf1) as (buf' & Hrun & Hlen & Hother & Hlast).
    { intros e He. rewrite (length_store_index _ _ _ _ Hst).
      apply Hes. by right. }
    exists buf'. split_and!.
    + simpl. by rewrite Hst.
    + rewrite Hlen. by eapply length_store_index.
    + intros k Hk. rewrite Hother by (intros; apply Hk; by right).
      rewrite (at_store_index _ _ _ _ k Hst).
      rewrite decide_False; [done|]. intros ->. by apply (Hk e0); [left|].
    + intros k (e & He & Hc).
      destruct (decide (Exists (λ e', cell n e' = k) es)) as [Hex|Hnex].
      * apply Exists_exists in Hex as (e' & He' & Hc').
        destruct (Hlast k) as (e'' & ? & ? & ?); [eauto|].
        exists e''. split_and!; [by right|done..].
      * assert (∀ e', e' ∈ es → cell n e' ≠ k) as Hno.
        { intros e' He' Hc'. apply Hnex, Exists_exists. eauto. }
        apply elem_of_cons in He as [->|He]; [|by destruct (Hno e)].
        exists e0. split_and!; [by left|done|].
        rewrite Hother by done. rewrite (at_store_index _ _ _ _ k Hst).
        by rewrite decide_True.
Qed.

(** A loop each iteration of which scatters entries, scatters their
    concatenation. *)
Lemma for_each_scatter {I} n (l : list I) (body : I → list T → op (list T))
    (es : I → list (Z * Z * T)) s :
  (∀ x acc, x ∈ l → body x acc s = (λ b, (b, s)) <$> scatter n (es x) acc) →
  ∀ acc, for_each l body acc s = (λ b, (b, s)) <$> scatter n (x ← l; es x) acc.
Proof.
  induction l as [|x l IH]; intros Hb acc; [done|].
  simpl. unfold bind. rewrite Hb by (by left). rewrite scatter_app.
  destruct (scatter n (es x) acc) as [acc'|]; simpl; [|done].
  apply IH. intros. apply Hb. by right.
Qed.

(** *** [to_dense] *)

(** The index computed by [to_dense] does not wrap when the dense size is
    an [index_t]. *)
Lemma dense_index_small nbr nbc i j ii jj :
  0 < M → 0 < N →
  M * nbr ≤ MAX_INDEX → N * nbc ≤ MAX_INDEX →
  (M * nbr) * (N * nbc) ≤ MAX_INDEX →
  0 ≤ i < nbr → 0 ≤ j < nbc → 0 ≤ ii < M → 0 ≤ jj < N →
  iadd (imul M i) ii = M * i + ii ∧
  iadd (imul N j) jj = N * j + jj ∧
  iadd (imul (N * nbc) (M * i + ii)) (N * j + jj)
    = N * nbc * (M * i + ii) + (N * j + jj) ∧
  0 ≤ N * nbc * (M * i + ii) + (N * j + jj) < (M * nbr) * (N * nbc).
Proof.
  intros HM HN Hm Hn Hmn Hi Hj Hii Hjj.
  assert (0 ≤ M * i + ii < M * nbr) as Hr by nia.
  assert (0 ≤ N * j + jj < N * nbc) as Hc by nia.
  assert (0 ≤ N * nbc * (M * i + ii) + (N * j + jj) < (M * nbr) * (N * nbc))
    as Hk by nia.
  split_and!; [| | |lia..].
  - rewrite imul_small by nia. apply iadd_small. lia.
  - rewrite imul_small by nia. apply iadd_small. lia.
  - rewrite imul_small by nia. apply iadd_small. lia.
Qed.

Lemma to_dense_block_scatter A i jp j buf :
  valid A → dense_fits A →
  0 ≤ i < nbrows A → 0 ≤ jp < nnz A → 0 ≤ j < nbcols A →
  to_dense_block (N * nbcols A) i jp j buf A
  = (λ b, (b, A)) <$> scatter (N * nbcols A) (block_entries A i jp j) buf.
Proof.
  intros HA (Hm & Hn & Hmn) Hi Hjp Hj.
  pose proof (valid_M A HA) as HM. pose proof (valid_N A HA) as HN.
  unfold to_dense_block, for_range, block_entries. rewrite !Z.sub_0_r.
  apply for_each_scatter. intros ii acc Hii%elem_of_seqZ.
  unfold row_entries. apply for_each_scatter. intros jj acc' Hjj%elem_of_seqZ.
  destruct (dense_index_small (nbrows A) (nbcols A) i j ii jj)
    as (-> & -> & -> & _); [lia..|].
  destruct (proj2 (vget_is_Some_shape (vals A) (nnz A) M N jp ii jj
                     (valid_shape A HA))) as [v Hv]; [lia|].
  unfold bind, read_vals, lift. rewrite Hv. simpl.
  unfold cell. simpl. by destruct (store_index acc' _ v).
Qed.

Lemma row_slots_seqZ A i lo hi :
  at_index (rowp A) i = Some lo → at_index (rowp A) (i + 1) = Some hi →
  row_slots A i = seqZ lo (hi - lo).
Proof. intros Hlo Hhi. unfold row_slots. by rewrite Hlo, Hhi. Qed.

(** [to_dense] scatters the stored scalars into a zeroed buffer. *)
Lemma to_dense_scatter A :
  valid A → dense_fits A →
  to_dense A
  = (λ b, ((M * nbrows A, N * nbcols A, b), A))
      <$> scatter (N * nbcols A) (entries A)
            (replicate (Z.to_nat ((M * nbrows A) * (N * nbcols A))) zeroT).
Proof.
  intros HA Hfit. pose proof Hfit as (Hm & Hn & Hmn).
  pose proof (valid_M A HA) as HM. pose proof (valid_N A HA) as HN.
  pose proof (valid_pattern A HA) as Hpat.
  destruct (csr_nbrows A Hpat) as [Hr0 Hr1].
  destruct (csr_nbcols A Hpat) as [Hc0 Hc1].
  unfold to_dense, bind at 1 2, gets.
  rewrite (imul_small M (nbrows A)) by nia.
  rewrite (imul_small N (nbcols A)) by nia.
  rewrite imul_small by nia.
  unfold bind at 1, for_range. rewrite Z.sub_0_r.
  rewrite (for_each_scatter (N * nbcols A) (seqZ 0 (nbrows A)) _
             (brow_entries A) A).
  - unfold entries. by destruct (scatter _ _ _).
  - intros i acc Hi%elem_of_seqZ.
    destruct (csr_row_bounds A i Hpat) as (lo & hi & Hlo & Hhi & ? & ?); [lia|].
    unfold bind at 1. rewrite (read_idx_Some rowp i lo A Hlo).
    rewrite iadd_small by lia.
    unfold bind at 1. rewrite (read_idx_Some rowp (i + 1) hi A Hhi).
    unfold brow_entries. rewrite (row_slots_seqZ A i lo hi) by done.
    apply for_each_scatter. intros jp acc' Hjp%elem_of_seqZ.
    destruct (csr_cols_lookup A jp Hpat) as (j & Hj & ?); [lia|].
    unfold bind at 1. rewrite (read_idx_Some cols jp j A Hj).
    unfold slot_entries. rewrite Hj. simpl. rewrite app_nil_r.
    apply to_dense_block_scatter; [done..|lia|lia|done].
Qed.

(** The stored scalars are those of the blocks of the pattern. *)
Lemma elem_of_entries A e :
  e ∈ entries A ↔
  ∃ i p j ii jj v,
    0 ≤ i < nbrows A ∧ p ∈ row_slots A i ∧ at_index (cols A) p = Some j ∧
    0 ≤ ii < M ∧ 0 ≤ jj < N ∧ vget (vals A) p ii jj = Some v ∧
    e = (M * i + ii, N * j + jj, v).
Proof.
  unfold entries, brow_entries, slot_entries, block_entries, row_entries.
  split.
  - intros (i & (p & (j & (ii & (jj & (v & He & Hv)%list_elem_of_bind
        & Hjj)%list_elem_of_bind & Hii)%list_elem_of_bind
        & Hj)%list_elem_of_bind & Hp)%list_elem_of_bind
        & Hi)%list_elem_of_bind.
    apply list_elem_of_singleton in He.
    apply elem_of_option_list in Hv, Hj.
    apply elem_of_seqZ in Hi, Hii, Hjj.
    exists i, p, j, ii, jj, v. split_and!; try done; lia.
  - intros (i & p & j & ii & jj & v & Hi & Hp & Hj & Hii & Hjj & Hv & ->).
    apply list_elem_of_bind. exists i. split; [|apply elem_of_seqZ; lia].
    apply list_elem_of_bind. exists p. split; [|done].
    apply list_elem_of_bind. exists j. split; [|by apply elem_of_option_list].
    apply list_elem_of_bind. exists ii. split; [|apply elem_of_seqZ; lia].
    apply list_elem_of_bind. exists jj. split; [|apply elem_of_seqZ; lia].
    apply list_elem_of_bind. exists v. split; [|by apply elem_of_option_list].
    by apply list_elem_of_singleton.
Qed.

Lemma block_coordinates b q q' o o' :
  0 < b → 0 ≤ o < b → 0 ≤ o' < b → b * q + o = b * q' + o' → q = q' ∧ o = o'.
Proof.
  intros Hb Ho Ho' Heq.
  assert (q = q') as ->; [|lia].
  transitivity ((b * q + o) / b).
  - apply (Z.div_unique _ b q o); lia.
  - symmetry. apply (Z.div_unique _ b q' o'); lia.
Qed.

Lemma dup_free_slot A i p p' j :
  dup_free A → 0 ≤ i < nbrows A →
  p ∈ row_slots A i → p' ∈ row_slots A i →
  at_index (cols A) p = Some j → at_index (cols A) p' = Some j → p = p'.
Proof.
  unfold dup_free. rewrite Forall_seqZ. intros Hdup Hi Hp Hp' Hj Hj'.
  specialize (Hdup i ltac:(lia)).
  apply list_elem_of_lookup in Hp as [k Hk], Hp' as [k' Hk'].
  assert (k = k') as ->; [|congruence].
  eapply (NoDup_lookup _ k k' (Some j) Hdup);
    rewrite list_lookup_fmap; [by rewrite Hk; simpl; rewrite Hj
                              |by rewrite Hk'; simpl; rewrite Hj'].
Qed.

(** The scalar coordinates of a stored scalar are coordinates of the
    matrix. *)
Lemma entries_range A e :
  valid A → e ∈ entries A →
  0 ≤ e.1.1 < M * nbrows A ∧ 0 ≤ e.1.2 < N * nbcols A.
Proof.
  intros HA (i & p & j & ii & jj & v & Hi & Hp & Hj & Hii & Hjj & Hv & ->)
    %elem_of_entries.
  pose proof (valid_M A HA). pose proof (valid_N A HA).
  destruct (csr_cols_lookup A p (valid_pattern A HA)) as (j' & Hj' & ?);
    [by eapply row_slots_range; [apply valid_pattern|..]|].
  simplify_eq. simpl. nia.
Qed.

(** Without duplicates in the pattern, no two stored scalars share
    coordinates. *)
Lemma entries_same_cell A e e' :
  valid A → dup_free A → e ∈ entries A → e' ∈ entries A →
  cell (N * nbcols A) e = cell (N * nbcols A) e' → e = e'.
Proof.
  intros HA Hdup He He' Hcell.
  pose proof (entries_range A e HA He) as [Hr Hc].
  pose proof (entries_range A e' HA He') as [Hr' Hc'].
  pose proof (valid_M A HA). pose proof (valid_N A HA).
  apply elem_of_entries in He
    as (i & p & j & ii & jj & v & Hi & Hp & Hj & Hii & Hjj & Hv & ->).
  apply elem_of_entries in He'
    as (i' & p' & j' & ii' & jj' & v' & Hi' & Hp' & Hj' & Hii' & Hjj' & Hv' & ->).
  unfold cell in Hcell. simpl in *.
  assert (M * i + ii = M * i' + ii' ∧ N * j + jj = N * j' + jj') as [Hrr Hcc].
  { apply (block_coordinates (N * nbcols A)); [nia|lia..]. }
  apply block_coordinates in Hrr as [-> ->]; [|lia..].
  apply block_coordinates in Hcc as [-> ->]; [|lia..].
  assert (p = p') as -> by (by eapply (dup_free_slot A i' p p' j')).
  congruence.
Qed.

(** What [to_dense] is to return: the dimensions [M * nbrows] and
    [N * nbcols], and a buffer of that many scalars in which every block
    of the pattern is found at its place and every scalar position that no
    block of the pattern covers is zero. *)
Definition to_dense_correct (A : BSRMat) : Prop :=
  ∃ buf,
    to_dense A = Some ((M * nbrows A, N * nbcols A, buf), A) ∧
    Z.of_nat (length buf) = (M * nbrows A) * (N * nbcols A) ∧
    (∀ i p j ii jj,
       0 ≤ i < nbrows A → p ∈ row_slots A i → at_index (cols A) p = Some j →
       0 ≤ ii < M → 0 ≤ jj < N →
       ∃ v, vget (vals A) p ii jj = Some v ∧
            at_index buf (N * nbcols A * (M * i + ii) + (N * j + jj)) = Some v) ∧
    (∀ r c,
       0 ≤ r < M * nbrows A → 0 ≤ c < N * nbcols A →
       ¬ block_present A (r / M) (c / N) →
       at_index buf (N * nbcols A * r + c) = Some zeroT).

Lemma at_index_replicate {X} (n : nat) (x : X) k :
  0 ≤ k < Z.of_nat n → at_index (replicate n x) k = Some x.
Proof.
  intros Hk. unfold at_index. rewrite decide_True by lia.
  apply lookup_replicate_2. lia.
Qed.

(** The buffer into which the stored scalars have been scattered. *)
Lemma scatter_entries A :
  valid A → dup_free A → dense_fits A →
  ∃ buf,
    scatter (N * nbcols A) (entries A)
      (replicate (Z.to_nat ((M * nbrows A) * (N * nbcols A))) zeroT) = Some buf ∧
    Z.of_nat (length buf) = (M * nbrows A) * (N * nbcols A) ∧
    (∀ e, e ∈ entries A → at_index buf (cell (N * nbcols A) e) = Some e.2) ∧
    (∀ k, 0 ≤ k < (M * nbrows A) * (N * nbcols A) →
          (∀ e, e ∈ entries A → cell (N * nbcols A) e ≠ k) →
          at_index buf k = Some zeroT).
Proof.
  intros HA Hdup (Hm & Hn & Hmn).
  pose proof (valid_M A HA) as HM. pose proof (valid_N A HA) as HN.
  destruct (csr_nbrows A (valid_pattern A HA)) as [Hr0 _].
  destruct (csr_nbcols A (valid_pattern A HA)) as [Hc0 _].
  set (n := N * nbcols A). set (m := M * nbrows A).
  destruct (scatter_spec n (entries A) (replicate (Z.to_nat (m * n)) zeroT))
    as (buf & Hrun & Hlen & Hother & Hlast).
  { intros e [Hr Hc]%entries_range; [|done]. rewrite length_replicate.
    unfold cell. fold n m in Hr, Hc. nia. }
  rewrite length_replicate in Hlen.
  exists buf. split_and!; [done|nia|..].
  - intros e He. destruct (Hlast (cell n e)) as (e' & He' & Hc & ->); [eauto|].
    by rewrite (entries_same_cell A e' e).
  - intros k Hk Hno. rewrite Hother by done.
    apply at_index_replicate. lia.
Qed.

Lemma block_index b q o : 0 < b → 0 ≤ o < b → (b * q + o) / b = q.
Proof. intros. symmetry. apply (Z.div_unique _ b q o); lia. Qed.

(** A cell that no stored scalar occupies lies in no block of the
    pattern. *)
Lemma entries_cover A r c :
  valid A → 0 ≤ c < N * nbcols A →
  ¬ block_present A (r / M) (c / N) →
  ∀ e, e ∈ entries A → cell (N * nbcols A) e ≠ N * nbcols A * r + c.
Proof.
  intros HA Hc Habs e He Hcell.
  pose proof (entries_range A e HA He) as [_ Hce].
  pose proof (valid_M A HA). pose proof (valid_N A HA).
  apply elem_of_entries in He
    as (i & p & j & ii & jj & v & Hi & Hp & Hj & Hii & Hjj & Hv & ->).
  unfold cell in Hcell. simpl in *.
  apply block_coordinates in Hcell as [<- <-]; [|nia|lia..].
  apply Habs. exists p. rewrite !block_index by lia. done.
Qed.

(** C5, amended.  On a matrix with a valid, duplicate-free CSR pattern
    whose dense size is an [index_t] ([M * nbrows], [N * nbcols] and their
    product are at most [MAX_INDEX]), [to_dense] returns [m = M * nbrows],
    [n = N * nbcols] and a buffer [A] of [m * n] scalars such that
    [A[n * (M * i + ii) + (N * j + jj)] = vals(p, ii, jj)] for every
    pattern entry [p] of a row [i] with [cols[p] = j] and every block
    offset [(ii, jj)], and every scalar position covered by no block of
    the pattern is zero. *)
Theorem to_dense_materialises A :
  valid A → dup_free A → dense_fits A → to_dense_correct A.
Proof.
  intros HA Hdup Hfit.
  destruct (scatter_entries A HA Hdup Hfit) as (buf & Hrun & Hlen & Hset & Hzero).
  exists buf. split_and!; [|done|..].
  - rewrite to_dense_scatter by done. by rewrite Hrun.
  - intros i p j ii jj Hi Hp Hj Hii Hjj.
    destruct (proj2 (vget_is_Some_shape (vals A) (nnz A) M N p ii jj
                       (valid_shape A HA))) as [v Hv].
    { split; [|done]. eapply row_slots_range; [by apply valid_pattern|done..]. }
    exists v. split; [done|].
    apply (Hset (M * i + ii, N * j + jj, v)), elem_of_entries.
    exists i, p, j, ii, jj, v. split_and!; try done; lia.
  - intros r c Hr Hc Habs. apply Hzero; [nia|].
    by apply entries_cover.
Qed.

(** *** [write_mtx] *)

(** The line of a stored scalar: its coordinates from 1, and its value. *)
Definition entry_line (e : Z * Z * T) : mtx_line :=
  MtxEntry (e.1.1 + 1) (e.1.2 + 1) e.2.

Lemma list_bind_assoc {X Y W} (f : X → list Y) (g : Y → list W) (l : list X) :
  (l ≫= f) ≫= g = l ≫= (λ x, f x ≫= g).
Proof.
  induction l as [|x l IH]; [done|].
  by rewrite !bind_cons, bind_app, IH.
Qed.

Lemma list_fmap_of_bind {X Y W} (f : X → list Y) (g : Y → W) (l : list X) :
  g <$> (l ≫= f) = l ≫= (λ x, g <$> f x).
Proof.
  induction l as [|x l IH]; [done|].
  by rewrite !bind_cons, fmap_app, IH.
Qed.

Lemma length_bind_const {X Y} (f : X → list Y) (l : list X) (c : nat) :
  (∀ x, x ∈ l → length (f x) = c) → length (l ≫= f) = (length l * c)%nat.
Proof.
  induction l as [|x l IH]; intros Hf; [done|].
  rewrite bind_cons, length_app, IH, Hf; [done|by left|].
  intros. apply Hf. by right.
Qed.

(** A loop each iteration of which appends lines, appends their
    concatenation. *)
Lemma for_each_emit {I} (l : list I)
    (body : I → list mtx_line → op (list mtx_line))
    (lines : I → list mtx_line) s :
  (∀ x out, x ∈ l → body x out s = Some (out ++ lines x, s)) →
  ∀ out, for_each l body out s = Some (out ++ (x ← l; lines x), s).
Proof.
  induction l as [|x l IH]; intros Hb out.
  - simpl. by rewrite app_nil_r.
  - simpl. unfold bind. rewrite Hb by (by left).
    rewrite IH by (intros; apply Hb; by right).
    by rewrite <- (assoc_L (++)).
Qed.

Lemma to_mtx_block_emit A i jp j out :
  valid A → M * nbrows A ≤ MAX_INDEX → N * nbcols A ≤ MAX_INDEX →
  0 ≤ i < nbrows A → 0 ≤ jp < nnz A → 0 ≤ j < nbcols A →
  to_mtx_block i jp j out A
  = Some (out ++ (entry_line <$> block_entries A i jp j), A).
Proof.
  intros HA Hm Hn Hi Hjp Hj.
  pose proof (valid_M A HA) as HM. pose proof (valid_N A HA) as HN.
  unfold to_mtx_block, for_range, block_entries. rewrite !Z.sub_0_r.
  rewrite list_fmap_of_bind.
  apply for_each_emit. intros ii acc Hii%elem_of_seqZ.
  unfold row_entries. rewrite list_fmap_of_bind.
  apply for_each_emit. intros jj acc' Hjj%elem_of_seqZ.
  destruct (proj2 (vget_is_Some_shape (vals A) (nnz A) M N jp ii jj
                     (valid_shape A HA))) as [v Hv]; [lia|].
  unfold bind, read_vals, lift. rewrite Hv. simpl.
  unfold ret, entry_line. simpl.
  rewrite (imul_small M i), (imul_small N j) by nia.
  rewrite (iadd_small (M * i) ii), (iadd_small (N * j) jj) by nia.
  by rewrite !iadd_small by nia.
Qed.

(** Every block row holds at most [nbcols] blocks when it lists no block
    column twice, hence [nnz <= nbrows * nbcols]. *)
Lemma dup_free_row_length A i lo hi :
  csr_pattern A → dup_free A → 0 ≤ i < nbrows A →
  at_index (rowp A) i = Some lo → at_index (rowp A) (i + 1) = Some hi →
  hi - lo ≤ nbcols A.
Proof.
  intros HA Hdup Hi Hlo Hhi.
  unfold dup_free in Hdup. rewrite Forall_seqZ in Hdup.
  specialize (Hdup i ltac:(lia)).
  rewrite (row_slots_seqZ A i lo hi) in Hdup by done.
  assert (at_index (cols A) <$> seqZ lo (hi - lo)
          ⊆+ Some <$> seqZ 0 (nbcols A)) as Hsub.
  { apply NoDup_submseteq; [done|].
    intros o (p & -> & Hp)%list_elem_of_fmap.
    destruct (csr_cols_lookup A p HA) as (c & -> & Hc).
    - eapply (row_slots_range A i); [done..|].
      by rewrite (row_slots_seqZ A i lo hi).
    - apply list_elem_of_fmap. exists c. split; [done|].
      apply elem_of_seqZ. lia. }
  apply submseteq_length in Hsub.
  rewrite !length_fmap, !length_seqZ in Hsub.
  destruct (csr_nbcols A HA). lia.
Qed.

Lemma dup_free_rowp_bound A (k : nat) x :
  csr_pattern A → dup_free A → Z.of_nat k ≤ nbrows A →
  at_index (rowp A) (Z.of_nat k) = Some x → x ≤ Z.of_nat k * nbcols A.
Proof.
  intros HA Hdup. revert x. induction k as [|k IH]; intros x Hk Hx.
  - change (Z.of_nat 0) with 0 in Hx.
    rewrite (csr_rowp_first A HA) in Hx. simplify_eq. lia.
  - destruct (csr_row_bounds A (Z.of_nat k) HA) as (lo & hi & Hlo & Hhi & ? & ?);
      [lia|].
    replace (Z.of_nat (S k)) with (Z.of_nat k + 1) in * by lia.
    rewrite Hhi in Hx. simplify_eq.
    pose proof (IH lo ltac:(lia) Hlo).
    pose proof (dup_free_row_length A (Z.of_nat k) lo x HA Hdup ltac:(lia) Hlo Hhi).
    lia.
Qed.

Lemma dup_free_nnz_bound A :
  csr_pattern A → dup_free A → nnz A ≤ nbrows A * nbcols A.
Proof.
  intros HA Hdup. destruct (csr_nbrows A HA).
  pose proof (dup_free_rowp_bound A (Z.to_nat (nbrows A)) (nnz A) HA Hdup) as Hb.
  rewrite Z2Nat.id in Hb by lia. apply Hb; [lia|]. by apply csr_rowp_last.
Qed.

(** The loops visit the storage slots in increasing order, each once. *)
Lemma slots_prefix A (k : nat) x :
  csr_pattern A → Z.of_nat k ≤ nbrows A →
  at_index (rowp A) (Z.of_nat k) = Some x →
  snd <$> (i ← seqZ 0 (Z.of_nat k); jp ← row_slots A i; [(i, jp)]) = seqZ 0 x.
Proof.
  intros HA. revert x. induction k as [|k IH]; intros x Hk Hx.
  - change (Z.of_nat 0) with 0 in Hx.
    rewrite (csr_rowp_first A HA) in Hx. by simplify_eq.
  - destruct (csr_row_bounds A (Z.of_nat k) HA) as (lo & hi & Hlo & Hhi & ? & ?);
      [lia|].
    rewrite seqZ_S, bind_app, fmap_app, (IH lo) by (done || lia).
    replace (Z.of_nat (S k)) with (Z.of_nat k + 1) in Hx by lia.
    rewrite Hhi in Hx. simplify_eq.
    rewrite Z.add_0_l, bind_cons, app_nil_r.
    rewrite (row_slots_seqZ A (Z.of_nat k) lo x) by done.
    rewrite list_fmap_of_bind.
    replace x with (lo + (x - lo)) at 2 by lia.
    rewrite seqZ_app by lia. f_equal. rewrite Z.add_0_l.
    clear. induction (seqZ lo (x - lo)) as [|p l IH]; [done|].
    by rewrite bind_cons, IH.
Qed.

Lemma slots_order A : csr_pattern A → snd <$> slots A = seqZ 0 (nnz A).
Proof.
  intros HA. destruct (csr_nbrows A HA).
  pose proof (slots_prefix A (Z.to_nat (nbrows A)) (nnz A) HA) as Hs.
  rewrite Z2Nat.id in Hs by lia. apply Hs; [lia|]. by apply csr_rowp_last.
Qed.

Lemma elem_of_slots A i p :
  (i, p) ∈ slots A ↔ 0 ≤ i < nbrows A ∧ p ∈ row_slots A i.
Proof.
  unfold slots. rewrite list_elem_of_bind. split.
  - intros (i' & (p' & [= -> ->]%list_elem_of_singleton & Hp)%list_elem_of_bind
            & Hi%elem_of_seqZ).
    split; [lia|done].
  - intros [Hi Hp]. exists i. split; [|apply elem_of_seqZ; lia].
    apply list_elem_of_bind. exists p. split; [|done].
    by apply list_elem_of_singleton.
Qed.

Lemma entries_slots A : entries A = '(i, p) ← slots A; slot_entries A i p.
Proof.
  unfold entries, slots, brow_entries.
  rewrite list_bind_assoc. apply list_bind_ext; [|done]. intros i.
  rewrite list_bind_assoc. apply list_bind_ext; [|done]. intros p.
  by rewrite bind_cons, app_nil_r.
Qed.

(** A valid matrix stores [nnz * M * N] scalars. *)
Lemma length_entries A :
  valid A → Z.of_nat (length (entries A)) = nnz A * M * N.
Proof.
  intros HA. pose proof (valid_pattern A HA) as Hpat.
  pose proof (valid_M A HA) as HM. pose proof (valid_N A HA) as HN.
  destruct (csr_nnz A Hpat).
  rewrite entries_slots.
  rewrite (length_bind_const _ _ (Z.to_nat M * Z.to_nat N)).
  - assert (length (slots A) = Z.to_nat (nnz A)) as ->.
    { rewrite <- (length_fmap snd), slots_order by done. apply length_seqZ. }
    nia.
  - intros [i p] [Hi Hp]%elem_of_slots.
    pose proof (row_slots_range A i p Hpat Hi Hp) as Hpr.
    destruct (csr_cols_lookup A p Hpat Hpr) as (j & Hj & _).
    unfold slot_entries. rewrite Hj. simpl. rewrite app_nil_r.
    unfold block_entries.
    rewrite (length_bind_const _ _ (Z.to_nat N)), length_seqZ; [done|].
    intros ii Hii%elem_of_seqZ. unfold row_entries.
    rewrite (length_bind_const _ _ 1), length_seqZ; [lia|].
    intros jj Hjj%elem_of_seqZ.
    destruct (proj2 (vget_is_Some_shape (vals A) (nnz A) M N p ii jj
                       (valid_shape A HA))) as [v ->]; [lia|done].
Qed.

(** The file that [write_mtx] writes, when no size wraps. *)
Lemma write_mtx_lines A :
  valid A →
  M * nbrows A ≤ MAX_INDEX → N * nbcols A ≤ MAX_INDEX →
  nnz A * M * N ≤ MAX_INDEX →
  write_mtx A
  = Some (MtxHeader "%%MatrixMarket matrix coordinate real general"
          :: MtxSize (M * nbrows A) (N * nbcols A) (nnz A * M * N)
          :: (entry_line <$> entries A), A).
Proof.
  intros HA Hm Hn Hz.
  pose proof (valid_M A HA) as HM. pose proof (valid_N A HA) as HN.
  pose proof (valid_pattern A HA) as Hpat.
  destruct (csr_nbrows A Hpat) as [Hr0 Hr1].
  destruct (csr_nbcols A Hpat) as [Hc0 Hc1].
  destruct (csr_nnz A Hpat) as [Hz0 Hz1].
  unfold write_mtx, bind at 1 2 3, gets.
  rewrite (imul_small (nbrows A) M), (imul_small (nbcols A) N) by nia.
  rewrite (imul_small (nnz A) M) by nia. rewrite imul_small by nia.
  rewrite (Z.mul_comm (nbrows A) M), (Z.mul_comm (nbcols A) N).
  unfold for_range. rewrite Z.sub_0_r.
  rewrite (for_each_emit (seqZ 0 (nbrows A)) _
             (λ i, entry_line <$> brow_entries A i) A).
  - unfold entries. by rewrite list_fmap_of_bind.
  - intros i acc Hi%elem_of_seqZ.
    destruct (csr_row_bounds A i Hpat) as (lo & hi & Hlo & Hhi & ? & ?); [lia|].
    unfold bind at 1. rewrite (read_idx_Some rowp i lo A Hlo).
    rewrite iadd_small by lia.
    unfold bind at 1. rewrite (read_idx_Some rowp (i + 1) hi A Hhi).
    unfold brow_entries. rewrite (row_slots_seqZ A i lo hi) by done.
    rewrite list_fmap_of_bind.
    apply for_each_emit. intros jp acc' Hjp%elem_of_seqZ.
    destruct (csr_cols_lookup A jp Hpat) as (j & Hj & ?); [lia|].
    unfold bind at 1. rewrite (read_idx_Some cols jp j A Hj).
    unfold slot_entries. rewrite Hj. simpl. rewrite app_nil_r.
    apply to_mtx_block_emit; [done..|lia|lia|done].
Qed.

(** What the two exports are to have in common.  [write_mtx] writes the
    header, the size line and one line for each stored scalar, in pattern
    order and with coordinates from 1; every line [(r, c, v)] gives the
    scalar [v] that [to_dense] has at [(r - 1, c - 1)], and [to_dense] has
    zero wherever no line is given. *)
Definition mtx_matches_dense (A : BSRMat) : Prop :=
  ∃ buf lines,
    to_dense A = Some ((M * nbrows A, N * nbcols A, buf), A) ∧
    write_mtx A
    = Some (MtxHeader "%%MatrixMarket matrix coordinate real general"
            :: MtxSize (M * nbrows A) (N * nbcols A) (nnz A * M * N)
            :: lines, A) ∧
    Z.of_nat (length lines) = nnz A * M * N ∧
    lines = entry_line <$> ('(i, p) ← slots A; slot_entries A i p) ∧
    snd <$> slots A = seqZ 0 (nnz A) ∧
    (∀ r c v,
       MtxEntry r c v ∈ lines →
       1 ≤ r ≤ M * nbrows A ∧ 1 ≤ c ≤ N * nbcols A ∧
       at_index buf (N * nbcols A * (r - 1) + (c - 1)) = Some v) ∧
    (∀ r c,
       1 ≤ r ≤ M * nbrows A → 1 ≤ c ≤ N * nbcols A →
       (∀ v, MtxEntry r c v ∉ lines) →
       at_index buf (N * nbcols A * (r - 1) + (c - 1)) = Some zeroT).

(** C6, amended.  On a matrix with a valid, duplicate-free CSR pattern
    whose dense size is an [index_t], the file written by [write_mtx]
    consists of the MatrixMarket coordinate-real-general header, the size
    line [(M * nbrows, N * nbcols, nnz * M * N)] and exactly
    [nnz * M * N] entry lines, one for each stored scalar in pattern order
    with scalar coordinates from 1; each entry line [(r, c, v)] satisfies
    [v = to_dense()[r - 1][c - 1]], and every scalar position listed on no
    entry line is zero in [to_dense()]. *)
Theorem write_mtx_agrees_with_to_dense A :
  valid A → dup_free A → dense_fits A → mtx_matches_dense A.
Proof.
  intros HA Hdup Hfit. pose proof Hfit as (Hm & Hn & Hmn).
  pose proof (valid_M A HA) as HM. pose proof (valid_N A HA) as HN.
  pose proof (valid_pattern A HA) as Hpat.
  destruct (csr_nbrows A Hpat) as [Hr0 _].
  destruct (csr_nbcols A Hpat) as [Hc0 _].
  destruct (csr_nnz A Hpat) as [Hz0 _].
  pose proof (dup_free_nnz_bound A Hpat Hdup) as Hnnz.
  destruct (scatter_entries A HA Hdup Hfit) as (buf & Hrun & Hlen & Hset & Hzero).
  exists buf, (entry_line <$> entries A). split_and!.
  - rewrite to_dense_scatter by done. by rewrite Hrun.
  - apply write_mtx_lines; [done..|].
    assert (nnz A * (M * N) ≤ nbrows A * nbcols A * (M * N))
      by (apply Z.mul_le_mono_nonneg_r; [nia|done]).
    lia.
  - rewrite length_fmap. by apply length_entries.
  - by rewrite entries_slots.
  - by apply slots_order.
  - intros r c v (e & [= -> -> ->] & He)%list_elem_of_fmap.
    pose proof (entries_range A e HA He) as [Hr Hc].
    split_and!; [lia..|].
    replace (e.1.1 + 1 - 1) with e.1.1 by lia.
    replace (e.1.2 + 1 - 1) with e.1.2 by lia.
    by apply Hset.
  - intros r c Hr Hc Hnone. apply Hzero; [nia|].
    intros e He Hcell. pose proof (entries_range A e HA He) as [_ Hce].
    unfold cell in Hcell.
    apply block_coordinates in Hcell as [Her Hec]; [|nia|lia..].
    apply (Hnone e.2), list_elem_of_fmap. exists e. split; [|done].
    unfold entry_line. f_equal; lia.
Qed.

(** When [nbrows] is [MAX_INDEX], [nbrows + 1] wraps to [0]: the
    constructor allocates no row pointer and copies none. *)
Lemma BSRMat_ctor_wraps nbcols_ rowp_ idx0 colors0 val0 :
  0 ≤ MAX_INDEX →
  ∃ A, BSRMat_ctor MAX_INDEX nbcols_ 0 rowp_ [] idx0 colors0 val0 = Some A ∧
       rowp A = [].
Proof.
  intros Hmax.
  assert (iadd MAX_INDEX 1 = 0) as Hwrap
    by (unfold iadd, wrap; apply Z_mod_same_full).
  unfold BSRMat_ctor, copy_pattern, for_range, allocated. rewrite !Hwrap.
  eexists. split; reflexivity.
Qed.

(** ** Further properties of the member functions *)

(** *** Loops and arrays *)

Lemma at_index_None {X} (l : list X) k :
  Z.of_nat (length l) ≤ k → at_index l k = None.
Proof.
  intros Hk. unfold at_index. case_decide; [|done].
  apply lookup_ge_None_2. lia.
Qed.

(** The first [n] entries of an array are those at the indices below [n]. *)
Lemma elem_of_take_at_index {X} (l : list X) n x :
  x ∈ take (Z.to_nat n) l ↔ ∃ k, 0 ≤ k < n ∧ at_index l k = Some x.
Proof.
  rewrite list_elem_of_lookup. split.
  - intros [k Hk]. pose proof (lookup_lt_Some _ _ _ Hk) as Hlt.
    rewrite length_take in Hlt.
    rewrite lookup_take_lt in Hk by lia.
    exists (Z.of_nat k). split; [lia|].
    unfold at_index. rewrite decide_True by lia. by rewrite Nat2Z.id.
  - intros (k & Hk & Hx). unfold at_index in Hx.
    rewrite decide_True in Hx by lia.
    exists (Z.to_nat k). by rewrite lookup_take_lt by lia.
Qed.

Lemma for_each_app {I Acc} (l1 l2 : list I) (body : I → Acc → op Acc) acc s :
  for_each (l1 ++ l2) body acc s
  = match for_each l1 body acc s with
    | Some (acc', s') => for_each l2 body acc' s'
    | None => None
    end.
Proof.
  revert acc s. induction l1 as [|x l1 IH]; intros acc s; [done|].
  simpl. unfold bind. destruct (body x acc s) as [[acc' s']|]; [apply IH|done].
Qed.

(** A loop one iteration of which faults, whatever the object has become
    under the invariant that the iterations keep, faults. *)
Lemma for_each_faults {I Acc} (Inv : BSRMat → Prop) (l : list I)
    (body : I → Acc → op Acc) x :
  x ∈ l →
  (∀ y acc s r s', y ∈ l → Inv s → body y acc s = Some (r, s') → Inv s') →
  (∀ acc s, Inv s → body x acc s = None) →
  ∀ acc s, Inv s → for_each l body acc s = None.
Proof.
  intros Hx Hinv Hf. revert Hx Hinv.
  induction l as [|y l IH]; intros Hx Hinv acc s Hs;
    [by apply elem_of_nil in Hx|].
  simpl. unfold bind. destruct (body y acc s) as [[r s']|] eqn:Hy; [|done].
  apply elem_of_cons in Hx as [->|Hx]; [by rewrite Hf in Hy|].
  apply IH; [done| |].
  - intros. eapply Hinv; [by right|done..].
  - eapply Hinv; [by left|done..].
Qed.

Lemma list_bind_ext_in {X Y} (f g : X → list Y) (l : list X) :
  (∀ x, x ∈ l → f x = g x) → l ≫= f = l ≫= g.
Proof.
  induction l as [|x l IH]; intros Hfg; [done|].
  rewrite !bind_cons, Hfg, IH; [done| |by left].
  intros. apply Hfg. by right.
Qed.

(** Two value stores of the same extents that agree at every position are
    equal, and so are two objects that agree on every data member. *)
Lemma vals_ext (v v' : list (list (list T))) :
  dims v = dims v' → (∀ p a b, vget v p a b = vget v' p a b) → v = v'.
Proof.
  intros Hd Hv. apply list_eq. intros p.
  assert (map (length (A:=T)) <$> (v !! p) = map (length (A:=T)) <$> (v' !! p))
    as Hdp.
  { unfold dims in Hd.
    transitivity (map (map (length (A:=T))) v !! p);
      [by rewrite list_lookup_fmap|].
    rewrite Hd. by rewrite list_lookup_fmap. }
  destruct (v !! p) as [blk|] eqn:Hb, (v' !! p) as [blk'|] eqn:Hb';
    simplify_eq/=; [|done].
  f_equal. apply list_eq. intros a.
  assert (length <$> (blk !! a) = length <$> (blk' !! a)) as Hda.
  { transitivity (map (length (A:=T)) blk !! a);
      [by rewrite list_lookup_fmap|].
    rewrite Hdp. by rewrite list_lookup_fmap. }
  destruct (blk !! a) as [row|] eqn:Hr, (blk' !! a) as [row'|] eqn:Hr';
    simplify_eq/=; [|done].
  f_equal. apply list_eq. intros b.
  specialize (Hv (Z.of_nat p) (Z.of_nat a) (Z.of_nat b)).
  unfold vget, at_index in Hv.
  rewrite !decide_True, !Nat2Z.id in Hv by lia.
  rewrite Hb, Hb' in Hv. simpl in Hv.
  destruct (decide (0 ≤ Z.of_nat a)); [|lia].
  rewrite Hr, Hr' in Hv. simpl in Hv.
  by destruct (decide (0 ≤ Z.of_nat b)); [|lia].
Qed.

Lemma BSRMat_ext (A1 A2 : BSRMat) :
  metadata A1 = metadata A2 → vals A1 = vals A2 → A1 = A2.
Proof.
  destruct A1, A2. unfold metadata. simpl. intros [= -> -> -> -> -> -> -> -> -> ->] ->.
  done.
Qed.

(** Two valid matrices of the same pattern that agree at every position
    of [vals] are equal. *)
Lemma valid_ext (A1 A2 : BSRMat) :
  valid A1 → valid A2 → metadata A1 = metadata A2 →
  (∀ p a b, vget (vals A1) p a b = vget (vals A2) p a b) → A1 = A2.
Proof.
  intros H1 H2 Hm Hv. apply BSRMat_ext; [done|].
  apply vals_ext; [|done].
  rewrite (valid_shape A1 H1), (valid_shape A2 H2).
  by destruct (metadata_eq A1 A2 Hm) as (_ & _ & -> & _).
Qed.

(** Outside its extents, [vals] has nothing to read. *)
Lemma vget_outside (v : list (list (list T))) n p a b :
  dims v = shape n M N → ¬ (0 ≤ p < n ∧ 0 ≤ a < M ∧ 0 ≤ b < N) →
  vget v p a b = None.
Proof.
  intros Hd Hout. apply eq_None_not_Some.
  by rewrite (vget_is_Some_shape v n M N p a b Hd).
Qed.

Lemma csr_pattern_same s A :
  metadata s = metadata A → csr_pattern A → csr_pattern s.
Proof. intros Hm. by apply csr_pattern_metadata. Qed.

Lemma row_slots_metadata s A row :
  metadata s = metadata A → row_slots s row = row_slots A row.
Proof.
  intros (_ & _ & _ & Hr & _)%metadata_eq. unfold row_slots. by rewrite Hr.
Qed.

Lemma dup_free_metadata s A :
  metadata s = metadata A → dup_free A → dup_free s.
Proof.
  intros Hm. unfold dup_free.
  destruct (metadata_eq s A Hm) as (-> & _ & _ & _ & ->).
  intros Hd. eapply Forall_impl; [exact Hd|]. intros row Hrow.
  by rewrite (row_slots_metadata s A).
Qed.

Lemma block_present_metadata s A row col :
  metadata s = metadata A → block_present s row col ↔ block_present A row col.
Proof.
  intros Hm. unfold block_present. rewrite (row_slots_metadata s A) by done.
  by destruct (metadata_eq s A Hm) as (_ & _ & _ & _ & ->).
Qed.



(** The slot of a block that the pattern has. *)
Lemma slot_of_present A row col :
  csr_pattern A → 0 ≤ row < nbrows A → block_present A row col →
  slot_of A row col ∈ row_slots A row ∧
  at_index (cols A) (slot_of A row col) = Some col ∧
  0 ≤ slot_of A row col < nnz A ∧ slot_of A row col ≠ MAX_INDEX.
Proof.
  intros HA Hrow Hpres.
  destruct (first_slot_match A col (row_slots A row) Hpres) as [Hin Hcol].
  fold (slot_of A row col) in Hin, Hcol.
  pose proof (row_slots_range A row _ HA Hrow Hin).
  destruct (csr_nnz A HA). split_and!; [done..|lia|lia|lia].
Qed.

(** *** Lookup *)

(** A block row beyond the last one: [rowp[row + 1]] is past the end of
    [rowp]. *)
Lemma find_column_index_past_rowp A row col :
  csr_pattern A → nbrows A ≤ row < MAX_INDEX →
  find_column_index row col A = None.
Proof.
  intros HA Hrow. unfold find_column_index, bind, read_idx, lift.
  destruct (at_index (rowp A) row) as [lo|]; [|done].
  rewrite iadd_small by (destruct (csr_nbrows A HA); lia).
  rewrite at_index_None; [done|]. rewrite (csr_rowp_length A HA). lia.
Qed.

(** X1.  On a valid CSR pattern, [find_column_index(row, col)] returns the
    first storage index of the row whose block column is [col]: if some
    index [q] of [rowp[row] .. rowp[row + 1] - 1] has [cols[q] == col],
    the result [p] is such an index, [p <= q], and no index of the row
    below [p] holds [col].  This also holds when the row lists a block
    column more than once. *)
Theorem find_column_index_first_match A row col q :
  csr_pattern A → 0 ≤ row < nbrows A →
  q ∈ row_slots A row → at_index (cols A) q = Some col →
  ∃ p, find_column_index row col A = Some (p, A) ∧
       p ∈ row_slots A row ∧ at_index (cols A) p = Some col ∧ p ≤ q ∧
       ∀ q', q' ∈ row_slots A row → q' < p → at_index (cols A) q' ≠ Some col.
Proof.
  intros HA Hrow Hq Hc. exists (slot_of A row col).
  destruct (first_slot_match A col (row_slots A row)) as [Hin Hcol]; [eauto|].
  split_and!; [by apply find_column_index_slot_of|done|done| |].
  - by apply slot_of_least.
  - intros q' Hq' Hlt Hc'.
    pose proof (slot_of_least A row col q' Hq' Hc'). lia.
Qed.

(** X2.  [find_column_index] does not check its block row: on a valid CSR
    pattern, for a [row] with [nbrows <= row < MAX_INDEX], it reads
    [rowp[row + 1]] past the end of [rowp] (which has [nbrows + 1]
    entries) and has no defined outcome, whatever the column. *)
Theorem find_column_index_row_out_of_range A row col :
  csr_pattern A → nbrows A ≤ row < MAX_INDEX →
  find_column_index row col A = None.
Proof. apply find_column_index_past_rowp. Qed.

(** X3.  On a valid, duplicate-free CSR pattern, the lookup inverts
    [cols] row by row: for every storage index [p] of a block row [row],
    [find_column_index(row, cols[p])] returns [p] itself. *)
Theorem find_column_index_own_slot A row p c :
  csr_pattern A → dup_free A → 0 ≤ row < nbrows A →
  p ∈ row_slots A row → at_index (cols A) p = Some c →
  find_column_index row c A = Some (p, A).
Proof.
  intros HA Hdup Hrow Hp Hc.
  rewrite find_column_index_slot_of by done.
  destruct (first_slot_match A c (row_slots A row)) as [Hin Hcol]; [eauto|].
  do 2 f_equal. by eapply (dup_free_slot A row _ p c).
Qed.

(** X4.  A storage index that [find_column_index] has returned stays
    good: after any call of [add_values] or [zero_rows] that returns,
    [find_column_index(row, col)] returns the same index as before. *)
Theorem find_column_index_stable A row col :
  csr_pattern A → 0 ≤ row < nbrows A →
  ∃ p, find_column_index row col A = Some (p, A) ∧
    (∀ m i n j mat A',
       add_values m i n j mat A = Some (tt, A') →
       find_column_index row col A' = Some (p, A')) ∧
    (∀ nbcs dof A',
       zero_rows nbcs dof A = Some (tt, A') →
       find_column_index row col A' = Some (p, A')).
Proof.
  intros HA Hrow. exists (slot_of A row col).
  assert (∀ A', metadata A' = metadata A →
            find_column_index row col A' = Some (slot_of A row col, A')) as Hsame.
  { intros A' Hm. rewrite <- (slot_of_metadata A' A) by done.
    apply find_column_index_slot_of; [by apply (csr_pattern_same A' A)|].
    by destruct (metadata_eq A' A Hm) as (-> & _). }
  split_and!.
  - by apply find_column_index_slot_of.
  - intros m i n j mat A' Hrun. apply Hsame.
    by apply (keeps_metadata_add_values m i n j mat A tt A').
  - intros nbcs dof A' Hrun. apply Hsame.
    by apply (keeps_metadata_zero_rows nbcs dof A tt A').
Qed.

(** *** Construction *)

(** X5.  From a CSR input - arrays of [nbrows + 1] and [nnz] entries,
    [rowp_] starting at [0], ending at [nnz] and never decreasing, the
    entries of [cols_] below [nbcols] - with [nbrows < MAX_INDEX], the
    constructor builds a matrix that satisfies the CSR invariants and
    whose [vals] has the extents [nnz][M][N]; its dimensions and its
    pattern are the caller's, and the arrays [diag], [perm], [iperm] and
    [color_count] are left unallocated. *)
Theorem ctor_builds_valid_matrix nbrows_ nbcols_ nnz_ rowp_ cols_ idx0 colors0 val0 :
  0 < M ≤ MAX_INDEX → 0 < N ≤ MAX_INDEX →
  0 ≤ nbrows_ < MAX_INDEX → is_index nbcols_ → is_index nnz_ →
  Z.of_nat (length rowp_) = nbrows_ + 1 → Z.of_nat (length cols_) = nnz_ →
  at_index rowp_ 0 = Some 0 → at_index rowp_ nbrows_ = Some nnz_ →
  Sorted Z.le rowp_ → Forall (λ c, 0 ≤ c < nbcols_) cols_ →
  ∃ A, BSRMat_ctor nbrows_ nbcols_ nnz_ rowp_ cols_ idx0 colors0 val0 = Some A ∧
       valid A ∧
       nbrows A = nbrows_ ∧ nbcols A = nbcols_ ∧ nnz A = nnz_ ∧
       rowp A = rowp_ ∧ cols A = cols_ ∧
       diag A = [] ∧ perm A = [] ∧ iperm A = [] ∧ color_count A = [].
Proof.
  intros HM HN Hr Hc Hz Hlr Hlc H0 Hlast Hsorted Hrange.
  destruct (BSRMat_ctor_valid nbrows_ nbcols_ nnz_ rowp_ cols_ idx0 colors0 val0)
    as (A & Hrun & HA & Hrowp & Hcols); [done..|].
  destruct (BSRMat_ctor_Some nbrows_ nbcols_ nnz_ rowp_ cols_ idx0 colors0 val0)
    as (r & c & Hrun' & _).
  { unfold ctor_args, is_index in *. lia. }
  { lia. }
  exists A. split_and!; try done;
    rewrite Hrun in Hrun'; injection Hrun' as ->; done.
Qed.

(** X6.  The constructor reads [rowp_[0 .. nbrows]] and
    [cols_[0 .. nnz - 1]] without checking the length of the caller's
    arrays: for [nbrows < MAX_INDEX], it has a defined outcome exactly
    when [rowp_] has at least [nbrows + 1] entries and [cols_] at least
    [nnz]. *)
Theorem ctor_defined_iff nbrows_ nbcols_ nnz_ rowp_ cols_ idx0 colors0 val0 :
  0 ≤ nbrows_ < MAX_INDEX → is_index nnz_ →
  is_Some (BSRMat_ctor nbrows_ nbcols_ nnz_ rowp_ cols_ idx0 colors0 val0) ↔
  nbrows_ + 1 ≤ Z.of_nat (length rowp_) ∧ nnz_ ≤ Z.of_nat (length cols_).
Proof.
  intros Hr Hz. split.
  - intros [A HA].
    destruct (decide (nbrows_ + 1 ≤ Z.of_nat (length rowp_))) as [Hlr|Hlr].
    + split; [done|].
      destruct (decide (nnz_ ≤ Z.of_nat (length cols_))) as [|Hlc]; [done|].
      exfalso. revert HA. unfold BSRMat_ctor, copy_pattern, bind.
      destruct (for_range 0 (iadd nbrows_ 1) _ tt _) as [[[] s1]|]; [|done].
      unfold for_range.
      rewrite (for_each_faults (λ _, True) _ _ (Z.of_nat (length cols_)));
        [done| |done| |done].
      * apply elem_of_seqZ. lia.
      * intros [] s _. unfold bind, lift.
        by rewrite at_index_None by lia.
    + exfalso. revert HA. unfold BSRMat_ctor, copy_pattern, bind at 1, for_range.
      rewrite iadd_small by lia.
      rewrite (for_each_faults (λ _, True) _ _ (Z.of_nat (length rowp_)));
        [done| |done| |done].
      * apply elem_of_seqZ. lia.
      * intros [] s _. unfold bind, lift.
        by rewrite at_index_None by lia.
  - intros [Hlr Hlc].
    destruct (BSRMat_ctor_Some nbrows_ nbcols_ nnz_ rowp_ cols_ idx0 colors0 val0)
      as (r & c & -> & _); [|lia|done].
    unfold ctor_args, is_index in *. lia.
Qed.

(** *** Assembly *)

(** The pattern has no block in a block column beyond the last one. *)
Lemma block_absent_column_out_of_range A row col :
  csr_pattern A → 0 ≤ row < nbrows A → ¬ (0 ≤ col < nbcols A) →
  block_absent A row col.
Proof.
  intros HA Hrow Hcol q Hq Hc.
  destruct (csr_cols_lookup A q HA) as (c & Hc' & ?);
    [by eapply row_slots_range|].
  rewrite Hc in Hc'. simplify_eq. lia.
Qed.

(** X7.  [add_values] drops the contributions to block columns beyond
    the matrix: on a matrix with a valid CSR pattern, a call whose row DOF
    indices decompose to in-range block rows and all of whose column DOF
    indices decompose to block columns [>= nbcols] returns and leaves the
    object as it is. *)
Theorem add_values_ignores_columns_out_of_range A m i n j mat :
  valid A →
  dofs_in_range M (nbrows A) m i → n ≤ Z.of_nat (length j) →
  Forall (λ d, nbcols A ≤ d / N) (take (Z.to_nat n) j) →
  add_values m i n j mat A = Some (tt, A).
Proof.
  intros HA Hi Hj Hout. apply add_values_all_absent; [done..|].
  intros ii jj Hii Hjj.
  destruct (dofs_in_range_lookup _ _ _ _ ii Hi) as (di & Hdi & ? & ?); [lia|].
  destruct (at_index_is_Some j jj) as [dj Hdj]; [lia|].
  exists di, dj. split_and!; [done..|].
  pose proof (valid_M A HA).
  apply block_absent_column_out_of_range; [by apply valid_pattern| |].
  - split; [apply Z.div_pos; lia|done].
  - rewrite Forall_forall in Hout.
    specialize (Hout dj). rewrite elem_of_take_at_index in Hout.
    specialize (Hout ltac:(exists jj; split; [lia|done])). lia.
Qed.

(** X8.  [add_values] does not check its row indices: on a matrix with a
    valid CSR pattern, a call with at least one column ([n >= 1], [j]
    not empty) one of whose row DOF indices [i[ii]], [ii < m], decomposes
    to a block row [i[ii] / M] with [nbrows <= i[ii] / M < MAX_INDEX] has
    no defined outcome: the lookup for that row reads past the end of
    [rowp]. *)
Theorem add_values_row_out_of_range A m i n j mat ii d :
  valid A →
  0 ≤ ii < m → at_index i ii = Some d → nbrows A ≤ d / M < MAX_INDEX →
  0 < n → (0 < length j)%nat →
  add_values m i n j mat A = None.
Proof.
  intros HA Hii Hd Hrow Hn Hj.
  pose proof (valid_M A HA) as HM. pose proof (valid_N A HA) as HN.
  destruct (at_index_is_Some j 0) as [dj Hdj]; [lia|].
  unfold add_values, for_range.
  apply (for_each_faults (λ s, metadata s = metadata A) _ _ ii); [| | |done].
  - apply elem_of_seqZ. lia.
  - intros y [] s [] s' _ Hs Hrun. rewrite <- Hs.
    assert (keeps_metadata
      (let* di := lift (at_index i y) in
       let* block_row := idiv di M in
       let* eq_row := imod di M in
       for_range 0 n
         (λ jj _, add_values_pair j mat block_row eq_row y jj) tt)) as Hkeep
      by (unfold add_values_pair; frame).
    exact (Hkeep s tt s' Hrun).
  - intros [] s Hs. unfold bind at 1, lift at 1. rewrite Hd.
    unfold bind at 1, idiv. rewrite decide_False by lia. unfold ret at 1.
    unfold bind at 1, imod. rewrite decide_False by lia. unfold ret at 1.
    apply (for_each_faults (λ s, metadata s = metadata A) _ _ 0); [| | |done].
    + apply elem_of_seqZ. lia.
    + intros y [] s1 [] s2 _ Hs1 Hrun. rewrite <- Hs1.
      assert (keeps_metadata (add_values_pair j mat (d / M) (d mod M) ii y))
        as Hkeep by (unfold add_values_pair; frame).
      exact (Hkeep s1 tt s2 Hrun).
    + intros [] s1 Hs1. unfold add_values_pair.
      unfold bind at 1, lift at 1. rewrite Hdj.
      unfold bind at 1, idiv. rewrite decide_False by lia. unfold ret at 1.
      unfold bind at 1, imod. rewrite decide_False by lia. unfold ret at 1.
      unfold bind at 1.
      rewrite find_column_index_past_rowp; [done| |].
      * by apply (csr_pattern_same s1 A), valid_pattern.
      * by destruct (metadata_eq s1 A Hs1) as (-> & _).
Qed.

(** X9.  [add_values] and [zero_rows] keep the invariants of the class:
    on a matrix with a valid CSR pattern, with in-range DOFs, each of them
    returns a matrix that satisfies the CSR invariants again, with [vals]
    of the extents it had, the same pattern and metadata, and without
    duplicates if there were none. *)
Theorem updates_keep_validity A :
  valid A →
  (∀ m i n j mat,
     dofs_in_range M (nbrows A) m i → n ≤ Z.of_nat (length j) →
     ∃ A', add_values m i n j mat A = Some (tt, A') ∧ valid A' ∧
           dims (vals A') = dims (vals A) ∧ metadata A' = metadata A ∧
           (dup_free A → dup_free A')) ∧
  (∀ nbcs dof,
     dofs_in_range M (nbrows A) nbcs dof →
     Forall (diag_in_block A) (take (Z.to_nat nbcs) dof) →
     ∃ A', zero_rows nbcs dof A = Some (tt, A') ∧ valid A' ∧
           dims (vals A') = dims (vals A) ∧ metadata A' = metadata A ∧
           (dup_free A → dup_free A')).
Proof.
  intros HA.
  assert (∀ A', valid A' → metadata A' = metadata A →
            dims (vals A') = dims (vals A)) as Hdims.
  { intros A' HA' Hm. rewrite (valid_shape A' HA'), (valid_shape A HA).
    by destruct (metadata_eq A' A Hm) as (_ & _ & -> & _). }
  split.
  - intros m i n j mat Hi Hj.
    destruct (accumulates_add_values A m i n j mat HA Hi Hj A HA eq_refl)
      as (A' & Hrun & HA' & Hm & _).
    exists A'.
    split_and!; [done|done|by apply Hdims|done|by apply dup_free_metadata].
  - intros nbcs dof Hin Hdiag.
    pose proof (bcs_in_range_intro A nbcs dof Hin Hdiag) as Hbcs.
    destruct (zero_rows_loop_frame A dof (seqZ 0 nbcs) A HA eq_refl)
      as (A' & Hrun & HA' & Hm & _).
    { intros ii Hii%elem_of_seqZ.
      destruct (bcs_in_range_lookup A nbcs dof ii Hbcs) as (d & ? & _ & ? & ?);
        [lia|]. eauto. }
    exists A'.
    split_and!; [|done|by apply Hdims|done|by apply dup_free_metadata].
    unfold zero_rows, for_range. by rewrite Z.sub_0_r.
Qed.

(** A sum does not depend on the order of its terms, when the addition is
    associative and commutative. *)
Lemma fold_left_Permutation (l l' : list T) v :
  (∀ x y z, addT (addT x y) z = addT x (addT y z)) →
  (∀ x y, addT x y = addT y x) →
  l ≡ₚ l' → fold_left addT l v = fold_left addT l' v.
Proof.
  intros Ha Hc Hp. revert v. induction Hp as [|x l l' _ IH|x y l|l l' l'' _ IH1 _ IH2];
    intros v; simpl.
  - done.
  - apply IH.
  - f_equal. by rewrite !Ha, (Hc y x).
  - by rewrite IH1.
Qed.

(** X10.  With an associative and commutative addition, the assembly
    does not depend on the order of the calls: on a matrix with a valid
    CSR pattern, two sequences of in-range calls of [add_values] that are
    permutations of each other return the same matrix. *)
Theorem assemble_order_independent A calls calls' :
  (∀ x y z, addT (addT x y) z = addT x (addT y z)) →
  (∀ x y, addT x y = addT y x) →
  valid A → Forall (call_in_range A) calls → calls ≡ₚ calls' →
  ∃ A', assemble calls A = Some (tt, A') ∧ assemble calls' A = Some (tt, A').
Proof.
  intros Ha Hc HA Hcalls Hperm.
  assert (Forall (call_in_range A) calls') as Hcalls' by (by rewrite <- Hperm).
  destruct (accumulates_assemble A calls HA Hcalls A HA eq_refl)
    as (A1 & Hrun1 & HA1 & Hm1 & Hv1).
  destruct (accumulates_assemble A calls' HA Hcalls' A HA eq_refl)
    as (A2 & Hrun2 & HA2 & Hm2 & Hv2).
  exists A1. split; [done|]. rewrite Hrun2. do 2 f_equal.
  apply valid_ext; [done|done|congruence|].
  intros p a b. rewrite Hv1, Hv2.
  destruct (vget (vals A) p a b) as [v|]; [|done]. simpl. f_equal.
  apply fold_left_Permutation; [done..|]. by rewrite Hperm.
Qed.

(** The entries [mat(ii, jj)] that a sequence of calls addresses to the
    scalar position [(r, c)] of the matrix: those of the pairs with
    [i[ii] == r] and [j[jj] == c], in the order of the calls and of their
    loops. *)
Definition position_contributions (calls : list call) (r c : Z) : list T :=
  cl ← calls;
  ii ← seqZ 0 (call_m cl);
  jj ← seqZ 0 (call_n cl);
  if decide (at_index (call_i cl) ii = Some r ∧ at_index (call_j cl) jj = Some c)
  then [call_mat cl ii jj] else [].

(** The pairs addressed to the scalar slot of the position [(r, c)] are
    the pairs of the row DOF [r] and the column DOF [c]. *)
Lemma addressed_position A i j ii jj r c di :
  valid A →
  0 ≤ r < M * nbrows A → block_present A (r / M) (c / N) →
  at_index i ii = Some di → 0 ≤ di → di / M < nbrows A →
  addressed A i j ii jj = Some (slot_of A (r / M) (c / N), r mod M, c mod N)
  ↔ at_index i ii = Some r ∧ at_index j jj = Some c.
Proof.
  intros HA Hr Hpres Hdi Hdi0 Hdir.
  pose proof (valid_M A HA) as HM. pose proof (valid_N A HA) as HN.
  pose proof (valid_pattern A HA) as Hpat.
  assert (0 ≤ r / M < nbrows A) as Hrow.
  { split; [apply Z.div_pos; lia|apply Z.div_lt_upper_bound; lia]. }
  destruct (slot_of_present A (r / M) (c / N) Hpat Hrow Hpres)
    as (Hin & Hcol & Hrange & Hmax).
  unfold addressed. rewrite Hdi. simpl.
  destruct (at_index j jj) as [dj|]; simpl; [|split; [done|by intros [_ ?]]].
  destruct (decide (slot_of A (di / M) (dj / N) ≠ MAX_INDEX)) as [Hp|Hp]; split.
  - intros [= Hslot Hrm Hcm].
    destruct (first_slot_found A (dj / N) (row_slots A (di / M))
                (slot_of A (di / M) (dj / N)) eq_refl Hp) as [Hin' Hcol'].
    rewrite Hslot in Hin', Hcol'.
    assert (di / M = r / M) as Hrq.
    { eapply (row_slots_disjoint A); [done| |done|done..].
      split; [apply Z.div_pos; lia|done]. }
    assert (dj / N = c / N) as Hcq by congruence.
    split; f_equal.
    + rewrite (Z.div_mod di M), (Z.div_mod r M) by lia. congruence.
    + rewrite (Z.div_mod dj N), (Z.div_mod c N) by lia. congruence.
  - by intros [[= ->] [= ->]].
  - done.
  - intros [[= ->] [= ->]]. by destruct Hp.
Qed.

Lemma call_contributions_position A calls r c :
  valid A → Forall (call_in_range A) calls →
  0 ≤ r < M * nbrows A → block_present A (r / M) (c / N) →
  (cl ← calls;
   call_contributions A cl (slot_of A (r / M) (c / N), r mod M, c mod N))
  = position_contributions calls r c.
Proof.
  intros HA Hcalls Hr Hpres. unfold position_contributions.
  apply list_bind_ext_in. intros cl Hcl.
  rewrite Forall_forall in Hcalls. destruct (Hcalls cl Hcl) as [Hi _].
  unfold call_contributions, contributions.
  apply list_bind_ext_in. intros ii Hii%elem_of_seqZ.
  destruct (dofs_in_range_lookup _ _ _ _ ii Hi) as (di & Hdi & ? & ?); [lia|].
  apply list_bind_ext_in. intros jj _.
  apply decide_ext. by eapply addressed_position.
Qed.

(** X11.  Assembly as seen in the dense matrix.  On a matrix with a
    valid, duplicate-free CSR pattern whose dense size is an [index_t],
    after the assembly of any sequence of in-range calls of [add_values]
    into zeroed storage, [to_dense] returns the buffer in which every
    scalar position [(r, c)] of a block of the pattern holds the sum of the
    entries [mat(ii, jj)] of all the pairs with [i[ii] == r] and
    [j[jj] == c], added in the order of the calls, and every position
    outside the blocks of the pattern is zero. *)
Theorem assemble_then_to_dense A calls :
  valid A → dup_free A → dense_fits A → all_zero A →
  Forall (call_in_range A) calls →
  ∃ A' buf,
    (let* _ := assemble calls in to_dense) A
      = Some ((M * nbrows A, N * nbcols A, buf), A') ∧
    Z.of_nat (length buf) = (M * nbrows A) * (N * nbcols A) ∧
    ∀ r c, 0 ≤ r < M * nbrows A → 0 ≤ c < N * nbcols A →
      (block_present A (r / M) (c / N) →
         at_index buf (N * nbcols A * r + c)
         = Some (fold_left addT (position_contributions calls r c) zeroT)) ∧
      (¬ block_present A (r / M) (c / N) →
         at_index buf (N * nbcols A * r + c) = Some zeroT).
Proof.
  intros HA Hdup Hfit Hz Hcalls.
  pose proof (valid_M A HA) as HM. pose proof (valid_N A HA) as HN.
  destruct (accumulates_assemble A calls HA Hcalls A HA eq_refl)
    as (A' & Hrun & HA' & Hm & Hv).
  destruct (metadata_eq A' A Hm) as (Hnr & Hnc & Hnz & Hrp & Hcl).
  assert (dense_fits A') as Hfit' by (unfold dense_fits; by rewrite Hnr, Hnc).
  destruct (scatter_entries A' HA' (dup_free_metadata A' A Hm Hdup) Hfit')
    as (buf & Hscat & Hlen & Hset & Hzero).
  exists A', buf. split_and!.
  - unfold bind. rewrite Hrun, to_dense_scatter by done.
    rewrite Hscat. simpl. by rewrite Hnr, Hnc.
  - by rewrite <- Hnr, <- Hnc.
  - intros r c Hr Hc. rewrite <- Hnc. split.
    + intros Hpres.
      assert (0 ≤ r / M < nbrows A) as Hrow.
      { split; [apply Z.div_pos; lia|apply Z.div_lt_upper_bound; lia]. }
      destruct (slot_of_present A (r / M) (c / N) (valid_pattern A HA) Hrow Hpres)
        as (Hin & Hcol & Hrange & _).
      pose proof (Z.mod_pos_bound r M ltac:(lia)).
      pose proof (Z.mod_pos_bound c N ltac:(lia)).
      destruct (proj2 (vget_is_Some_shape (vals A) (nnz A) M N
                         (slot_of A (r / M) (c / N)) (r mod M) (c mod N)
                         (valid_shape A HA))) as [v0 Hv0]; [lia|].
      specialize (Hset (M * (r / M) + r mod M, N * (c / N) + c mod N,
                        fold_left addT (position_contributions calls r c) zeroT)).
      unfold cell in Hset. simpl in Hset.
      rewrite <- !Z.div_mod in Hset by lia.
      apply Hset, elem_of_entries.
      exists (r / M), (slot_of A (r / M) (c / N)), (c / N), (r mod M), (c mod N),
        (fold_left addT (position_contributions calls r c) zeroT).
      split_and!; [lia|rewrite Hnr; lia|by rewrite (row_slots_metadata A' A)
                  |by rewrite Hcl|lia..| |by rewrite <- !Z.div_mod by lia].
      rewrite Hv, Hv0. simpl. rewrite (all_zero_vget A _ _ _ v0 Hz Hv0).
      do 2 f_equal. by apply call_contributions_position.
    + intros Habs. apply Hzero; [rewrite Hnr, Hnc; nia|].
      apply entries_cover; [done|by rewrite Hnc|].
      by rewrite block_present_metadata.
Qed.

(** *** Boundary conditions *)

(** What a call of [zero_rows] for the DOFs [D] makes of [s]: in every
    block of its block row, the scalar row of each DOF of [D] is zero but
    for the diagonal scalar of a diagonal block, which is one; everything
    else is as in [s]. *)
Definition rows_eliminated (A : BSRMat) (D : list Z) (s s' : BSRMat) : Prop :=
  valid s' ∧ metadata s' = metadata A ∧
  (∀ d p b, d ∈ D → p ∈ row_slots A (d / M) → 0 ≤ b < N →
     vget (vals s') p (d mod M) b
     = Some (if decide (at_index (cols A) p = Some (d / M) ∧ b = d mod M)
             then oneT else zeroT)) ∧
  (∀ p a b,
     (∀ d, d ∈ D → ¬ (p ∈ row_slots A (d / M) ∧ a = d mod M)) →
     vget (vals s') p a b = vget (vals s) p a b).

(** The loop of [zero_rows] over the constrained DOFs of indices [l]. *)
Lemma zero_rows_loop_spec A dof (l : list Z) s :
  valid s → metadata s = metadata A →
  (∀ ii, ii ∈ l → ∃ d, at_index dof ii = Some d ∧
                       dof_in_range A d ∧ diag_in_block A d) →
  ∃ s', for_each l (λ ii _, let* d := lift (at_index dof ii) in
                            zero_rows_dof d) tt s = Some (tt, s') ∧
    valid s' ∧ metadata s' = metadata A ∧
    (∀ ii d p b, ii ∈ l → at_index dof ii = Some d →
       p ∈ row_slots A (d / M) → 0 ≤ b < N →
       vget (vals s') p (d mod M) b
       = Some (if decide (at_index (cols A) p = Some (d / M) ∧ b = d mod M)
               then oneT else zeroT)) ∧
    (∀ p a b,
       (∀ ii d, ii ∈ l → at_index dof ii = Some d →
                ¬ (p ∈ row_slots A (d / M) ∧ a = d mod M)) →
       vget (vals s') p a b = vget (vals s) p a b).
Proof.
  revert s. induction l as [|ii0 l IH] using rev_ind; intros s Hs Hm Hl.
  - exists s. split_and!; [done..| |done].
    intros ii d p b Hii. by apply elem_of_nil in Hii.
  - destruct (IH s Hs Hm) as (s1 & Hrun1 & Hs1 & Hm1 & Hone1 & Hother1).
    { intros. apply Hl, elem_of_app. by left. }
    destruct (Hl ii0) as (d0 & Hd0 & [Hd00 Hd0r] & Hdiag0).
    { apply elem_of_app. right. by left. }
    destruct (metadata_eq s1 A Hm1) as (Hnr & _ & _ & Hrp & Hcl).
    destruct (zero_rows_dof_spec s1 d0) as (s2 & Hrun2 & Hs2 & Hm2 & Hv2);
      [done|split; [done|by rewrite Hnr]|by apply (diag_in_block_metadata s1 A)|].
    pose proof (valid_M s Hs) as HM.
    pose proof (csr_pattern_metadata s A Hm (valid_pattern s Hs)) as Hpat.
    exists s2. split_and!; [|done|congruence| |].
    + rewrite for_each_app, Hrun1. simpl.
      unfold bind at 1. unfold bind at 1, lift at 1. rewrite Hd0.
      by rewrite Hrun2.
    + intros ii d p b Hii Hd Hp Hb. rewrite Hv2.
      rewrite (row_slots_metadata s1 A), Hcl by done.
      destruct (decide (p ∈ row_slots A (d0 / M) ∧ d mod M = d0 mod M ∧ 0 ≤ b < N))
        as [(Hp0 & Hmod & _)|Hno].
      * destruct (Hl ii Hii) as (d' & Hd' & [Hd'0 Hd'r] & _).
        assert (d' = d) as -> by congruence.
        assert (d / M = d0 / M) as Hq.
        { eapply (row_slots_disjoint A); [done| | |done..];
            (split; [apply Z.div_pos; lia|done]). }
        by rewrite Hq, Hmod.
      * apply elem_of_app in Hii as [Hii|Hii%list_elem_of_singleton].
        -- by apply (Hone1 ii).
        -- subst ii. assert (d = d0) as -> by congruence. by destruct Hno.
    + intros p a b Hno. rewrite Hv2.
      rewrite (row_slots_metadata s1 A) by done.
      rewrite decide_False.
      * apply Hother1. intros ii d Hii. apply Hno, elem_of_app. by left.
      * intros (Hp & Ha & _).
        apply (Hno ii0 d0); [apply elem_of_app; right; by left|done|done].
Qed.

(** [zero_rows] eliminates the rows of the DOFs [dof[0 .. nbcs - 1]]. *)
Lemma zero_rows_spec A nbcs dof s :
  valid s → metadata s = metadata A → bcs_in_range A nbcs dof →
  ∃ s', zero_rows nbcs dof s = Some (tt, s') ∧
        rows_eliminated A (take (Z.to_nat nbcs) dof) s s'.
Proof.
  intros Hs Hm Hbcs.
  destruct (zero_rows_loop_spec A dof (seqZ 0 nbcs) s Hs Hm)
    as (s' & Hrun & Hs' & Hm' & Hone & Hother).
  { intros ii Hii%elem_of_seqZ.
    destruct (bcs_in_range_lookup A nbcs dof ii Hbcs) as (d & ? & _ & ? & ?);
      [lia|]. eauto. }
  exists s'. split; [|split_and!; try done].
  - unfold zero_rows, for_range. by rewrite Z.sub_0_r.
  - intros d p b (ii & Hii & Hd)%elem_of_take_at_index.
    apply (Hone ii); [apply elem_of_seqZ; lia|done].
  - intros p a b Hno. apply Hother.
    intros ii d Hii%elem_of_seqZ Hd. apply Hno, elem_of_take_at_index.
    exists ii. split; [lia|done].
Qed.

(** The matrix with the rows of [D] eliminated is determined by the set
    of the DOFs of [D] and by the scalars of the other rows. *)
Lemma rows_eliminated_unique A D D' s t s1 s2 :
  (∀ d, d ∈ D ↔ d ∈ D') →
  rows_eliminated A D s s1 → rows_eliminated A D' t s2 →
  (∀ p a b,
     (∀ d, d ∈ D → ¬ (p ∈ row_slots A (d / M) ∧ a = d mod M)) →
     vget (vals t) p a b = vget (vals s) p a b) →
  s1 = s2.
Proof.
  intros HD (Hs1 & Hm1 & Hone1 & Hother1) (Hs2 & Hm2 & Hone2 & Hother2) Hst.
  apply valid_ext; [done|done|congruence|]. intros p a b.
  destruct (decide (Exists (λ d, p ∈ row_slots A (d / M) ∧ a = d mod M) D))
    as [Hex|Hnex].
  - apply Exists_exists in Hex as (d & Hd & Hp & ->).
    destruct (decide (0 ≤ b < N)) as [Hb|Hb].
    + rewrite Hone1, Hone2 by (done || by apply HD). done.
    + rewrite (vget_outside (vals s1) (nnz s1)), (vget_outside (vals s2) (nnz s2));
        [done|by apply valid_shape|by intros (_ & _ & ?)
        |by apply valid_shape|by intros (_ & _ & ?)].
  - assert (∀ d, d ∈ D → ¬ (p ∈ row_slots A (d / M) ∧ a = d mod M)) as Hno.
    { intros d Hd Hpa. apply Hnex, Exists_exists. eauto. }
    rewrite (Hother1 p a b Hno), <- (Hst p a b Hno). symmetry.
    apply Hother2. intros d Hd. apply Hno. by apply HD.
Qed.

(** X12.  [zero_rows] is idempotent: on a matrix with a valid CSR
    pattern, for in-range DOFs whose row offsets are below [N] (or whose
    diagonal blocks are absent from the pattern), a second call with the
    same arguments returns the matrix that the first call has returned. *)
Theorem zero_rows_idempotent A nbcs dof :
  valid A →
  dofs_in_range M (nbrows A) nbcs dof →
  Forall (diag_in_block A) (take (Z.to_nat nbcs) dof) →
  ∃ A', zero_rows nbcs dof A = Some (tt, A') ∧
        zero_rows nbcs dof A' = Some (tt, A').
Proof.
  intros HA Hin Hdiag.
  pose proof (bcs_in_range_intro A nbcs dof Hin Hdiag) as Hbcs.
  destruct (zero_rows_spec A nbcs dof A HA eq_refl Hbcs) as (A1 & Hrun1 & H1).
  pose proof H1 as (HA1 & Hm1 & _ & Hother1).
  destruct (zero_rows_spec A nbcs dof A1 HA1 Hm1 Hbcs) as (A2 & Hrun2 & H2).
  exists A1. split; [done|]. rewrite Hrun2. do 2 f_equal.
  apply (rows_eliminated_unique A (take (Z.to_nat nbcs) dof)
           (take (Z.to_nat nbcs) dof) A1 A A2 A1); [done..|].
  intros p a b Hno. symmetry. by apply Hother1.
Qed.



(** *** Export *)

(** X15.  [write_mtx] by itself needs neither a duplicate-free pattern
    nor a dense size that fits [index_t]: on a matrix with a valid CSR
    pattern such that the three numbers of the size line, [M * nbrows],
    [N * nbcols] and [nnz * M * N], are [index_t] values, it leaves the
    matrix as it is and writes the header, the size line and [nnz * M * N]
    entry lines, which are exactly the lines [(M * i + ii + 1,
    N * cols[p] + jj + 1, vals(p, ii, jj))] of the storage slots [p] of
    the block rows [i] and of the block offsets [(ii, jj)]. *)
Theorem write_mtx_file A :
  valid A →
  M * nbrows A ≤ MAX_INDEX → N * nbcols A ≤ MAX_INDEX →
  nnz A * M * N ≤ MAX_INDEX →
  ∃ lines,
    write_mtx A
    = Some (MtxHeader "%%MatrixMarket matrix coordinate real general"
            :: MtxSize (M * nbrows A) (N * nbcols A) (nnz A * M * N)
            :: lines, A) ∧
    Z.of_nat (length lines) = nnz A * M * N ∧
    (∀ l, l ∈ lines ↔
       ∃ i p j ii jj v,
         0 ≤ i < nbrows A ∧ p ∈ row_slots A i ∧ at_index (cols A) p = Some j ∧
         0 ≤ ii < M ∧ 0 ≤ jj < N ∧ vget (vals A) p ii jj = Some v ∧
         l = MtxEntry (M * i + ii + 1) (N * j + jj + 1) v).
Proof.
  intros HA Hm Hn Hz. exists (entry_line <$> entries A). split_and!.
  - by apply write_mtx_lines.
  - rewrite length_fmap. by apply length_entries.
  - intros l. rewrite list_elem_of_fmap. split.
    + intros (e & -> & (i & p & j & ii & jj & v & ? & ? & ? & ? & ? & ? & ->)
                %elem_of_entries).
      exists i, p, j, ii, jj, v. split_and!; (done || lia).
    + intros (i & p & j & ii & jj & v & ? & ? & ? & ? & ? & ? & ->).
      exists (M * i + ii, N * j + jj, v). split; [done|].
      apply elem_of_entries. exists i, p, j, ii, jj, v. split_and!; (done || lia).
Qed.

Lemma scatter_length n es buf buf' :
  scatter n es buf = Some buf' → length buf' = length buf.
Proof.
  revert buf. induction es as [|e es IH]; intros buf; simpl.
  - by intros [= <-].
  - destruct (store_index buf (cell n e) e.2) as [buf1|] eqn:Hst; [|done].
    simpl. intros Hrun. rewrite (IH _ Hrun). by eapply length_store_index.
Qed.

(** A cell that none of the entries occupies keeps its content. *)
Lemma scatter_other n es buf buf' k :
  scatter n es buf = Some buf' → (∀ e, e ∈ es → cell n e ≠ k) →
  at_index buf' k = at_index buf k.
Proof.
  revert buf. induction es as [|e es IH]; intros buf; simpl.
  - by intros [= <-].
  - destruct (store_index buf (cell n e) e.2) as [buf1|] eqn:Hst; [|done].
    simpl. intros Hrun Hno.
    rewrite (IH _ Hrun) by (intros; apply Hno; by right).
    rewrite (at_store_index _ _ _ _ k Hst).
    rewrite decide_False; [done|]. intros ->. by apply (Hno e); [left|].
Qed.

(** In an increasing run of integers, what follows an element is
    greater. *)
Lemma seqZ_split_later m n (l1 l2 : list Z) x :
  seqZ m n = l1 ++ x :: l2 → ∀ y, y ∈ l2 → x < y.
Proof.
  intros Heq y [k Hk]%list_elem_of_lookup.
  assert (seqZ m n !! length l1 = Some x) as Hx
    by (rewrite Heq; apply list_lookup_middle; done).
  assert (seqZ m n !! (length l1 + S k)%nat = Some y) as Hy.
  { rewrite Heq, lookup_app_r by lia.
    by replace (length l1 + S k - length l1)%nat with (S k) by lia. }
  apply lookup_seqZ in Hx as [-> _], Hy as [-> _]. lia.
Qed.

Lemma elem_of_block_entries A i p j e :
  e ∈ block_entries A i p j ↔
  ∃ ii jj v, 0 ≤ ii < M ∧ 0 ≤ jj < N ∧ vget (vals A) p ii jj = Some v ∧
             e = (M * i + ii, N * j + jj, v).
Proof.
  unfold block_entries, row_entries. split.
  - intros (ii & (jj & (v & He & Hv)%list_elem_of_bind & Hjj)%list_elem_of_bind
            & Hii)%list_elem_of_bind.
    apply list_elem_of_singleton in He. apply elem_of_option_list in Hv.
    apply elem_of_seqZ in Hii, Hjj.
    exists ii, jj, v. split_and!; try done; lia.
  - intros (ii & jj & v & Hii & Hjj & Hv & ->).
    apply list_elem_of_bind. exists ii. split; [|apply elem_of_seqZ; lia].
    apply list_elem_of_bind. exists jj. split; [|apply elem_of_seqZ; lia].
    apply list_elem_of_bind. exists v. split; [|by apply elem_of_option_list].
    by apply list_elem_of_singleton.
Qed.

(** X16.  [to_dense] on a pattern with duplicates.  On a matrix with a
    valid CSR pattern whose dense size is an [index_t], duplicate-free or
    not, [to_dense] returns a buffer of [m * n] scalars in which every
    position covered by no block of the pattern is zero, and in which a
    block [(i, j)] that the row [i] lists more than once shows the
    scalars of the last of its storage slots: for the greatest index [p]
    of the row with [cols[p] == j],
    [A[n * (M * i + ii) + (N * j + jj)] = vals(p, ii, jj)]. *)
Theorem to_dense_last_slot_wins A :
  valid A → dense_fits A →
  ∃ buf,
    to_dense A = Some ((M * nbrows A, N * nbcols A, buf), A) ∧
    Z.of_nat (length buf) = (M * nbrows A) * (N * nbcols A) ∧
    (∀ i p j ii jj,
       0 ≤ i < nbrows A → p ∈ row_slots A i → at_index (cols A) p = Some j →
       (∀ q, q ∈ row_slots A i → at_index (cols A) q = Some j → q ≤ p) →
       0 ≤ ii < M → 0 ≤ jj < N →
       ∃ v, vget (vals A) p ii jj = Some v ∧
            at_index buf (N * nbcols A * (M * i + ii) + (N * j + jj)) = Some v) ∧
    (∀ r c,
       0 ≤ r < M * nbrows A → 0 ≤ c < N * nbcols A →
       ¬ block_present A (r / M) (c / N) →
       at_index buf (N * nbcols A * r + c) = Some zeroT).
Proof.
  intros HA Hfit. pose proof Hfit as (Hm & Hn & Hmn).
  pose proof (valid_M A HA) as HM. pose proof (valid_N A HA) as HN.
  pose proof (valid_pattern A HA) as Hpat.
  destruct (csr_nbrows A Hpat) as [Hr0 _].
  destruct (csr_nbcols A Hpat) as [Hc0 _].
  set (n := N * nbcols A). set (m := M * nbrows A).
  assert (∀ e, e ∈ entries A →
            0 ≤ cell n e < Z.of_nat (Z.to_nat (m * n))) as Hcells.
  { intros e [Hr Hc]%entries_range; [|done].
    unfold cell. fold n m in Hr, Hc. nia. }
  destruct (scatter_spec n (entries A) (replicate (Z.to_nat (m * n)) zeroT))
    as (buf & Hrun & Hlen & Hother & _).
  { intros e He. rewrite length_replicate. by apply Hcells. }
  rewrite length_replicate in Hlen.
  exists buf. split_and!.
  - rewrite to_dense_scatter by done. fold n m. by rewrite Hrun.
  - fold m n. nia.
  - intros i p j ii jj Hi Hp Hj Hlast Hii Hjj.
    pose proof (row_slots_range A i p Hpat Hi Hp) as Hpr.
    destruct (csr_cols_lookup A p Hpat Hpr) as (j' & Hj' & Hjr).
    assert (j' = j) as -> by congruence.
    destruct (proj2 (vget_is_Some_shape (vals A) (nnz A) M N p ii jj
                       (valid_shape A HA))) as [v Hv]; [lia|].
    exists v. split; [done|].
    (* the entries, split around the block of the slot [p] *)
    destruct (list_elem_of_split (slots A) (i, p)) as (s1 & s2 & Hsplit);
      [by apply elem_of_slots|].
    assert (∀ i' q, (i', q) ∈ s2 → p < q) as Hlater.
    { intros i' q Hq.
      apply (seqZ_split_later 0 (nnz A) (snd <$> s1) (snd <$> s2) p).
      - by rewrite <- (slots_order A Hpat), Hsplit, fmap_app, fmap_cons.
      - apply list_elem_of_fmap. by exists (i', q). }
    assert (∀ i' q, (i', q) ∈ s2 → 0 ≤ i' < nbrows A ∧ q ∈ row_slots A i')
      as Hs2.
    { intros i' q Hq. apply elem_of_slots. rewrite Hsplit.
      apply elem_of_app. right. by right. }
    pose proof Hrun as Hrun'.
    rewrite entries_slots, Hsplit, bind_app, bind_cons in Hrun'.
    simpl in Hrun'. unfold slot_entries at 2 in Hrun'.
    rewrite Hj in Hrun'. simpl in Hrun'. rewrite app_nil_r in Hrun'.
    rewrite scatter_app in Hrun'. revert Hrun'.
    match goal with
    | |- context [scatter n ?E (replicate ?k zeroT)] =>
        destruct (scatter n E (replicate k zeroT)) as [b1|] eqn:Hb1; [|done]
    end. simpl.
    rewrite scatter_app.
    destruct (scatter n (block_entries A i p j) b1) as [b2|] eqn:Hb2; [|done].
    simpl. intros Hrun'.
    pose proof (scatter_length _ _ _ _ Hb1) as Hlen1.
    rewrite length_replicate in Hlen1.
    set (k := n * (M * i + ii) + (N * j + jj)).
    assert (∀ e, e ∈ block_entries A i p j → e ∈ entries A) as Hblock.
    { intros e (ii' & jj' & v' & ? & ? & ? & ->)%elem_of_block_entries.
      apply elem_of_entries. exists i, p, j, ii', jj', v'.
      split_and!; (done || lia). }
    (* the block writes [v] to the cell *)
    assert (at_index b2 k = Some v) as Hk2.
    { destruct (scatter_spec n (block_entries A i p j) b1)
        as (b2' & Hb2' & _ & _ & Hwin).
      { intros e He. rewrite Hlen1. by apply Hcells, Hblock. }
      rewrite Hb2 in Hb2'. injection Hb2' as <-.
      destruct (Hwin k) as (e & He & Hce & ->).
      { exists (M * i + ii, N * j + jj, v). split; [|done].
        apply elem_of_block_entries. exists ii, jj, v.
        split_and!; (done || lia). }
      apply elem_of_block_entries in He
        as (ii' & jj' & v' & Hii' & Hjj' & Hv' & ->).
      unfold cell, k in Hce. simpl in Hce.
      apply block_coordinates in Hce as [Hrr Hcc]; [|unfold n; nia|unfold n; nia..].
      apply block_coordinates in Hrr as [_ ->]; [|lia..].
      apply block_coordinates in Hcc as [_ ->]; [|lia..].
      simpl. congruence. }
    (* no later slot writes to the cell *)
    rewrite (scatter_other _ _ _ _ k Hrun'); [done|].
    intros e ([i' q] & He & Hq)%list_elem_of_bind Hce.
    destruct (Hs2 i' q Hq) as [Hi' Hq'].
    pose proof (row_slots_range A i' q Hpat Hi' Hq') as Hqr.
    destruct (csr_cols_lookup A q Hpat Hqr) as (jq & Hjq & Hjqr).
    unfold slot_entries in He. rewrite Hjq in He. simpl in He.
    rewrite app_nil_r in He.
    apply elem_of_block_entries in He
      as (ii' & jj' & v' & Hii' & Hjj' & Hv' & ->).
    unfold cell, k in Hce. simpl in Hce.
    apply block_coordinates in Hce as [Hrr Hcc]; [|unfold n; nia|unfold n; nia..].
    apply block_coordinates in Hrr as [-> _]; [|lia..].
    apply block_coordinates in Hcc as [-> _]; [|lia..].
    pose proof (Hlast q Hq' Hjq). pose proof (Hlater i q Hq). lia.
  - intros r c Hr Hc Habs. rewrite Hother.
    + apply at_index_replicate. nia.
    + by apply entries_cover.
Qed.

End BSRMat.

Notation "'let*' x ':=' c 'in' k" := (bind c (λ x, k))
  (at level 10, x pattern, c at level 100, k at level 200).

(** ** Instances

    The scalars are integers and [index_t] has 32 bits. *)

Definition MAX32 : Z := 4294967295.

(** *** The 4 x 4 matrix of two diagonal 2 x 2 blocks *)

(** [nbrows = nbcols = 2], [rowp = [0, 1, 2]], [cols = [0, 1]], storage
    zeroed. *)
Definition diag2 : BSRMat :=
  {| nbrows := 2; nbcols := 2; nnz := 2;
     rowp := [0; 1; 2]; cols := [0; 1];
     diag := []; perm := []; iperm := []; num_colors := 0; color_count := [];
     vals := [ [[0; 0]; [0; 0]]; [[0; 0]; [0; 0]] ] |}.

(** The local matrix [5 * identity]. *)
Definition scaled_identity (ii jj : Z) : Z := if decide (ii = jj) then 5 else 0.

(** A local matrix of distinct entries. *)
Definition numbered (ii jj : Z) : Z := 10 * ii + jj + 1.

Lemma diag2_csr : csr_pattern MAX32 diag2.
Proof.
  split; try (vm_compute; done).
  - repeat first [lia | constructor].
  - repeat first [done | constructor].
Qed.

Lemma diag2_valid : valid MAX32 2 2 diag2.
Proof. split; [apply diag2_csr|done..]. Qed.

Lemma diag2_dup_free : dup_free diag2.
Proof.
  unfold dup_free. change (seqZ 0 (nbrows diag2)) with [0; 1].
  repeat constructor; vm_compute; by intros ?%elem_of_nil.
Qed.

Lemma diag2_dense_fits : dense_fits MAX32 2 2 diag2.
Proof. vm_compute. by split_and!. Qed.

Lemma diag2_dofs : dofs_in_range 2 2 4 [0; 1; 2; 3].
Proof. split; [vm_compute; done|]. repeat constructor; vm_compute; done. Qed.

(** The example of the specification: [5 * identity] assembled at the DOFs
    [0, 1, 2, 3], then [zero_rows({0})]; the scalar row 0 of the dense
    matrix is [1, 0, 0, 0] and the scalar row 1 is as assembled. *)
Example diag2_assemble_then_eliminate :
  (let* _ := add_values Z.add MAX32 2 2 4 [0; 1; 2; 3] 4 [0; 1; 2; 3]
               scaled_identity in
   let* _ := zero_rows 0 1 MAX32 2 2 1 [0] in
   let* d := to_dense 0 MAX32 2 2 in
   ret d) diag2
  = Some ((4, 4, [1; 0; 0; 0;  0; 5; 0; 0;  0; 0; 5; 0;  0; 0; 0; 5]),
          set_vals diag2 [ [[1; 0]; [0; 5]]; [[5; 0]; [0; 5]] ]).
Proof. vm_compute. reflexivity. Qed.

(** The entries of [numbered] that fall into the two diagonal blocks are
    added, the eight others are dropped. *)
Example diag2_add_values_numbered :
  add_values Z.add MAX32 2 2 4 [0; 1; 2; 3] 4 [0; 1; 2; 3] numbered diag2
  = Some (tt, set_vals diag2 [ [[1; 2]; [11; 12]]; [[23; 24]; [33; 34]] ]).
Proof. vm_compute. reflexivity. Qed.

Lemma diag2_all_zero : all_zero 0 diag2.
Proof. repeat constructor. Qed.

Lemma diag2_dof0 : dof_in_range 2 diag2 0.
Proof. vm_compute. by split. Qed.

Lemma diag2_diag0 : diag_in_block 2 2 diag2 0.
Proof. left. vm_compute. reflexivity. Qed.

(** [numbered], but for the entry [(0, 2)], whose block [(0, 1)] the
    pattern of [diag2] lacks. *)
Definition numbered' (ii jj : Z) : Z :=
  if decide (ii = 0 ∧ jj = 2) then 999 else numbered ii jj.

Lemma diag2_pair_0_2_absent :
  pair_absent 2 2 diag2 [0; 1; 2; 3] [0; 1; 2; 3] 0 2.
Proof.
  exists 0, 2. split_and!; [done..|].
  intros q Hq. change (row_slots diag2 (0 / 2)) with [0] in Hq.
  apply list_elem_of_singleton in Hq as ->. vm_compute. discriminate.
Qed.

(** *** The theorems at [diag2] *)

Lemma find_column_index_lookup_witness :
  csr_pattern MAX32 diag2 ∧ nnz diag2 < MAX32 ∧ 0 ≤ 1 < nbrows diag2 ∧
  find_column_index MAX32 1 1 diag2 = Some (1, diag2) ∧
  ∃ p, find_column_index MAX32 1 0 diag2 = Some (p, diag2) ∧ p = MAX32.
Proof.
  assert (nnz diag2 < MAX32) as Hn by (vm_compute; reflexivity).
  assert (0 ≤ 1 < nbrows diag2) as Hr by (vm_compute; split; [discriminate|reflexivity]).
  split; [apply diag2_csr|]. split; [exact Hn|]. split; [exact Hr|]. split.
  - destruct (find_column_index_lookup MAX32 diag2 1 1 diag2_csr Hn Hr)
      as (lo & hi & p & Hlo & Hhi & Hrun & Hfound & _).
    vm_compute in Hlo, Hhi. injection Hlo as <-. injection Hhi as <-.
    destruct Hfound as [Hp _]; [exists 1; split; [lia|reflexivity]|].
    assert (p = 1) as -> by lia. exact Hrun.
  - destruct (find_column_index_lookup MAX32 diag2 1 0 diag2_csr Hn Hr)
      as (lo & hi & p & Hlo & Hhi & Hrun & _ & Habsent & _).
    vm_compute in Hlo, Hhi. injection Hlo as <-. injection Hhi as <-.
    exists p. split; [exact Hrun|]. apply Habsent.
    intros q Hq. assert (q = 1) as -> by lia. vm_compute. discriminate.
Defined.

Lemma add_values_assembles_witness :
  valid MAX32 2 2 diag2 ∧
  (∃ A', add_values Z.add MAX32 2 2 4 [0; 1; 2; 3] 4 [0; 1; 2; 3] numbered diag2
         = Some (tt, A') ∧
         vget (vals A') 1 0 1 = Some 24) ∧
  (∃ A' p,
     assemble Z.add MAX32 2 2
       [ {| call_m := 4; call_i := [0; 1; 2; 3]; call_n := 4;
            call_j := [0; 1; 2; 3]; call_mat := numbered |};
         {| call_m := 2; call_i := [2; 3]; call_n := 2;
            call_j := [2; 3]; call_mat := scaled_identity |} ] diag2
     = Some (tt, A') ∧
     find_column_index MAX32 1 1 A' = Some (p, A') ∧
     vget (vals A') p 0 0 = Some 28).
Proof.
  destruct (add_values_assembles 0 Z.add MAX32 2 2 diag2 diag2_valid)
    as (Hcall & _ & Hassemble).
  split_and!; [apply diag2_valid| |].
  - destruct (Hcall 4 [0; 1; 2; 3] 4 [0; 1; 2; 3] numbered diag2_dofs diag2_dofs)
      as (A' & Hrun & Hv).
    exists A'. split; [exact Hrun|]. rewrite Hv. vm_compute. reflexivity.
  - destruct (Hassemble
                [ {| call_m := 4; call_i := [0; 1; 2; 3]; call_n := 4;
                     call_j := [0; 1; 2; 3]; call_mat := numbered |};
                  {| call_m := 2; call_i := [2; 3]; call_n := 2;
                     call_j := [2; 3]; call_mat := scaled_identity |} ]
                diag2_all_zero)
      as (A' & Hrun & Hread).
    { repeat constructor; vm_compute; done. }
    destruct (Hread 1 1 0 0) as (p & Hfind & Hval); [by vm_compute..|].
    exists A', p. split_and!; [exact Hrun|exact Hfind|].
    vm_compute in Hrun. injection Hrun as <-.
    vm_compute in Hfind. injection Hfind as <-.
    rewrite Hval by (vm_compute; discriminate). vm_compute. reflexivity.
Defined.

Lemma add_values_drops_absent_witness :
  valid MAX32 2 2 diag2 ∧
  dofs_in_range 2 (nbrows diag2) 4 [0; 1; 2; 3] ∧
  4 ≤ Z.of_nat (length [0; 1; 2; 3]) ∧
  ∃ A', add_values Z.add MAX32 2 2 4 [0; 1; 2; 3] 4 [0; 1; 2; 3] numbered diag2
        = Some (tt, A') ∧
        add_values Z.add MAX32 2 2 4 [0; 1; 2; 3] 4 [0; 1; 2; 3] numbered' diag2
        = Some (tt, A') ∧
        add_values_pair Z.add MAX32 2 [0; 1; 2; 3] numbered (0 / 2) (0 mod 2) 0 2 A'
        = Some (tt, A') ∧
        addressed MAX32 2 2 diag2 [0; 1; 2; 3] [0; 1; 2; 3] 0 2 = None ∧
        vget (vals A') 0 0 1 = Some 2 ∧
        vget (vals A') 1 1 0 = Some 33.
Proof.
  assert (4 ≤ Z.of_nat (length [0; 1; 2; 3])) as Hlen by (by vm_compute).
  split; [apply diag2_valid|]. split; [apply diag2_dofs|].
  split; [exact Hlen|].
  destruct (add_values_drops_absent Z.add MAX32 2 2 diag2
              4 [0; 1; 2; 3] 4 [0; 1; 2; 3] numbered
              diag2_valid diag2_dofs Hlen)
    as (A' & Hrun & Hpair & Hnone & _ & Hsum & Hext & _).
  exists A'. split_and!; [exact Hrun| | | | |].
  - apply Hext. intros ii jj Hii Hjj Hpresent. unfold numbered'.
    destruct (decide (ii = 0 ∧ jj = 2)) as [[-> ->]|]; [|reflexivity].
    destruct Hpresent. apply diag2_pair_0_2_absent.
  - apply (Hpair A' 0 2 0 2); [| |lia|lia|reflexivity|reflexivity|].
    + vm_compute in Hrun. injection Hrun as <-.
      apply (valid_same_shape MAX32 2 2 diag2);
        [apply diag2_valid|reflexivity..].
    + vm_compute in Hrun. injection Hrun as <-. reflexivity.
    + destruct diag2_pair_0_2_absent as (di & dj & [= <-] & [= <-] & Habs).
      exact Habs.
  - apply Hnone; [lia|lia|]. apply diag2_pair_0_2_absent.
  - rewrite Hsum. vm_compute. reflexivity.
  - rewrite Hsum. vm_compute. reflexivity.
Defined.

Lemma zero_rows_identity_row_witness :
  valid MAX32 2 2 diag2 ∧ dof_in_range 2 diag2 0 ∧ diag_in_block 2 2 diag2 0 ∧
  zero_rows_eliminates 0 1 MAX32 2 2 diag2 0.
Proof.
  split; [apply diag2_valid|]. split; [apply diag2_dof0|].
  split; [apply diag2_diag0|].
  apply (zero_rows_identity_row 0 1 MAX32 2 2 diag2 0
           diag2_valid diag2_dof0 diag2_diag0).
Defined.

Lemma zero_rows_other_rows_unchanged_witness :
  valid MAX32 2 2 diag2 ∧
  dofs_in_range 2 (nbrows diag2) 1 [0] ∧
  Forall (diag_in_block 2 2 diag2) (take (Z.to_nat 1) [0]) ∧
  zero_rows_keeps_other_rows 0 1 MAX32 2 2 diag2 1 [0].
Proof.
  assert (dofs_in_range 2 (nbrows diag2) 1 [0]) as Hin.
  { repeat first [by vm_compute | constructor]. }
  assert (Forall (diag_in_block 2 2 diag2) (take (Z.to_nat 1) [0])) as Hdiag.
  { constructor; [apply diag2_diag0|constructor]. }
  split; [apply diag2_valid|]. split; [exact Hin|]. split; [exact Hdiag|].
  apply (zero_rows_other_rows_unchanged 0 1 MAX32 2 2 diag2 1 [0]
           diag2_valid Hin Hdiag).
Defined.

Lemma to_dense_materialises_witness :
  valid MAX32 2 2 diag2 ∧ dup_free diag2 ∧ dense_fits MAX32 2 2 diag2 ∧
  to_dense_correct 0 MAX32 2 2 diag2.
Proof.
  split; [apply diag2_valid|]. split; [apply diag2_dup_free|].
  split; [apply diag2_dense_fits|].
  apply (to_dense_materialises 0 MAX32 2 2 diag2
           diag2_valid diag2_dup_free diag2_dense_fits).
Defined.

Lemma write_mtx_agrees_with_to_dense_witness :
  valid MAX32 2 2 diag2 ∧ dup_free diag2 ∧ dense_fits MAX32 2 2 diag2 ∧
  mtx_matches_dense 0 MAX32 2 2 diag2.
Proof.
  split; [apply diag2_valid|]. split; [apply diag2_dup_free|].
  split; [apply diag2_dense_fits|].
  apply (write_mtx_agrees_with_to_dense 0 MAX32 2 2 diag2
           diag2_valid diag2_dup_free diag2_dense_fits).
Defined.

Lemma ctor_copies_pattern_witness :
  ctor_args MAX32 2 2 [0; 1; 2] [0; 1] ∧ 2 < MAX32 ∧
  ctor_copies (T:=Z) MAX32 2 2 2 2 2 [0; 1; 2] [0; 1] 7 7 7.
Proof.
  assert (ctor_args MAX32 2 2 [0; 1; 2] [0; 1]) as Hargs.
  { vm_compute. repeat split; discriminate. }
  assert (2 < MAX32) as Hlt by reflexivity.
  split; [exact Hargs|]. split; [exact Hlt|].
  apply (ctor_copies_pattern MAX32 2 2 2 2 2 [0; 1; 2] [0; 1] 7 7 7 Hargs Hlt).
Defined.

(** The matrix that the constructor builds from the pattern of [diag2],
    before [zero()]. *)
Example diag2_constructed :
  BSRMat_ctor MAX32 2 2 2 2 2 [0; 1; 2] [0; 1] 7 7 7
  = Some {| nbrows := 2; nbcols := 2; nnz := 2;
            rowp := [0; 1; 2]; cols := [0; 1];
            diag := []; perm := []; iperm := [];
            num_colors := 7; color_count := [];
            vals := [ [[7; 7]; [7; 7]]; [[7; 7]; [7; 7]] ] |}.
Proof. vm_compute. reflexivity. Qed.

(** *** Blocks that are not square

    A 6 x 6 matrix of 3 x 2 blocks: two block rows, three block columns,
    and the blocks [(0, 0)] and [(1, 1)]. *)
Definition rect : BSRMat :=
  {| nbrows := 2; nbcols := 3; nnz := 2;
     rowp := [0; 1; 2]; cols := [0; 1];
     diag := []; perm := []; iperm := []; num_colors := 0; color_count := [];
     vals := [ [[1; 2]; [3; 4]; [5; 6]]; [[7; 8]; [9; 10]; [11; 12]] ] |}.

Lemma rect_valid : valid MAX32 3 2 rect.
Proof.
  split; [split; try (by vm_compute)|done..].
  - repeat first [lia | constructor].
  - repeat first [done | constructor].
Qed.

(** The DOF 2 is a row of [rect], of block row 0 and row offset 2; the
    block [(0, 0)] is in the pattern and has no position [(2, 2)], which
    [zero_rows] writes: the call has no defined outcome. *)
Example rect_zero_rows_faults : zero_rows 0 1 MAX32 3 2 1 [2] rect = None.
Proof. vm_compute. reflexivity. Qed.

Lemma zero_rows_identity_row_counterexample :
  valid MAX32 3 2 rect ∧ dof_in_range 3 rect 2 ∧
  ¬ zero_rows_eliminates 0 1 MAX32 3 2 rect 2.
Proof.
  split; [apply rect_valid|]. split; [by vm_compute|].
  intros (A' & Hrun & _). vm_compute in Hrun. discriminate.
Qed.

Lemma zero_rows_other_rows_unchanged_counterexample :
  valid MAX32 3 2 rect ∧ dofs_in_range 3 (nbrows rect) 1 [2] ∧
  ¬ zero_rows_keeps_other_rows 0 1 MAX32 3 2 rect 1 [2].
Proof.
  split; [apply rect_valid|]. split.
  - repeat first [by vm_compute | constructor].
  - intros (A' & Hrun & _). vm_compute in Hrun. discriminate.
Qed.

(** *** A dense size beyond [index_t]

    A 65536 x 65536 matrix of 16 x 16 blocks, with an empty pattern: its
    dense size is [2^32]. *)
Definition wide : @BSRMat Z :=
  {| nbrows := 4096; nbcols := 4096; nnz := 0;
     rowp := replicate 4097 0; cols := [];
     diag := []; perm := []; iperm := []; num_colors := 0; color_count := [];
     vals := [] |}.

Lemma Sorted_replicate (n : nat) (x : Z) : Sorted Z.le (replicate n x).
Proof.
  induction n as [|n IH]; simpl; constructor; [done|].
  destruct n; simpl; constructor. lia.
Qed.

Lemma wide_valid : valid MAX32 16 16 wide.
Proof.
  split; [split|done..]; try (by vm_compute).
  apply Sorted_replicate.
Qed.

Lemma wide_row_slots row : 0 ≤ row < 4096 → row_slots wide row = [].
Proof.
  intros Hrow. unfold row_slots.
  change (rowp wide) with (replicate 4097 0).
  unfold at_index. rewrite !decide_True by lia.
  by rewrite !lookup_replicate_2 by lia.
Qed.

Lemma wide_dup_free : dup_free wide.
Proof.
  unfold dup_free. apply Forall_seqZ. intros row Hrow.
  rewrite wide_row_slots by (simpl in Hrow; lia). constructor.
Qed.

(** [m * n] wraps to [0]: the buffer that [to_dense] allocates and
    returns is empty. *)
Example wide_to_dense :
  to_dense 0 MAX32 16 16 wide = Some ((65536, 65536, []), wide).
Proof. vm_compute. reflexivity. Qed.

(** The file of [wide] has no entry line. *)
Example wide_write_mtx :
  write_mtx MAX32 16 16 wide
  = Some ([MtxHeader "%%MatrixMarket matrix coordinate real general";
           MtxSize 65536 65536 0], wide).
Proof. vm_compute. reflexivity. Qed.

Lemma to_dense_materialises_counterexample :
  valid MAX32 16 16 wide ∧ dup_free wide ∧
  ¬ to_dense_correct 0 MAX32 16 16 wide.
Proof.
  split; [apply wide_valid|]. split; [apply wide_dup_free|].
  intros (buf & Hrun & Hlen & _).
  rewrite wide_to_dense in Hrun. injection Hrun as <-.
  vm_compute in Hlen. discriminate.
Qed.

Lemma write_mtx_agrees_with_to_dense_counterexample :
  valid MAX32 16 16 wide ∧ dup_free wide ∧
  ¬ mtx_matches_dense 0 MAX32 16 16 wide.
Proof.
  split; [apply wide_valid|]. split; [apply wide_dup_free|].
  intros (buf & lines & Hrun & Hw & _ & _ & _ & _ & Hzero).
  rewrite wide_to_dense in Hrun. injection Hrun as <-.
  rewrite wide_write_mtx in Hw. injection Hw as <-.
  specialize (Hzero 1 1 ltac:(by vm_compute) ltac:(by vm_compute)).
  vm_compute in Hzero. discriminate Hzero. by intros v ?%elem_of_nil.
Qed.

(** *** As many block rows as [index_t] has values

    An empty matrix of [MAX32] block rows: the caller's row pointers are
    [2^32] zeros. *)
Definition all_rows : list Z := replicate (Z.to_nat 4294967296) 0.

Lemma all_rows_args : ctor_args MAX32 MAX32 0 all_rows [].
Proof.
  unfold ctor_args, all_rows. rewrite length_replicate, Z2Nat.id by done.
  by vm_compute.
Qed.

Lemma ctor_copies_pattern_counterexample :
  ctor_args MAX32 MAX32 0 all_rows [] ∧
  at_index all_rows 0 = Some 0 ∧
  ¬ ctor_copies (T:=Z) MAX32 2 2 MAX32 0 0 all_rows [] 0 0 0.
Proof.
  split; [apply all_rows_args|]. split.
  - unfold all_rows. apply at_index_replicate.
    rewrite Z2Nat.id by done. done.
  - intros (A & Hrun & _ & _ & _ & Hrowp & _).
    destruct (BSRMat_ctor_wraps (T:=Z) MAX32 2 2 0 all_rows 0 0 0)
      as (A0 & Hrun0 & Hempty); [done|].
    rewrite Hrun0 in Hrun. injection Hrun as <-.
    destruct (Hrowp 0) as (x & _ & Hx); [done|].
    rewrite Hempty in Hx. discriminate Hx.
Qed.

(** *** A block row that lists a block column twice

    One block row and two block columns of 1 x 1 blocks; the row lists
    the block column 1 at the storage slots 0 and 2. *)
Definition twice : BSRMat :=
  {| nbrows := 1; nbcols := 2; nnz := 3;
     rowp := [0; 3]; cols := [1; 0; 1];
     diag := []; perm := []; iperm := []; num_colors := 0; color_count := [];
     vals := [ [[10]]; [[20]]; [[30]] ] |}.

Lemma twice_csr : csr_pattern MAX32 twice.
Proof.
  split; try (vm_compute; done).
  - repeat first [lia | constructor].
  - repeat first [done | constructor].
Qed.

Lemma twice_valid : valid MAX32 1 1 twice.
Proof. split; [apply twice_csr|done..]. Qed.

Lemma twice_dense_fits : dense_fits MAX32 1 1 twice.
Proof. vm_compute. by split_and!. Qed.

(** The lookup finds the block [(0, 1)] at the slot 0, [add_values] adds
    to that slot, and [to_dense] shows the scalar of the slot 2. *)
Example twice_lookup_and_export :
  (let* p := find_column_index MAX32 0 1 in
   let* _ := add_values Z.add MAX32 1 1 1 [0] 1 [1] (λ _ _, 5) in
   let* d := to_dense 0 MAX32 1 1 in
   ret (p, d)) twice
  = Some ((0, (1, 2, [20; 30])),
          set_vals twice [ [[15]]; [[20]]; [[30]] ]).
Proof. vm_compute. reflexivity. Qed.

(** *** The further properties at the instances *)

Lemma find_column_index_first_match_witness :
  csr_pattern MAX32 twice ∧ 0 ≤ 0 < nbrows twice ∧
  2 ∈ row_slots twice 0 ∧ at_index (cols twice) 2 = Some 1 ∧
  find_column_index MAX32 0 1 twice = Some (0, twice).
Proof.
  assert (0 ≤ 0 < nbrows twice) as Hrow by (by vm_compute).
  assert (2 ∈ row_slots twice 0) as Hq.
  { change (row_slots twice 0) with [0; 1; 2]. by do 2 right; left. }
  assert (at_index (cols twice) 2 = Some 1) as Hc by reflexivity.
  split; [apply twice_csr|]. split; [exact Hrow|]. split; [exact Hq|].
  split; [exact Hc|].
  destruct (find_column_index_first_match MAX32 twice 0 1 2 twice_csr Hrow Hq Hc)
    as (p & Hrun & Hin & _ & _ & Hfirst).
  assert (p = 0) as ->; [|exact Hrun].
  change (row_slots twice 0) with [0; 1; 2] in Hin.
  rewrite !elem_of_cons, elem_of_nil in Hin.
  destruct (decide (p = 0)) as [|Hne]; [done|].
  destruct (Hfirst 0); [|lia|reflexivity].
  change (row_slots twice 0) with [0; 1; 2]. by left.
Defined.

Lemma find_column_index_row_out_of_range_witness :
  csr_pattern MAX32 diag2 ∧ nbrows diag2 ≤ 2 < MAX32 ∧
  find_column_index MAX32 2 0 diag2 = None.
Proof.
  assert (nbrows diag2 ≤ 2 < MAX32) as Hrow by (by vm_compute).
  split; [apply diag2_csr|]. split; [exact Hrow|].
  exact (find_column_index_row_out_of_range MAX32 diag2 2 0 diag2_csr Hrow).
Defined.

Lemma find_column_index_own_slot_witness :
  csr_pattern MAX32 diag2 ∧ dup_free diag2 ∧ 0 ≤ 1 < nbrows diag2 ∧
  1 ∈ row_slots diag2 1 ∧ at_index (cols diag2) 1 = Some 1 ∧
  find_column_index MAX32 1 1 diag2 = Some (1, diag2).
Proof.
  assert (0 ≤ 1 < nbrows diag2) as Hrow by (by vm_compute).
  assert (1 ∈ row_slots diag2 1) as Hp.
  { change (row_slots diag2 1) with [1]. by left. }
  assert (at_index (cols diag2) 1 = Some 1) as Hc by reflexivity.
  split; [apply diag2_csr|]. split; [apply diag2_dup_free|].
  split; [exact Hrow|]. split; [exact Hp|]. split; [exact Hc|].
  exact (find_column_index_own_slot MAX32 diag2 1 1 1
           diag2_csr diag2_dup_free Hrow Hp Hc).
Defined.

Lemma find_column_index_stable_witness :
  csr_pattern MAX32 diag2 ∧ 0 ≤ 1 < nbrows diag2 ∧
  ∀ A', zero_rows 0 1 MAX32 2 2 1 [3] diag2 = Some (tt, A') →
        find_column_index MAX32 1 1 A' = Some (1, A').
Proof.
  assert (0 ≤ 1 < nbrows diag2) as Hrow by (by vm_compute).
  split; [apply diag2_csr|]. split; [exact Hrow|].
  destruct (find_column_index_stable 0 1 Z.add MAX32 2 2 diag2 1 1
              diag2_csr Hrow) as (p & Hrun & _ & Hzero).
  vm_compute in Hrun. injection Hrun as <-.
  intros A' HA'. exact (Hzero 1 [3] A' HA').
Defined.

Lemma ctor_builds_valid_matrix_witness :
  0 < 2 ≤ MAX32 ∧ 0 ≤ 2 < MAX32 ∧ is_index MAX32 2 ∧
  Z.of_nat (length [0; 1; 2]) = 2 + 1 ∧ Z.of_nat (length [0; 1]) = 2 ∧
  at_index [0; 1; 2] 0 = Some 0 ∧ at_index [0; 1; 2] 2 = Some 2 ∧
  Sorted Z.le [0; 1; 2] ∧ Forall (λ c, 0 ≤ c < 2) [0; 1] ∧
  ∃ A, BSRMat_ctor MAX32 2 2 2 2 2 [0; 1; 2] [0; 1] 7 7 7 = Some A ∧
       valid MAX32 2 2 A ∧ rowp A = [0; 1; 2] ∧ cols A = [0; 1] ∧ diag A = [].
Proof.
  assert (0 < 2 ≤ MAX32) as HM by (by vm_compute).
  assert (0 ≤ 2 < MAX32) as Hr by (by vm_compute).
  assert (is_index MAX32 2) as Hz by (by vm_compute).
  assert (Sorted Z.le [0; 1; 2]) as Hs by (repeat first [lia | constructor]).
  assert (Forall (λ c, 0 ≤ c < 2) [0; 1]) as Hc
    by (repeat first [lia | constructor]).
  split; [exact HM|]. split; [exact Hr|]. split; [exact Hz|].
  split; [reflexivity|]. split; [reflexivity|].
  split; [reflexivity|]. split; [reflexivity|].
  split; [exact Hs|]. split; [exact Hc|].
  destruct (ctor_builds_valid_matrix MAX32 2 2 2 2 2 [0; 1; 2] [0; 1] 7 7 7
              HM HM Hr Hz Hz eq_refl eq_refl eq_refl eq_refl Hs Hc)
    as (A & Hrun & HA & _ & _ & _ & Hrowp & Hcols & Hdiag & _).
  exists A. split; [exact Hrun|]. split; [exact HA|].
  split; [exact Hrowp|]. split; [exact Hcols|exact Hdiag].
Defined.

(** The caller's [rowp_] lacks its last entry. *)
Lemma ctor_defined_iff_witness :
  0 ≤ 2 < MAX32 ∧ is_index MAX32 2 ∧
  BSRMat_ctor (T:=Z) MAX32 2 2 2 2 2 [0; 1] [0; 1] 7 7 7 = None ∧
  is_Some (BSRMat_ctor (T:=Z) MAX32 2 2 2 2 2 [0; 1; 2; 9] [0; 1; 9] 7 7 7).
Proof.
  assert (0 ≤ 2 < MAX32) as Hr by (by vm_compute).
  assert (is_index MAX32 2) as Hz by (by vm_compute).
  split; [exact Hr|]. split; [exact Hz|]. split.
  - apply eq_None_not_Some. intros Hsome.
    apply (ctor_defined_iff MAX32 2 2 2 2 2 [0; 1] [0; 1] 7 7 7 Hr Hz) in Hsome
      as [Hlen _].
    simpl in Hlen. lia.
  - apply (ctor_defined_iff MAX32 2 2 2 2 2 [0; 1; 2; 9] [0; 1; 9] 7 7 7 Hr Hz).
    simpl. lia.
Defined.

Lemma add_values_ignores_columns_out_of_range_witness :
  valid MAX32 2 2 diag2 ∧
  dofs_in_range 2 (nbrows diag2) 2 [0; 1] ∧
  2 ≤ Z.of_nat (length [40; 41]) ∧
  Forall (λ d, nbcols diag2 ≤ d / 2) (take (Z.to_nat 2) [40; 41]) ∧
  add_values Z.add MAX32 2 2 2 [0; 1] 2 [40; 41] numbered diag2
  = Some (tt, diag2).
Proof.
  assert (dofs_in_range 2 (nbrows diag2) 2 [0; 1]) as Hi.
  { split; [by vm_compute|]. repeat constructor; by vm_compute. }
  assert (2 ≤ Z.of_nat (length [40; 41])) as Hj by (by vm_compute).
  assert (Forall (λ d, nbcols diag2 ≤ d / 2) (take (Z.to_nat 2) [40; 41]))
    as Hout by (repeat constructor; by vm_compute).
  split; [apply diag2_valid|]. split; [exact Hi|]. split; [exact Hj|].
  split; [exact Hout|].
  exact (add_values_ignores_columns_out_of_range Z.add MAX32 2 2 diag2
           2 [0; 1] 2 [40; 41] numbered diag2_valid Hi Hj Hout).
Defined.

Lemma add_values_row_out_of_range_witness :
  valid MAX32 2 2 diag2 ∧ 0 ≤ 1 < 2 ∧ at_index [0; 4] 1 = Some 4 ∧
  nbrows diag2 ≤ 4 / 2 < MAX32 ∧ 0 < 1 ∧ (0 < length [0])%nat ∧
  add_values Z.add MAX32 2 2 2 [0; 4] 1 [0] numbered diag2 = None.
Proof.
  assert (0 ≤ 1 < 2) as Hii by lia.
  assert (nbrows diag2 ≤ 4 / 2 < MAX32) as Hrow by (by vm_compute).
  assert (0 < 1) as Hn by lia.
  assert (0 < length [0])%nat as Hj by (simpl; lia).
  split; [apply diag2_valid|]. split; [exact Hii|]. split; [reflexivity|].
  split; [exact Hrow|]. split; [exact Hn|]. split; [exact Hj|].
  exact (add_values_row_out_of_range Z.add MAX32 2 2 diag2 2 [0; 4] 1 [0]
           numbered 1 4 diag2_valid Hii eq_refl Hrow Hn Hj).
Defined.

Lemma updates_keep_validity_witness :
  valid MAX32 2 2 diag2 ∧
  (∃ A', add_values Z.add MAX32 2 2 4 [0; 1; 2; 3] 4 [0; 1; 2; 3] numbered diag2
         = Some (tt, A') ∧ valid MAX32 2 2 A') ∧
  (∃ A', zero_rows 0 1 MAX32 2 2 1 [0] diag2 = Some (tt, A') ∧
         valid MAX32 2 2 A').
Proof.
  split; [apply diag2_valid|].
  destruct (updates_keep_validity 0 1 Z.add MAX32 2 2 diag2 diag2_valid)
    as [Hadd Hzero].
  split.
  - destruct (Hadd 4 [0; 1; 2; 3] 4 [0; 1; 2; 3] numbered diag2_dofs)
      as (A' & Hrun & HA' & _); [by vm_compute|].
    exists A'. split; [exact Hrun|exact HA'].
  - destruct (Hzero 1 [0]) as (A' & Hrun & HA' & _).
    + repeat first [by vm_compute | constructor].
    + constructor; [apply diag2_diag0|constructor].
    + exists A'. split; [exact Hrun|exact HA'].
Defined.

(** Two calls: [numbered] at all the DOFs, and [5 * identity] at the DOFs
    of the second block. *)
Definition call_numbered : call :=
  {| call_m := 4; call_i := [0; 1; 2; 3]; call_n := 4;
     call_j := [0; 1; 2; 3]; call_mat := numbered |}.

Definition call_identity : call :=
  {| call_m := 2; call_i := [2; 3]; call_n := 2;
     call_j := [2; 3]; call_mat := scaled_identity |}.

Lemma diag2_calls :
  Forall (call_in_range 2 2 diag2) [call_numbered; call_identity].
Proof. repeat constructor; vm_compute; done. Qed.

Lemma assemble_order_independent_witness :
  (∀ x y z : Z, x + y + z = x + (y + z)) ∧ (∀ x y : Z, x + y = y + x) ∧
  valid MAX32 2 2 diag2 ∧
  Forall (call_in_range 2 2 diag2) [call_numbered; call_identity] ∧
  [call_numbered; call_identity] ≡ₚ [call_identity; call_numbered] ∧
  ∃ A', assemble Z.add MAX32 2 2 [call_numbered; call_identity] diag2
        = Some (tt, A') ∧
        assemble Z.add MAX32 2 2 [call_identity; call_numbered] diag2
        = Some (tt, A').
Proof.
  assert (∀ x y z : Z, x + y + z = x + (y + z)) as Ha by (intros; lia).
  assert (∀ x y : Z, x + y = y + x) as Hc by (intros; lia).
  assert ([call_numbered; call_identity] ≡ₚ [call_identity; call_numbered])
    as Hp by apply perm_swap.
  split; [exact Ha|]. split; [exact Hc|]. split; [apply diag2_valid|].
  split; [apply diag2_calls|]. split; [exact Hp|].
  exact (assemble_order_independent Z.add MAX32 2 2 diag2 _ _
           Ha Hc diag2_valid diag2_calls Hp).
Defined.

Lemma assemble_then_to_dense_witness :
  valid MAX32 2 2 diag2 ∧ dup_free diag2 ∧ dense_fits MAX32 2 2 diag2 ∧
  all_zero 0 diag2 ∧
  Forall (call_in_range 2 2 diag2) [call_numbered; call_identity] ∧
  ∃ A' buf,
    (let* _ := assemble Z.add MAX32 2 2 [call_numbered; call_identity] in
     to_dense 0 MAX32 2 2) diag2 = Some ((4, 4, buf), A') ∧
    at_index buf 10 = Some 28 ∧ at_index buf 2 = Some 0.
Proof.
  split; [apply diag2_valid|]. split; [apply diag2_dup_free|].
  split; [apply diag2_dense_fits|]. split; [apply diag2_all_zero|].
  split; [apply diag2_calls|].
  destruct (assemble_then_to_dense 0 Z.add MAX32 2 2 diag2
              [call_numbered; call_identity]
              diag2_valid diag2_dup_free diag2_dense_fits diag2_all_zero
              diag2_calls) as (A' & buf & Hrun & _ & Hcells).
  exists A', buf. split; [exact Hrun|]. split.
  - destruct (Hcells 2 2) as [Hin _]; [by vm_compute..|].
    etransitivity; [apply Hin|vm_compute; reflexivity].
    exists 1. split; [|reflexivity].
    change (row_slots diag2 (2 / 2)) with [1]. by left.
  - destruct (Hcells 0 2) as [_ Hout]; [by vm_compute..|].
    apply Hout. intros (q & Hq & Hc).
    change (row_slots diag2 (0 / 2)) with [0] in Hq.
    apply list_elem_of_singleton in Hq as ->. vm_compute in Hc. discriminate.
Defined.

Lemma diag2_bcs_0_3 :
  dofs_in_range 2 (nbrows diag2) 2 [0; 3] ∧
  Forall (diag_in_block 2 2 diag2) (take (Z.to_nat 2) [0; 3]).
Proof.
  split.
  - split; [by vm_compute|]. repeat constructor; by vm_compute.
  - repeat constructor; left; by vm_compute.
Qed.

Lemma zero_rows_idempotent_witness :
  valid MAX32 2 2 diag2 ∧
  dofs_in_range 2 (nbrows diag2) 2 [0; 3] ∧
  Forall (diag_in_block 2 2 diag2) (take (Z.to_nat 2) [0; 3]) ∧
  ∃ A', zero_rows 0 1 MAX32 2 2 2 [0; 3] diag2 = Some (tt, A') ∧
        zero_rows 0 1 MAX32 2 2 2 [0; 3] A' = Some (tt, A').
Proof.
  destruct diag2_bcs_0_3 as [Hin Hdiag].
  split; [apply diag2_valid|]. split; [exact Hin|]. split; [exact Hdiag|].
  exact (zero_rows_idempotent 0 1 MAX32 2 2 diag2 2 [0; 3]
           diag2_valid Hin Hdiag).
Defined.


(** [diag2] with the entries of [numbered] in its two blocks. *)
Definition diag2_numbered : BSRMat :=
  set_vals diag2 [ [[1; 2]; [11; 12]]; [[23; 24]; [33; 34]] ].


(** The dense matrix of [diag2_numbered] after [zero_rows({0, 3})]: the
    rows 0 and 3 are unit rows, the rows 1 and 2 are as they were. *)
Example diag2_numbered_eliminated :
  (let* _ := zero_rows 0 1 MAX32 2 2 2 [0; 3] in to_dense 0 MAX32 2 2)
    diag2_numbered
  = Some ((4, 4, [1; 0; 0; 0;  11; 12; 0; 0;  0; 0; 23; 24;  0; 0; 0; 1]),
          set_vals diag2 [ [[1; 0]; [11; 12]]; [[23; 24]; [0; 1]] ]).
Proof. vm_compute. reflexivity. Qed.


Lemma write_mtx_file_witness :
  valid MAX32 1 1 twice ∧ 1 * nbrows twice ≤ MAX32 ∧
  1 * nbcols twice ≤ MAX32 ∧ nnz twice * 1 * 1 ≤ MAX32 ∧
  ∃ lines,
    write_mtx MAX32 1 1 twice
    = Some (MtxHeader "%%MatrixMarket matrix coordinate real general"
            :: MtxSize 1 2 3 :: lines, twice) ∧
    Z.of_nat (length lines) = 3 ∧
    MtxEntry 1 2 10 ∈ lines ∧ MtxEntry 1 2 30 ∈ lines.
Proof.
  assert (1 * nbrows twice ≤ MAX32) as Hm by (by vm_compute).
  assert (1 * nbcols twice ≤ MAX32) as Hn by (by vm_compute).
  assert (nnz twice * 1 * 1 ≤ MAX32) as Hz by (by vm_compute).
  split; [apply twice_valid|]. split; [exact Hm|]. split; [exact Hn|].
  split; [exact Hz|].
  destruct (write_mtx_file MAX32 1 1 twice twice_valid Hm Hn Hz)
    as (lines & Hrun & Hlen & Hlines).
  exists lines. split; [exact Hrun|]. split; [exact Hlen|]. split.
  - apply Hlines. exists 0, 0, 1, 0, 0, 10.
    split; [by vm_compute|]. split.
    { change (row_slots twice 0) with [0; 1; 2]. by left. }
    split; [reflexivity|]. split; [lia|]. split; [lia|].
    split; reflexivity.
  - apply Hlines. exists 0, 2, 1, 0, 0, 30.
    split; [by vm_compute|]. split.
    { change (row_slots twice 0) with [0; 1; 2]. by do 2 right; left. }
    split; [reflexivity|]. split; [lia|]. split; [lia|].
    split; reflexivity.
Defined.

Lemma to_dense_last_slot_wins_witness :
  valid MAX32 1 1 twice ∧ dense_fits MAX32 1 1 twice ∧
  ∃ buf, to_dense 0 MAX32 1 1 twice = Some ((1, 2, buf), twice) ∧
         at_index buf 1 = Some 30.
Proof.
  split; [apply twice_valid|]. split; [apply twice_dense_fits|].
  destruct (to_dense_last_slot_wins 0 MAX32 1 1 twice
              twice_valid twice_dense_fits) as (buf & Hrun & _ & Hlast & _).
  exists buf. split; [exact Hrun|].
  destruct (Hlast 0 2 1 0 0) as (v & Hv & Hbuf);
    [by vm_compute| |reflexivity| |lia|lia|].
  - change (row_slots twice 0) with [0; 1; 2]. by do 2 right; left.
  - intros q Hq _. change (row_slots twice 0) with [0; 1; 2] in Hq.
    rewrite !elem_of_cons, elem_of_nil in Hq. lia.
  - vm_compute in Hv. injection Hv as <-. exact Hbuf.
Defined.
